(** * SDfu [src/train.py]: textual inversion / custom diffusion fine-tuning

    A shallow embedding of the training script.  The script is one [main]
    function that drives external libraries (transformers, diffusers,
    torch); what [main] itself decides is modelled here:

    - the parsing of the [+]-separated command line lists and the two
      assertions on their lengths (lines 78-85);
    - the extension of the tokenizer with the modifier tokens and the
      initialisation of their embedding rows (lines 88-99);
    - the construction of the optimizer and the learning-rate scaling
      (lines 118-136);
    - the loss (lines 179-185), the gradient mask (lines 190-194) and the
      optimizer step on the embedding table (line 196);
    - the epoch / step loop with its periodic checkpoint and sample cycle
      and the final checkpoint (lines 157-228); the number of epochs is
      [math.ceil] of a binary64 quotient, as Python computes it (line 158).

    Library objects are represented by the part of their documented
    behaviour that [main] relies on; everything that comes from outside
    (pretrained weights, the dataset, autograd, the sampling pipeline) is a
    field of the record [World]. *)

From Stdlib Require Import ZArith QArith Qcanon String Ascii List Lia.
From Stdlib Require Import SpecFloat.
From stdpp Require Import base gmap strings list.

Open Scope Z_scope.

(** ** Python values used by the script *)

(** [s.split(sep)] for a one-character separator: never an empty list. *)
Fixpoint split (sep : ascii) (s : string) : list string :=
  match s with
  | EmptyString => [EmptyString]
  | String c s' =>
      if Ascii.eqb c sep then EmptyString :: split sep s'
      else match split sep s' with
           | [] => [String c EmptyString]
           | h :: t => String c h :: t
           end
  end.

Definition plus_sign : ascii := "+"%char.

(** ['<%s>' % t] *)
Definition angle (t : string) : string := String.append "<" (String.append t ">").

(** ['%s %s' % (x, y)] *)
Definition fmt_pair (x y : string) : string := String.append x (String.append " " y).

(** [s[1:-1]] *)
Definition strip_ends (s : string) : string :=
  match s with
  | EmptyString => EmptyString
  | String _ s' => String.substring 0 (Nat.pred (String.length s')) s'
  end.

(** Exceptions that reach the top of [main]. *)
Inductive exn : Type :=
| AssertionError (msg : string)
| AttributeError
| IndexError
| ValueError
| ZeroDivisionError
| OverflowError
| ExternalError (what : string).

Inductive result (A : Type) : Type :=
| Ok (a : A)
| Raise (e : exn).
Arguments Ok {A} a.
Arguments Raise {A} e.

(** ** Scalars

    The tensors of the script hold floating-point numbers.  The model is
    written once over an interface of scalar operations and is run on two
    instances: IEEE binary32 (the [torch.float32] the text encoder is cast
    to at line 152) and exact rationals. *)

Class Scalar (T : Type) : Type := {
  sc_of_Z : Z -> T;
  sc_add : T -> T -> T;
  sc_sub : T -> T -> T;
  sc_mul : T -> T -> T;
  sc_div : T -> T -> T;
  sc_sqrt : T -> T
}.

Definition binary32 : Scalar spec_float := {|
  sc_of_Z := fun z => binary_normalize 24 128 z 0 false;
  sc_add := SFadd 24 128;
  sc_sub := SFsub 24 128;
  sc_mul := SFmul 24 128;
  sc_div := SFdiv 24 128;
  sc_sqrt := SFsqrt 24 128
|}.

(** Exact arithmetic; the square root is left to the caller. *)
Definition exact (root : Qc -> Qc) : Scalar Qc := {|
  sc_of_Z := fun z => Q2Qc (inject_Z z);
  sc_add := Qcplus;
  sc_sub := Qcminus;
  sc_mul := Qcmult;
  sc_div := Qcdiv;
  sc_sqrt := root
|}.

(** A tensor whose first dimension is the batch or the token id; the
    remaining dimensions are flattened into one row. *)
Abbreviation tensor T := (list (list T)) (only parsing).

Section Numeric.
Context {T : Type} `{Scalar T}.

Definition sc_zero : T := sc_of_Z 0.
Definition sc_one : T := sc_of_Z 1.

(** A decimal literal [n / d] of the source, e.g. [1e-08]. *)
Definition lit (n d : Z) : T := sc_div (sc_of_Z n) (sc_of_Z d).

Fixpoint sc_pow (x : T) (n : nat) : T :=
  match n with
  | O => sc_one
  | S n' => sc_mul x (sc_pow x n')
  end.

Definition numel (x : tensor T) : nat := length (concat x).

Definition sum_list (l : list T) : T := foldr sc_add sc_zero l.

(** ** The loss (lines 179-185) *)

(** [F.mse_loss(input, target, reduction="mean")] on tensors of one shape. *)
Definition mse_loss (input target : tensor T) : T :=
  sc_div
    (sum_list (zip_with (fun x y => sc_mul (sc_sub x y) (sc_sub x y))
                        (concat input) (concat target)))
    (sc_of_Z (Z.of_nat (numel input))).

(** [torch.split(x, size)] along the first dimension. *)
Fixpoint split_size {A : Type} (size fuel : nat) (x : list A) : list (list A) :=
  match fuel with
  | O => []
  | S fuel' =>
      match x with
      | [] => []
      | _ => take size x :: split_size size fuel' (drop size x)
      end
  end.

(** [x.chunk(chunks)]: pieces of [ceil(n / chunks)] rows, the last one
    possibly shorter, possibly fewer than [chunks] pieces; an empty tensor
    gives [chunks] empty pieces. *)
Definition chunk {A : Type} (chunks : nat) (x : list A) : list (list A) :=
  let n := length x in
  let size := ((n + chunks - 1) / chunks)%nat in
  if (size =? 0)%nat then replicate chunks [] else split_size size n x.

(** [a, b = xs] *)
Definition unpack2 {A : Type} (xs : list A) : result (A * A) :=
  match xs with
  | [a; b] => Ok (a, b)
  | _ => Raise ValueError
  end.

Definition loss (with_prior : bool) (model_pred target : tensor T) : result T :=
  if with_prior then
    match unpack2 (chunk 2 model_pred) with
    | Raise e => Raise e
    | Ok (model_pred, model_pred_prior) =>
        match unpack2 (chunk 2 target) with
        | Raise e => Raise e
        | Ok (target, target_prior) =>
            let loss := mse_loss model_pred target in
            Ok (sc_add loss (mse_loss model_pred_prior target_prior))
        end
    end
  else Ok (mse_loss model_pred target).

(** [collate_fn] (lines 106-114) as far as the order of the rows goes:
    instance examples first, then the class examples of the same batch. *)
Record example : Type := {
  instance_image : list T;
  class_image : list T
}.

Definition collate_images (with_prior : bool) (examples : list example) : tensor T :=
  let images := map instance_image examples in
  if with_prior then images ++ map class_image examples else images.

(** ** Gradient masking (lines 190-194) *)

(** [torch.arange(n) != k] *)
Definition arange_ne (n k : nat) : list bool :=
  map (fun j => negb (j =? k)%nat) (seq 0 n).

(** Lines 191-193.  [len_tokenizer] is [len(tokenizer)]. *)
Definition index_no_updates (len_tokenizer : nat) (mod_tokens_id : list nat)
  : result (list bool) :=
  match mod_tokens_id with
  | [] => Raise IndexError
  | id0 :: rest =>
      Ok (foldl
            (fun acc i =>
               zip_with andb acc
                 (arange_ne len_tokenizer (nth i mod_tokens_id 0%nat)))
            (arange_ne len_tokenizer id0)
            (seq 0 (length rest)))
  end.

(** Line 194: the rows selected by the boolean index are filled with 0.
    A boolean index must be as long as the dimension it indexes. *)
Definition fill_rows (index : list bool) (grads : tensor T) : result (tensor T) :=
  if (length index =? length grads)%nat then
    Ok (zip_with (fun (b : bool) row => if b then map (fun _ => sc_zero) row else row)
                 index grads)
  else Raise IndexError.

Definition mask_grads (len_tokenizer : nat) (mod_tokens_id : list nat)
    (grads_text_encoder : tensor T) : result (tensor T) :=
  match index_no_updates len_tokenizer mod_tokens_id with
  | Raise e => Raise e
  | Ok index => fill_rows index grads_text_encoder
  end.

(** ** The optimizer (line 127 and line 196)

    [torch.optim.AdamW] restricted to the embedding table: decoupled
    weight decay, then the Adam update with bias correction. *)
Record AdamW : Type := {
  opt_lr : T;
  opt_beta1 : T;
  opt_beta2 : T;
  opt_weight_decay : T;
  opt_eps : T;
  opt_step : nat;
  exp_avg : tensor T;
  exp_avg_sq : tensor T
}.

Definition zeros_like (x : tensor T) : tensor T := map (map (fun _ => sc_zero)) x.

(** [torch.optim.AdamW(params, lr=lr, betas=(0.9, 0.999), weight_decay=0.01,
    eps=1e-08)]; the moments are created as zeros at the first step. *)
Definition new_AdamW (lr : T) (weight : tensor T) : AdamW := {|
  opt_lr := lr;
  opt_beta1 := lit 9 10;
  opt_beta2 := lit 999 1000;
  opt_weight_decay := lit 1 100;
  opt_eps := lit 1 100000000;
  opt_step := 0;
  exp_avg := zeros_like weight;
  exp_avg_sq := zeros_like weight
|}.

Definition map2 {A B C : Type} (f : A -> B -> C) (x : list (list A)) (y : list (list B))
  : list (list C) := zip_with (zip_with f) x y.

Definition adamw_step (o : AdamW) (weight grad : tensor T) : tensor T * AdamW :=
  let step := S (opt_step o) in
  let decayed :=
    map (map (fun p => sc_mul p (sc_sub sc_one (sc_mul (opt_lr o) (opt_weight_decay o)))))
        weight in
  let m := map2 (fun m g => sc_add (sc_mul (opt_beta1 o) m)
                                   (sc_mul (sc_sub sc_one (opt_beta1 o)) g))
                (exp_avg o) grad in
  let v := map2 (fun v g => sc_add (sc_mul (opt_beta2 o) v)
                                   (sc_mul (sc_sub sc_one (opt_beta2 o)) (sc_mul g g)))
                (exp_avg_sq o) grad in
  let bias_correction1 := sc_sub sc_one (sc_pow (opt_beta1 o) step) in
  let bias_correction2 := sc_sub sc_one (sc_pow (opt_beta2 o) step) in
  let step_size := sc_div (opt_lr o) bias_correction1 in
  let denom :=
    map (map (fun v => sc_add (sc_div (sc_sqrt v) (sc_sqrt bias_correction2)) (opt_eps o)))
        v in
  let update := map2 (fun m d => sc_mul step_size (sc_div m d)) m denom in
  (map2 sc_sub decayed update,
   {| opt_lr := opt_lr o; opt_beta1 := opt_beta1 o; opt_beta2 := opt_beta2 o;
      opt_weight_decay := opt_weight_decay o; opt_eps := opt_eps o;
      opt_step := step; exp_avg := m; exp_avg_sq := v |}).

(** Lines 190-196: mask the gradient of the embedding table, then step. *)
Definition update_embeddings (len_tokenizer : nat) (mod_tokens_id : list nat)
    (o : AdamW) (token_embeds grads_text_encoder : tensor T)
  : result (tensor T * AdamW) :=
  match mask_grads len_tokenizer mod_tokens_id grads_text_encoder with
  | Raise e => Raise e
  | Ok grads => Ok (adamw_step o token_embeds grads)
  end.

End Numeric.
Arguments AdamW T : clear implicits.
Arguments example T : clear implicits.

(** ** The tokenizer

    [CLIPTokenizer] as a dictionary from token to id.  [add_tokens] gives a
    token that is not in the dictionary the id [len(tokenizer)] and
    returns the number of tokens it added; a token that is already there
    is left alone. *)
Record Tokenizer : Type := {
  vocab : gmap string nat;
  unk_token_id : nat
}.

Definition len (tokenizer : Tokenizer) : nat := size (vocab tokenizer).

Definition add_tokens (tokenizer : Tokenizer) (token : string) : Tokenizer * nat :=
  match vocab tokenizer !! token with
  | Some _ => (tokenizer, 0%nat)
  | None =>
      ({| vocab := <[token := len tokenizer]> (vocab tokenizer);
          unk_token_id := unk_token_id tokenizer |}, 1%nat)
  end.

Definition convert_tokens_to_ids (tokenizer : Tokenizer) (token : string) : nat :=
  default (unk_token_id tokenizer) (vocab tokenizer !! token).

(** ** Command line (lines 26-47) *)

Inductive train_type : Type := text | custom.

Record Args {T : Type} : Type := {
  type : train_type;
  token : option string;
  term : option string;
  data : option string;
  term_data : option string;
  delta_ckpt : option string;
  batch_size : Z;
  train_steps : Z;
  save_step : Z;
  low_mem : bool;
  freeze_model : string;
  lr : T;
  scale_lr : bool;
  seed : option Z
}.
Arguments Args T : clear implicits.

(** ** What [main] observes of the outside *)

Record World {T : Type} : Type := {
  (** [os.path.isfile] *)
  isfile : string -> bool;
  (** the tokenizer and the embedding table as [from_pretrained] returns them *)
  pretrained_tokenizer : Tokenizer;
  pretrained_embeds : list (list T);
  (** what [load_delta] leaves in the tokenizer and in the embedding table *)
  load_delta : Tokenizer -> list (list T) -> Tokenizer * list (list T);
  (** [tokenizer.encode(term, add_special_tokens=False)] *)
  encode : Tokenizer -> string -> list nat;
  (** the row that [resize_token_embeddings] creates for a new id *)
  fresh_row : nat -> list T;
  (** [len(train_dataloader)] *)
  epoch_steps : nat;
  (** [weight.grad] row by row after [loss.backward()] at a global step,
      given the current table *)
  backward : Z -> list (list T) -> nat -> list T;
  (** whether the sampling pipeline raises at a global step for a prompt *)
  pipetest_raises : Z -> string -> bool
}.
Arguments World T : clear implicits.

(** ** Effects of [main] *)

Inductive module_name : Type :=
| text_encoder | tokenizer_files | unet | vae | scheduler | unet0.

(** Which parameters the optimizer is given (lines 118-125). *)
Inductive params : Type :=
| embeddings_only
| embeddings_and_attn2
| embeddings_and_attn2_kv.

Inductive event {T : Type} : Type :=
| ev_makedirs
| ev_save_cfg
| ev_from_pretrained (m : module_name)
| ev_load_delta (path : string)
| ev_add_tokens (token : string) (num_added_tokens : nat)
| ev_resize_token_embeddings (n : nat)
| ev_dataset (captions : list string)
| ev_optimizer (p : params) (lr : T)
| ev_gradient_checkpointing
| ev_train (epoch : nat)
| ev_batch (epoch step : nat)
| ev_optimizer_step
| ev_save_embeds (global_step : option Z)
| ev_save_delta (global_step : option Z) (with_unet0 : bool)
| ev_sample (prompt file : string) (global_step : Z).
Arguments event T : clear implicits.

(** A computation returns a value or raises, and in both cases leaves the
    events it performed, oldest first. *)
Definition M (T A : Type) : Type := result A * list (event T).

Definition ret {T A : Type} (a : A) : M T A := (Ok a, []).
Definition raise {T A : Type} (e : exn) : M T A := (Raise e, []).
Definition emit {T : Type} (ev : event T) : M T unit := (Ok tt, [ev]).
Definition lift {T A : Type} (r : result A) : M T A := (r, []).

Definition bind {T A B : Type} (m : M T A) (f : A -> M T B) : M T B :=
  match m with
  | (Ok a, t1) => let '(r, t2) := f a in (r, t1 ++ t2)
  | (Raise e, t1) => (Raise e, t1)
  end.

Declare Scope py_scope.
Delimit Scope py_scope with py.
Notation "'do' x <- m ; k" := (bind m (fun x => k))
  (at level 10, x pattern, m at level 100, k at level 200) : py_scope.
Notation "'run' m ; k" := (bind m (fun _ => k))
  (at level 10, m at level 100, k at level 200) : py_scope.
Open Scope py_scope.

(** [x.attr] on an argument that may be [None]. *)
Definition attr {T A : Type} (x : option A) : M T A :=
  match x with
  | Some v => ret v
  | None => raise AttributeError
  end.

Definition assert {T : Type} (b : bool) (msg : string) : M T unit :=
  if b then ret tt else raise (AssertionError msg).

Definition equal_num : string :=
  "Provide equal num of tokens, terms and data folders (separated by '+')".

Section Main.
Context {T : Type} `{Scalar T}.

Definition set_lr (a : Args T) (v : T) : Args T := {|
  type := type a; token := token a; term := term a; data := data a;
  term_data := term_data a; delta_ckpt := delta_ckpt a;
  batch_size := batch_size a; train_steps := train_steps a;
  save_step := save_step a; low_mem := low_mem a;
  freeze_model := freeze_model a; lr := v; scale_lr := scale_lr a;
  seed := seed a
|}.

(** Line 78 *)
Definition with_prior_of (a : Args T) : bool :=
  match term_data a, term a with
  | Some _, Some _ => true
  | _, _ => false
  end.

(** Lines 90-93 *)
Fixpoint prepare_tokens (w : World T) (tokenizer : Tokenizer)
    (pairs : list (string * string)) (mod_tokens_id init_tokens_id : list nat)
  : M T (Tokenizer * list nat * list nat) :=
  match pairs with
  | [] => ret (tokenizer, mod_tokens_id, init_tokens_id)
  | (mod_token, init_token) :: pairs' =>
      let '(tokenizer, num_added_tokens) := add_tokens tokenizer mod_token in
      run emit (ev_add_tokens mod_token num_added_tokens);
      let mod_tokens_id := mod_tokens_id ++ [convert_tokens_to_ids tokenizer mod_token] in
      do id <- lift (match encode w tokenizer init_token with
                     | [] => Raise IndexError
                     | id :: _ => Ok id
                     end);
      prepare_tokens w tokenizer pairs' mod_tokens_id (init_tokens_id ++ [id])
  end.

(** Line 96: rows are kept, cut or appended to reach [n] rows. *)
Definition resize_token_embeddings (w : World T) (n : nat) (weight : tensor T) : tensor T :=
  take n weight ++ map (fresh_row w) (seq (length weight) (n - length weight)).

(** Lines 98-99 *)
Fixpoint init_embeds (token_embeds : tensor T) (pairs : list (nat * nat)) : result (tensor T) :=
  match pairs with
  | [] => Ok token_embeds
  | (x, y) :: pairs' =>
      match token_embeds !! y with
      | None => Raise IndexError
      | Some row =>
          if (x <? length token_embeds)%nat
          then init_embeds (<[x := row]> token_embeds) pairs'
          else Raise IndexError
      end
  end.

(** Lines 118-125 *)
Definition params_to_optimize (a : Args T) : params :=
  match type a with
  | text => embeddings_only
  | custom =>
      if String.eqb (freeze_model a) "crossattn" then embeddings_and_attn2
      else embeddings_and_attn2_kv
  end.

(** Lines 133-136 *)
Definition scale (a : Args T) (with_prior : bool) : Args T :=
  if scale_lr a then
    let a := set_lr a (sc_mul (lr a) (sc_of_Z (batch_size a))) in
    if with_prior then set_lr a (sc_mul (lr a) (sc_of_Z 2)) else a
  else a.

(** [x / y] on two ints (line 158): the binary64 number nearest to the
    exact quotient, ties to even, as CPython's [long_true_divide] rounds
    it; a quotient too large for a float raises. *)
Definition truediv (x y : Z) : result spec_float :=
  if y =? 0 then Raise ZeroDivisionError
  else
    let negate := xorb (x <? 0) (y <? 0) in
    if x =? 0 then Ok (S754_zero negate)
    else
      let '(q, e, l) := SFdiv_core_binary 53 1024 (Z.abs x) 0 (Z.abs y) 0 in
      match binary_round_aux 53 1024 negate q e l with
      | S754_infinity _ => Raise OverflowError
      | f => Ok f
      end.

(** [math.ceil(f)] on a float *)
Definition math_ceil (f : spec_float) : result Z :=
  match f with
  | S754_zero _ => Ok 0
  | S754_infinity _ => Raise OverflowError
  | S754_nan => Raise ValueError
  | S754_finite s m e =>
      let n := cond_Zopp s (Zpos m) in
      Ok (if 0 <=? e then n * 2 ^ e else - ((- n) / 2 ^ (- e)))
  end.

(** [math.ceil(x / y)] (line 158) *)
Definition ceil_div (x y : Z) : result Z :=
  match truediv x y with
  | Ok q => math_ceil q
  | Raise e => Raise e
  end.

(** The part of the state that the loop changes. *)
Record Train : Type := {
  global_step : Z;
  token_embeds : tensor T;
  optimizer : AdamW T
}.

(** What the loop reads. *)
Record Setup : Type := {
  args : Args T;
  world : World T;
  tokenizer : Tokenizer;
  mod_tokens : list string;
  init_tokens : list string;
  mod_tokens_id : list nat
}.

(** Lines 209-216 *)
Fixpoint samples (s : Setup) (global_step : Z) (pairs : list (string * string))
  : M T unit :=
  match pairs with
  | [] => ret tt
  | (mod_token, init_token) :: pairs' =>
      let prompt := String.append "photo of " (fmt_pair mod_token init_token) in
      if pipetest_raises (world s) global_step prompt
      then raise (ExternalError "pipetest")
      else
        run emit (ev_sample prompt (strip_ends mod_token) global_step);
        samples s global_step pairs'
  end.

(** Lines 200-216 *)
Definition save_and_sample (s : Setup) (global_step : Z) : M T unit :=
  if save_step (args s) =? 0 then raise ZeroDivisionError
  else if global_step mod save_step (args s) =? 0 then
    run (match type (args s) with
         | text => emit (ev_save_embeds (Some global_step))
         | custom => emit (ev_save_delta (Some global_step) true)
         end);
    samples s global_step (zip (mod_tokens s) (init_tokens s))
  else ret tt.

(** Lines 167-218: one batch.  The forward pass, the loss and autograd are
    seen through the gradient they leave on the embedding table. *)
Definition train_step (s : Setup) (st : Train) : M T Train :=
  let grads_text_encoder :=
    map (backward (world s) (global_step st) (token_embeds st))
        (seq 0 (length (token_embeds st))) in
  do (embeds, opt) <-
    lift (update_embeddings (len (tokenizer s)) (mod_tokens_id s) (optimizer st)
            (token_embeds st) grads_text_encoder);
  run emit ev_optimizer_step;
  let global_step := global_step st + 1 in
  run save_and_sample s global_step;
  ret {| global_step := global_step; token_embeds := embeds; optimizer := opt |}.

(** Lines 166-221: the batches of one epoch; [break] leaves this loop only. *)
Fixpoint batches (s : Setup) (n : nat) (st : Train) : M T Train :=
  match n with
  | O => ret st
  | S n' =>
      do st <- train_step s st;
      if train_steps (args s) <=? global_step st then ret st
      else batches s n' st
  end.

(** Lines 163-221 *)
Fixpoint epochs (s : Setup) (epoch n : nat) (st : Train) : M T Train :=
  match n with
  | O => ret st
  | S n' =>
      run emit (ev_train epoch);
      do st <- batches s (epoch_steps (world s)) st;
      epochs s (S epoch) n' st
  end.

(** Lines 157-221 *)
Definition training_loop (s : Setup) (st : Train) : M T Train :=
  let epoch_steps := Z.of_nat (epoch_steps (world s)) in
  do num_epochs <- lift (ceil_div (train_steps (args s)) epoch_steps);
  epochs s 0 (Z.to_nat num_epochs) st.

(** Lines 223-228 *)
Definition final_save (a : Args T) : M T unit :=
  match type a with
  | text => emit (ev_save_embeds None)
  | custom => emit (ev_save_delta None false)
  end.

(** Lines 66-75 *)
Definition load_models (a : Args T) (w : World T) : M T (Tokenizer * tensor T) :=
  run emit (ev_from_pretrained text_encoder);
  run emit (ev_from_pretrained tokenizer_files);
  run emit (ev_from_pretrained unet);
  run emit (ev_from_pretrained vae);
  run emit (ev_from_pretrained scheduler);
  match type a, delta_ckpt a with
  | custom, Some path =>
      if isfile w path then
        run emit (ev_load_delta path);
        ret (load_delta w (pretrained_tokenizer w) (pretrained_embeds w))
      else ret (pretrained_tokenizer w, pretrained_embeds w)
  | _, _ => ret (pretrained_tokenizer w, pretrained_embeds w)
  end.

(** Lines 78-85 *)
Definition parse_inputs (a : Args T)
  : M T (bool * list string * list string * list string * list string) :=
  let with_prior := with_prior_of a in
  do tok <- attr (token a);
  let mod_tokens := map angle (split plus_sign tok) in
  do trm <- attr (term a);
  let init_tokens := split plus_sign trm in
  do dat <- attr (data a);
  let data_dirs := split plus_sign dat in
  run assert ((length mod_tokens =? length init_tokens)%nat
              && (length init_tokens =? length data_dirs)%nat) equal_num;
  do term_data_dirs <-
    (if with_prior then
       do td <- attr (term_data a);
       let term_data_dirs := split plus_sign td in
       run assert (length mod_tokens =? length term_data_dirs)%nat equal_num;
       ret term_data_dirs
     else ret []);
  ret (with_prior, mod_tokens, init_tokens, data_dirs, term_data_dirs).

(** Lines 88-99 *)
Definition extend_vocabulary (w : World T) (tokenizer : Tokenizer)
    (token_embeds : tensor T) (mod_tokens init_tokens : list string)
  : M T (Tokenizer * list nat * tensor T) :=
  do (tokenizer, mod_tokens_id, init_tokens_id) <-
    prepare_tokens w tokenizer (zip mod_tokens init_tokens) [] [];
  run emit (ev_resize_token_embeddings (len tokenizer));
  let token_embeds := resize_token_embeddings w (len tokenizer) token_embeds in
  do token_embeds <- lift (init_embeds token_embeds (zip mod_tokens_id init_tokens_id));
  ret (tokenizer, mod_tokens_id, token_embeds).

Definition main (a : Args T) (w : World T) : M T (Setup * Train) :=
  run emit ev_makedirs;
  run emit ev_save_cfg;
  do (tokenizer, token_embeds) <- load_models a w;
  do (with_prior, mod_tokens, init_tokens, data_dirs, term_data_dirs) <- parse_inputs a;
  do (tokenizer, mod_tokens_id, token_embeds) <-
    extend_vocabulary w tokenizer token_embeds mod_tokens init_tokens;
  run emit (ev_dataset (zip_with fmt_pair mod_tokens init_tokens));
  let optimizer := new_AdamW (lr a) token_embeds in
  run emit (ev_optimizer (params_to_optimize a) (opt_lr optimizer));
  run (if low_mem a then emit ev_gradient_checkpointing else ret tt);
  let a := scale a with_prior in
  run (match type a with
       | text => ret tt
       | custom => emit (ev_from_pretrained unet0)
       end);
  let s := {| args := a; world := w; tokenizer := tokenizer;
              mod_tokens := mod_tokens; init_tokens := init_tokens;
              mod_tokens_id := mod_tokens_id |} in
  do st <- training_loop s
             {| global_step := 0; token_embeds := token_embeds; optimizer := optimizer |};
  run final_save a;
  ret (s, st).

End Main.
Arguments Train T : clear implicits.
Arguments Setup T : clear implicits.

(** ** Reading a trace *)

Definition is_optimizer_step {T : Type} (ev : event T) : bool :=
  match ev with ev_optimizer_step => true | _ => false end.

Definition is_train {T : Type} (ev : event T) : bool :=
  match ev with ev_train _ => true | _ => false end.

Definition is_from_pretrained {T : Type} (ev : event T) : bool :=
  match ev with ev_from_pretrained _ => true | _ => false end.

Definition is_add_tokens {T : Type} (ev : event T) : bool :=
  match ev with ev_add_tokens _ _ => true | _ => false end.

Definition count {T : Type} (p : event T -> bool) (tr : list (event T)) : nat :=
  length (List.filter p tr).

(** The tokens handed to [tokenizer.add_tokens], in order. *)
Definition added_tokens {T : Type} (tr : list (event T)) : list string :=
  omap (fun ev => match ev with ev_add_tokens t _ => Some t | _ => None end) tr.

(** The [unet0] arguments of the [save_delta] calls, in order. *)
Definition save_delta_calls {T : Type} (tr : list (event T)) : list (option Z * bool) :=
  omap (fun ev => match ev with ev_save_delta g u => Some (g, u) | _ => None end) tr.

(** ** Predicates used in the statements *)

Section Statements.
Context {T : Type} {ST : Scalar T}.

(** The embedding table and the two moment tables of the optimizer have
    [n] rows. *)
Definition shape_ok (n : nat) (st : Train T) : Prop :=
  length (token_embeds st) = n /\
  length (exp_avg (optimizer st)) = n /\
  length (exp_avg_sq (optimizer st)) = n.

(** Events other than optimizer steps and epoch starts. *)
Definition quiet (tr : list (event T)) : Prop :=
  count is_optimizer_step tr = 0%nat /\ count is_train tr = 0%nat.

(** The events of model loading: five [from_pretrained] calls, then
    [load_delta] when a checkpoint to resume from is given and exists. *)
Definition load_trace (a : Args T) (w : World T) : list (event T) :=
  [ev_from_pretrained text_encoder; ev_from_pretrained tokenizer_files;
   ev_from_pretrained unet; ev_from_pretrained vae; ev_from_pretrained scheduler]
  ++ match type a, delta_ckpt a with
     | custom, Some path => if isfile w path then [ev_load_delta path] else []
     | _, _ => []
     end.

End Statements.

(** The epoch count in the words of the specification,
    [ceiling(total_steps / steps_per_epoch)]: the exact integer ceiling. *)
Definition ceiling (x y : Z) : Z := - ((- x) / y).

(** The location of the bits lost when a mantissa [q] with location [l] is
    shifted right by one. *)
Definition half_loc (q : Z) (l : location) : location :=
  loc_of_shr_record
    {| shr_m := q / 2; shr_r := Z.odd q;
       shr_s := shr_r (shr_record_of_loc q l) || shr_s (shr_record_of_loc q l) |}.

(** Events that the training loop of a run of the given type can leave. *)
Definition loop_event {T : Type} (ty : train_type) (ev : event T) : bool :=
  match ev with
  | ev_train _ | ev_optimizer_step | ev_sample _ _ _ => true
  | ev_save_embeds (Some _) => match ty with text => true | custom => false end
  | ev_save_delta (Some _) true => match ty with text => false | custom => true end
  | _ => false
  end.

(** ** A small run *)

Definition f32 (z : Z) : spec_float := @sc_of_Z _ binary32 z.

(** Three pretrained tokens with one-dimensional embeddings. *)
Definition tiny_tokenizer : Tokenizer := {|
  vocab := list_to_map [("cat"%string, 0%nat); ("dog"%string, 1%nat);
                        ("<|endoftext|>"%string, 2%nat)];
  unk_token_id := 2
|}.

Definition tiny_world : World spec_float := {|
  isfile := fun _ => false;
  pretrained_tokenizer := tiny_tokenizer;
  pretrained_embeds := [[f32 1]; [f32 2]; [f32 3]];
  load_delta := fun t e => (t, e);
  encode := fun t s => [convert_tokens_to_ids t s];
  fresh_row := fun _ => [f32 0];
  epoch_steps := 3;
  backward := fun _ _ _ => [f32 1];
  pipetest_raises := fun _ _ => false
|}.

(** [-t a+b --term cat+dog --data d1+d2 -b 2 -ts 7 --save_step 5] *)
Definition tiny_args : Args spec_float := {|
  type := custom; token := Some "a+b"%string; term := Some "cat+dog"%string;
  data := Some "d1+d2"%string; term_data := None; delta_ckpt := None;
  batch_size := 2; train_steps := 7; save_step := 5; low_mem := false;
  freeze_model := "crossattn_kv"; lr := @lit _ binary32 1 100000;
  scale_lr := true; seed := None
|}.

Definition with_train_steps {T : Type} (a : Args T) (n : Z) : Args T := {|
  type := type a; token := token a; term := term a; data := data a;
  term_data := term_data a; delta_ckpt := delta_ckpt a;
  batch_size := batch_size a; train_steps := n;
  save_step := save_step a; low_mem := low_mem a;
  freeze_model := freeze_model a; lr := lr a; scale_lr := scale_lr a;
  seed := seed a
|}.

Definition with_token {T : Type} (a : Args T) (t : option string) : Args T := {|
  type := type a; token := t; term := term a; data := data a;
  term_data := term_data a; delta_ckpt := delta_ckpt a;
  batch_size := batch_size a; train_steps := train_steps a;
  save_step := save_step a; low_mem := low_mem a;
  freeze_model := freeze_model a; lr := lr a; scale_lr := scale_lr a;
  seed := seed a
|}.

(** The sampling pipeline raises at step 5. *)
Definition failing_world : World spec_float := {|
  isfile := isfile tiny_world;
  pretrained_tokenizer := tiny_tokenizer;
  pretrained_embeds := pretrained_embeds tiny_world;
  load_delta := load_delta tiny_world;
  encode := encode tiny_world;
  fresh_row := fresh_row tiny_world;
  epoch_steps := 3;
  backward := backward tiny_world;
  pipetest_raises := fun g _ => g =? 5
|}.

(** A vocabulary that already has ["<a>"]. *)
Definition colliding_world : World spec_float := {|
  isfile := isfile tiny_world;
  pretrained_tokenizer :=
    {| vocab := <["<a>"%string := 3%nat]> (vocab tiny_tokenizer); unk_token_id := 2 |};
  pretrained_embeds := [[f32 1]; [f32 2]; [f32 3]; [f32 4]];
  load_delta := load_delta tiny_world;
  encode := encode tiny_world;
  fresh_row := fresh_row tiny_world;
  epoch_steps := 3;
  backward := backward tiny_world;
  pipetest_raises := pipetest_raises tiny_world
|}.

(** The state in which [main tiny_args tiny_world] enters the training loop. *)
Definition tiny_setup : Setup spec_float := {|
  args := @scale _ binary32 tiny_args false;
  world := tiny_world;
  tokenizer := fst (add_tokens (fst (add_tokens tiny_tokenizer "<a>")) "<b>");
  mod_tokens := ["<a>"; "<b>"]%string;
  init_tokens := ["cat"; "dog"]%string;
  mod_tokens_id := [3; 4]%nat
|}.

Definition tiny_embeds : tensor spec_float := [[f32 1]; [f32 2]; [f32 3]; [f32 1]; [f32 2]].

Definition tiny_train : Train spec_float := {|
  global_step := 0;
  token_embeds := tiny_embeds;
  optimizer := @new_AdamW _ binary32 (lr tiny_args) tiny_embeds
|}.

(** ** Definitions for further properties *)

(** ** The dataset inputs (lines 102-104) *)

(** [l[i]] *)
Definition getitem {A : Type} (l : list A) (i : nat) : result A :=
  match l !! i with
  | Some x => Ok x
  | None => Raise IndexError
  end.

(** A list comprehension whose elements may raise: the first exception
    wins. *)
Fixpoint comprehension {A B : Type} (f : A -> result B) (l : list A) : result (list B) :=
  match l with
  | [] => Ok []
  | a :: l' =>
      match f a with
      | Raise e => Raise e
      | Ok b =>
          match comprehension f l' with
          | Raise e => Raise e
          | Ok bs => Ok (b :: bs)
          end
      end
  end.

(** One dictionary of [inputs]. *)
Record dataset_input : Type := {
  caption : string;
  input_term : string;
  input_data : string;
  input_term_data : option string
}.

(** Lines 102-104 *)
Definition dataset_inputs (with_prior : bool)
    (mod_tokens init_tokens data_dirs term_data_dirs : list string)
  : result (list dataset_input) :=
  match
    comprehension
      (fun i =>
         match getitem mod_tokens i, getitem init_tokens i, getitem data_dirs i with
         | Ok m, Ok t, Ok d =>
             Ok {| caption := fmt_pair m t; input_term := t; input_data := d;
                   input_term_data := None |}
         | Raise e, _, _ | _, Raise e, _ | _, _, Raise e => Raise e
         end)
      (seq 0 (length mod_tokens))
  with
  | Raise e => Raise e
  | Ok inputs =>
      if with_prior then
        comprehension
          (fun i =>
             match getitem inputs i, getitem term_data_dirs i with
             | Ok inp, Ok td =>
                 Ok {| caption := caption inp; input_term := input_term inp;
                       input_data := input_data inp; input_term_data := Some td |}
             | Raise e, _ | _, Raise e => Raise e
             end)
          (seq 0 (length mod_tokens))
      else Ok inputs
  end.

(** [sep.join(parts)] *)
Fixpoint join (sep : ascii) (parts : list string) : string :=
  match parts with
  | [] => EmptyString
  | [p] => p
  | p :: parts' => String.append p (String sep (join sep parts'))
  end.

(** Number of occurrences of a character. *)
Fixpoint occurrences (c : ascii) (s : string) : nat :=
  match s with
  | EmptyString => 0
  | String c' s' => (if Ascii.eqb c' c then 1 else 0) + occurrences c s'
  end.

(** A checkpoint written inside the loop (lines 200-206). *)
Definition is_periodic_save {T : Type} (ev : event T) : bool :=
  match ev with
  | ev_save_embeds (Some _) | ev_save_delta (Some _) _ => true
  | _ => false
  end.

(** The checkpoint written after the loop (lines 223-228). *)
Definition is_final_save {T : Type} (ev : event T) : bool :=
  match ev with
  | ev_save_embeds None | ev_save_delta None _ => true
  | _ => false
  end.

(** A sample image saved (line 216). *)
Definition is_sample {T : Type} (ev : event T) : bool :=
  match ev with ev_sample _ _ _ => true | _ => false end.

(** Events of the part of [main] that comes before the training loop. *)
Definition setup_event {T : Type} (ev : event T) : bool :=
  match ev with
  | ev_makedirs | ev_save_cfg | ev_from_pretrained _ | ev_load_delta _
  | ev_add_tokens _ _ | ev_resize_token_embeddings _ | ev_dataset _
  | ev_optimizer _ _ | ev_gradient_checkpointing => true
  | _ => false
  end.

(** The tokenizer encodes every term to nothing. *)
Definition mute_world : World spec_float := {|
  isfile := isfile tiny_world;
  pretrained_tokenizer := tiny_tokenizer;
  pretrained_embeds := pretrained_embeds tiny_world;
  load_delta := load_delta tiny_world;
  encode := fun _ _ => [];
  fresh_row := fresh_row tiny_world;
  epoch_steps := 3;
  backward := backward tiny_world;
  pipetest_raises := pipetest_raises tiny_world
|}.

(** The same command line with another [--save_step]. *)
Definition with_save_step {T : Type} (a : Args T) (n : Z) : Args T := {|
  type := type a; token := token a; term := term a; data := data a;
  term_data := term_data a; delta_ckpt := delta_ckpt a;
  batch_size := batch_size a; train_steps := train_steps a;
  save_step := n; low_mem := low_mem a;
  freeze_model := freeze_model a; lr := lr a; scale_lr := scale_lr a;
  seed := seed a
|}.

(** The same setup with other arguments. *)
Definition with_args {T : Type} (s : Setup T) (a : Args T) : Setup T := {|
  args := a; world := world s; tokenizer := tokenizer s;
  mod_tokens := mod_tokens s; init_tokens := init_tokens s;
  mod_tokens_id := mod_tokens_id s
|}.

(** * Proofs *)

Lemma split_size_nil {A : Type} (size fuel : nat) : split_size size fuel (@nil A) = [].
Proof. destruct fuel; reflexivity. Qed.

Lemma chunk_halves {A : Type} (x y : list A) :
  (0 < length x)%nat -> length y = length x -> chunk 2 (x ++ y) = [x; y].
Proof.
  intros Hx Hy. unfold chunk.
  rewrite length_app, Hy.
  replace ((length x + length x + 2 - 1) / 2)%nat with (length x).
  2:{ apply Nat.div_unique with (r := 1%nat); lia. }
  destruct (Nat.eqb_spec (length x) 0) as [E|_]; [lia|].
  assert (Hf : exists f, (length x + length x)%nat = S (S f)).
  { exists (length x + length x - 2)%nat. lia. }
  destruct Hf as [f ->].
  assert (Hxy : x ++ y <> []) by (destruct x; [simpl in Hx; lia | discriminate]).
  assert (Hy0 : y <> []) by (destruct y; [simpl in Hy; lia | discriminate]).
  cbn [split_size].
  destruct (x ++ y) as [|c l] eqn:E; [congruence|]. rewrite <- E.
  rewrite take_app_length, drop_app_length.
  destruct y as [|b y]; [congruence|].
  rewrite take_ge by lia. rewrite drop_ge by lia.
  rewrite split_size_nil. reflexivity.
Qed.

Section L.
Context {T : Type} {ST : Scalar T}.

(** C9.  Without prior preservation the loss is the mean squared error of
    the whole batch.  With it, a batch made of the instance rows followed by
    as many prior rows is cut by [chunk(2)] into exactly these two halves
    and the loss is the sum of the two mean squared errors. *)
Theorem loss_prior_preservation :
  (forall model_pred target : tensor T,
      loss false model_pred target = Ok (mse_loss model_pred target)) /\
  (forall pred pred_prior target target_prior : tensor T,
      (0 < length pred)%nat -> length pred_prior = length pred ->
      (0 < length target)%nat -> length target_prior = length target ->
      chunk 2 (pred ++ pred_prior) = [pred; pred_prior] /\
      chunk 2 (target ++ target_prior) = [target; target_prior] /\
      loss true (pred ++ pred_prior) (target ++ target_prior)
      = Ok (sc_add (mse_loss pred target) (mse_loss pred_prior target_prior))).
Proof.
  split; [reflexivity|].
  intros p pp t tp Hp Hpp Ht Htp.
  assert (Cp := chunk_halves p pp Hp Hpp).
  assert (Ct := chunk_halves t tp Ht Htp).
  repeat split; try assumption.
  unfold loss. rewrite Cp, Ct. reflexivity.
Qed.
End L.

Lemma length_arange_ne (n k : nat) : length (arange_ne n k) = n.
Proof. unfold arange_ne. rewrite length_map, length_seq. reflexivity. Qed.

Lemma lookup_arange_ne (n k j : nat) :
  (j < n)%nat -> arange_ne n k !! j = Some (negb (j =? k)%nat).
Proof.
  intros Hj. unfold arange_ne.
  rewrite list_lookup_fmap, lookup_seq_lt by assumption. reflexivity.
Qed.

(** The loop of line 192-193 over the indices [idx]. *)
Lemma lookup_mask_loop (n : nat) (ids : list nat) (idx : list nat) (acc : list bool) (j : nat) (b : bool) :
  length acc = n -> acc !! j = Some b ->
  foldl (fun acc i => zip_with andb acc (arange_ne n (nth i ids 0%nat))) acc idx !! j
  = Some (b && forallb (fun i => negb (j =? nth i ids 0%nat)%nat) idx).
Proof.
  revert acc b. induction idx as [|i idx IH]; intros acc b Hlen Hj; simpl.
  - rewrite andb_true_r. exact Hj.
  - assert (Hjn : (j < n)%nat) by (rewrite <- Hlen; eapply lookup_lt_Some; eauto).
    rewrite (IH _ (b && negb (j =? nth i ids 0%nat)%nat)).
    + rewrite andb_assoc. reflexivity.
    + rewrite length_zip_with, length_arange_ne. lia.
    + rewrite lookup_zip_with, Hj, lookup_arange_ne by assumption. reflexivity.
Qed.

Lemma length_mask_loop (n : nat) (ids : list nat) (idx : list nat) (acc : list bool) :
  length acc = n ->
  length (foldl (fun acc i => zip_with andb acc (arange_ne n (nth i ids 0%nat))) acc idx) = n.
Proof.
  revert acc. induction idx as [|i idx IH]; intros acc Hlen; simpl; [assumption|].
  apply IH. rewrite length_zip_with, length_arange_ne. lia.
Qed.

(** Row [j] is selected for zeroing unless it is the first id or one of the
    ids at positions [0 .. len(mod_tokens_id) - 2]. *)
Lemma index_no_updates_spec (n : nat) (id0 : nat) (rest : list nat) :
  exists index,
    index_no_updates n (id0 :: rest) = Ok index /\ length index = n /\
    forall j, (j < n)%nat ->
      index !! j = Some (negb (j =? id0)%nat
                         && forallb (fun i => negb (j =? nth i (id0 :: rest) 0%nat)%nat)
                                    (seq 0 (length rest))).
Proof.
  eexists. split; [reflexivity|]. split.
  - apply length_mask_loop, length_arange_ne.
  - intros j Hj. apply lookup_mask_loop.
    + apply length_arange_ne.
    + apply lookup_arange_ne, Hj.
Qed.

Lemma forallb_seq_nth_notin (j : nat) (l : list nat) (k : nat) :
  (k <= length l)%nat -> j ∉ take k l ->
  forallb (fun i => negb (j =? nth i l 0%nat)%nat) (seq 0 k) = true.
Proof.
  intros Hk Hnot. apply forallb_forall. intros i Hi.
  apply in_seq in Hi. apply negb_true_iff, Nat.eqb_neq. intros ->.
  apply Hnot. apply list_elem_of_lookup. exists i.
  rewrite lookup_take_lt by lia.
  destruct (nth_lookup_or_length l i 0%nat) as [E|E]; [exact E | lia].
Qed.

Section Mask.
Context {T : Type} {ST : Scalar T}.

Lemma lookup_fill_rows (index : list bool) (grads : tensor T) :
  length index = length grads ->
  exists g, fill_rows index grads = Ok g /\ length g = length grads /\
    forall (j : nat) (b : bool) (row : list T), index !! j = Some b -> grads !! j = Some row ->
      g !! j = Some (if b then map (fun _ => sc_zero) row else row).
Proof.
  intros Hlen. unfold fill_rows. rewrite Hlen, Nat.eqb_refl.
  eexists. split; [reflexivity|]. split.
  - rewrite length_zip_with. lia.
  - intros j b row Hb Hrow. rewrite lookup_zip_with, Hb, Hrow. reflexivity.
Qed.

(** C2.  With two or more modifier tokens the loop of lines 192-193 reads
    [mod_tokens_id[i]] for [i < n - 1] and so never reaches the last id:
    the gradient row of the last modifier token is zeroed like that of a
    pretrained token. *)
Theorem last_token_gradient_is_zeroed
    (len_tokenizer : nat) (ids : list nat) (last : nat) (grads : tensor T) (row : list T) :
  ids <> [] -> last ∉ ids -> length grads = len_tokenizer -> grads !! last = Some row ->
  exists g, mask_grads len_tokenizer (ids ++ [last]) grads = Ok g /\
            g !! last = Some (map (fun _ => sc_zero) row).
Proof.
  intros Hne Hnot Hlen Hrow.
  destruct ids as [|id0 rest]; [congruence|].
  assert (Hlast : (last < len_tokenizer)%nat)
    by (rewrite <- Hlen; eapply lookup_lt_Some; eauto).
  unfold mask_grads. change ((id0 :: rest) ++ [last]) with (id0 :: (rest ++ [last])).
  destruct (index_no_updates_spec len_tokenizer id0 (rest ++ [last]))
    as (index & -> & Hil & Hidx).
  destruct (lookup_fill_rows index grads) as (g & -> & _ & Hg); [lia|].
  exists g. split; [reflexivity|].
  rewrite (Hg last true row); [reflexivity| |assumption].
  rewrite Hidx by assumption. f_equal.
  apply andb_true_intro. split.
  - apply negb_true_iff, Nat.eqb_neq. intros ->. apply Hnot. left.
  - rewrite length_app. simpl length.
    apply forallb_seq_nth_notin.
    + simpl. rewrite length_app. simpl. lia.
    + change (id0 :: rest ++ [last]) with ((id0 :: rest) ++ [last]).
      replace (length rest + 1)%nat with (length (id0 :: rest)) by (simpl; lia).
      rewrite take_app_length. exact Hnot.
Qed.
End Mask.

Section Mask2.
Context {T : Type} {ST : Scalar T}.

(** Rows that the mask selects are zeroed, the others are left as they are. *)
Lemma mask_grads_spec (len_tokenizer id0 : nat) (rest : list nat) (grads : tensor T) :
  length grads = len_tokenizer ->
  exists g, mask_grads len_tokenizer (id0 :: rest) grads = Ok g /\
    length g = len_tokenizer /\
    forall (j : nat) (row : list T), grads !! j = Some row ->
      g !! j = Some (if negb (j =? id0)%nat
                        && forallb (fun i => negb (j =? nth i (id0 :: rest) 0%nat)%nat)
                                   (seq 0 (length rest))
                     then map (fun _ => sc_zero) row else row).
Proof.
  intros Hlen. unfold mask_grads.
  destruct (index_no_updates_spec len_tokenizer id0 rest) as (index & -> & Hil & Hidx).
  destruct (lookup_fill_rows index grads) as (g & -> & Hgl & Hg); [lia|].
  exists g. split; [reflexivity|]. split; [lia|].
  intros j row Hrow. apply Hg; [|assumption].
  apply Hidx. rewrite <- Hlen. eapply lookup_lt_Some; eauto.
Qed.

(** The part of the mask that works: a row whose index is not a modifier
    token id has its gradient zeroed. *)
Lemma mask_grads_outside (len_tokenizer : nat) (ids : list nat) (grads : tensor T)
    (j : nat) (row : list T) :
  ids <> [] -> j ∉ ids -> length grads = len_tokenizer -> grads !! j = Some row ->
  exists g, mask_grads len_tokenizer ids grads = Ok g /\
            length g = len_tokenizer /\
            g !! j = Some (map (fun _ => sc_zero) row).
Proof.
  intros Hne Hnot Hlen Hrow. destruct ids as [|id0 rest]; [congruence|].
  destruct (mask_grads_spec len_tokenizer id0 rest grads Hlen) as (g & Hg & Hgl & Hlk).
  exists g. split; [assumption|]. split; [assumption|].
  rewrite (Hlk j row Hrow).
  replace (negb (j =? id0)%nat) with true.
  2:{ symmetry. apply negb_true_iff, Nat.eqb_neq. intros ->. apply Hnot. left. }
  rewrite forallb_seq_nth_notin; [reflexivity|simpl; lia|].
  intros Hin. apply Hnot. eapply subseteq_take; eauto.
Qed.

(** The ids at positions [0 .. n-2] (and the only id when [n = 1]) keep
    their gradient. *)
Lemma mask_grads_keeps (len_tokenizer : nat) (ids : list nat) (grads : tensor T)
    (i j : nat) (row : list T) :
  ids !! i = Some j -> (i < Nat.max 1 (length ids - 1))%nat ->
  length grads = len_tokenizer -> grads !! j = Some row ->
  exists g, mask_grads len_tokenizer ids grads = Ok g /\ g !! j = Some row.
Proof.
  intros Hi Hlt Hlen Hrow. destruct ids as [|id0 rest]; [discriminate|].
  destruct (mask_grads_spec len_tokenizer id0 rest grads Hlen) as (g & Hg & Hgl & Hlk).
  exists g. split; [assumption|].
  rewrite (Hlk j row Hrow).
  destruct (Nat.eqb_spec j id0) as [->|Hne]; [reflexivity|]. cbn [negb andb].
  replace (forallb (fun i0 => negb (j =? nth i0 (id0 :: rest) 0%nat)%nat)
                   (seq 0 (length rest))) with false; [reflexivity|].
  symmetry. apply not_true_is_false. intros Hall.
  rewrite forallb_forall in Hall.
  assert (Hi' : (i < length rest)%nat).
  { destruct i as [|i]; [simpl in Hi; congruence|]. simpl in Hlt. lia. }
  specialize (Hall i ltac:(apply in_seq; lia)).
  rewrite (nth_lookup_Some _ _ _ _ Hi), Nat.eqb_refl in Hall. discriminate.
Qed.
End Mask2.

Lemma map_const_replicate {A B : Type} (c : B) (l : list A) :
  map (fun _ => c) l = replicate (length l) c.
Proof. induction l as [|a l IH]; simpl; [reflexivity | rewrite IH; reflexivity]. Qed.

Lemma lookup_map2 {A B C : Type} (f : A -> B -> C) (x : list (list A)) (y : list (list B)) (j : nat) :
  map2 f x y !! j = match x !! j, y !! j with
                    | Some r, Some s => Some (zip_with f r s)
                    | _, _ => None
                    end.
Proof.
  unfold map2. rewrite lookup_zip_with.
  destruct (x !! j); simpl; [|reflexivity]. destruct (y !! j); reflexivity.
Qed.

Lemma lookup_map2_replicate {A B C : Type} (f : A -> B -> C)
    (x : list (list A)) (y : list (list B)) (j n : nat) (a : A) (b : B) (c : C) :
  x !! j = Some (replicate n a) -> y !! j = Some (replicate n b) -> f a b = c ->
  map2 f x y !! j = Some (replicate n c).
Proof.
  intros Hx Hy <-. rewrite lookup_map2, Hx, Hy, zip_with_replicate. reflexivity.
Qed.

Section Exact.
Variable root : Qc -> Qc.

Lemma adamw_step_zero_row (o : AdamW Qc) (weight grad : tensor Qc) (j : nat) (row : list Qc) :
  weight !! j = Some row ->
  grad !! j = Some (replicate (length row) 0%Qc) ->
  exp_avg o !! j = Some (replicate (length row) 0%Qc) ->
  exp_avg_sq o !! j = Some (replicate (length row) 0%Qc) ->
  fst (@adamw_step _ (exact root) o weight grad) !! j
  = Some (map (fun p => p * (1 - opt_lr o * opt_weight_decay o))%Qc row)
  /\ exp_avg (snd (@adamw_step _ (exact root) o weight grad)) !! j
     = Some (replicate (length row) 0%Qc)
  /\ exp_avg_sq (snd (@adamw_step _ (exact root) o weight grad)) !! j
     = Some (replicate (length row) 0%Qc).
Proof.
  intros Hw Hg Hm Hv.
  unfold adamw_step. cbn [fst snd exp_avg exp_avg_sq].
  split; [|split].
  - rewrite lookup_map2, list_lookup_fmap, Hw. cbn [fmap option_fmap option_map].
    rewrite lookup_map2.
    rewrite (lookup_map2_replicate _ _ _ j _ _ _ 0%Qc Hm Hg)
      by (change (@sc_one _ (exact root)) with 1%Qc; simpl; ring).
    rewrite list_lookup_fmap.
    rewrite (lookup_map2_replicate _ _ _ j _ _ _ 0%Qc Hv Hg)
      by (change (@sc_one _ (exact root)) with 1%Qc; simpl; ring).
    cbn [fmap option_fmap option_map].
    rewrite fmap_replicate, zip_with_replicate.
    rewrite zip_with_replicate_r_eq by (rewrite length_fmap; reflexivity).
    f_equal. rewrite <- list_fmap_compose. apply list_fmap_ext. intros i p _.
    unfold compose, flip. change (@sc_one _ (exact root)) with 1%Qc.
    simpl. unfold Qcdiv. ring.
  - apply (lookup_map2_replicate _ _ _ j _ _ _ 0%Qc Hm Hg).
    change (@sc_one _ (exact root)) with 1%Qc; simpl; ring.
  - apply (lookup_map2_replicate _ _ _ j _ _ _ 0%Qc Hv Hg).
    change (@sc_one _ (exact root)) with 1%Qc; simpl; ring.
Qed.
End Exact.

Lemma count_app {T : Type} (p : event T -> bool) (t1 t2 : list (event T)) :
  count p (t1 ++ t2) = (count p t1 + count p t2)%nat.
Proof. unfold count. rewrite List.filter_app, length_app. reflexivity. Qed.

Lemma bind_ok {T A B : Type} (m : M T A) (f : A -> M T B) (a : A) (t1 : list (event T))
    (r : result B) (t2 : list (event T)) :
  m = (Ok a, t1) -> f a = (r, t2) -> bind m f = (r, t1 ++ t2).
Proof. intros -> Hf. unfold bind. rewrite Hf. reflexivity. Qed.

Lemma bind_raise {T A B : Type} (m : M T A) (f : A -> M T B) (e : exn) (t1 : list (event T)) :
  m = (Raise e, t1) -> bind m f = (Raise e, t1).
Proof. intros ->. reflexivity. Qed.

(** ** Binary64 division of small integers *)

Lemma digits2_pos_bounds (p : positive) :
  2 ^ (Zpos (digits2_pos p) - 1) <= Zpos p < 2 ^ Zpos (digits2_pos p).
Proof.
  induction p as [p IH|p IH|]; cbn [digits2_pos]; [| |simpl; lia].
  - rewrite Pos2Z.inj_succ.
    replace (Z.succ (Zpos (digits2_pos p)) - 1) with (Z.succ (Zpos (digits2_pos p) - 1)) by lia.
    rewrite !Z.pow_succ_r by lia. lia.
  - rewrite Pos2Z.inj_succ.
    replace (Z.succ (Zpos (digits2_pos p)) - 1) with (Z.succ (Zpos (digits2_pos p) - 1)) by lia.
    rewrite !Z.pow_succ_r by lia. lia.
Qed.

Lemma Zdigits2_unique (n d : Z) :
  2 ^ (d - 1) <= n < 2 ^ d -> 0 < d -> Zdigits2 n = d.
Proof.
  intros [Hlo Hhi] Hd.
  assert (0 < n) by (pose proof (Z.pow_pos_nonneg 2 (d - 1)); lia).
  destruct n as [|p|p]; try lia. cbn [Zdigits2].
  pose proof (digits2_pos_bounds p) as [Blo Bhi].
  set (k := Zpos (digits2_pos p)) in *.
  destruct (Z.lt_trichotomy k d) as [Hlt|[E|Hgt]]; [|exact E|].
  - assert (2 ^ k <= 2 ^ (d - 1)) by (apply Z.pow_le_mono_r; lia). lia.
  - assert (2 ^ d <= 2 ^ (k - 1)) by (apply Z.pow_le_mono_r; lia). lia.
Qed.

Lemma Zdigits2_pos_bounds (n : Z) :
  0 < n -> 0 < Zdigits2 n /\ 2 ^ (Zdigits2 n - 1) <= n < 2 ^ Zdigits2 n.
Proof.
  intros Hn. destruct n as [|p|p]; try lia. cbn [Zdigits2].
  split; [lia | apply digits2_pos_bounds].
Qed.

Lemma loc_of_shr_record_of_loc (m : Z) (l : location) :
  loc_of_shr_record (shr_record_of_loc m l) = l.
Proof. destruct l as [|[]]; reflexivity. Qed.

Lemma shr_m_of_loc (m : Z) (l : location) : shr_m (shr_record_of_loc m l) = m.
Proof. destruct l as [|[]]; reflexivity. Qed.

Lemma round_nearest_even_cases (m : Z) (l : location) :
  round_nearest_even m l = m \/ round_nearest_even m l = m + 1.
Proof. destruct l as [|[]]; cbn; try destruct (Z.even m); auto. Qed.

Lemma fexp64 (x : Z) : -1021 <= x -> fexp 53 1024 x = x - 53.
Proof. intros H. unfold fexp, emin. lia. Qed.

(** Rounding a 53-bit integer mantissa: at most a carry. *)
Lemma round_53 (sx : bool) (q e : Z) (l : location) :
  2 ^ 52 <= q < 2 ^ 53 -> -1074 <= e <= 970 ->
  exists N E,
    binary_round_aux 53 1024 sx q e l = S754_finite sx N E /\
    e <= E /\ Zpos N * 2 ^ (E - e) = round_nearest_even q l.
Proof.
  intros Hq He. unfold binary_round_aux, shr_fexp.
  rewrite (Zdigits2_unique q 53) by lia.
  rewrite fexp64 by lia.
  replace (53 + e - 53 - e) with 0 by lia. cbn [shr].
  rewrite shr_m_of_loc, loc_of_shr_record_of_loc.
  set (V := round_nearest_even q l).
  assert (HV : V = q \/ V = q + 1) by apply round_nearest_even_cases.
  destruct (Z.eq_dec V (2 ^ 53)) as [E53|Hne].
  - rewrite E53.
    rewrite (Zdigits2_unique (2 ^ 53) 54) by lia.
    rewrite fexp64 by lia.
    replace (54 + e - 53 - e) with 1 by lia.
    cbn [shr SpecFloat.iter_pos]. change (2 ^ 53) with 9007199254740992.
    cbn [shr_record_of_loc shr_1 shr_m orb].
    destruct (Z.leb_spec (e + 1) (1024 - 53)) as [_|]; [|lia].
    eexists. exists (e + 1). split; [reflexivity|]. split; [lia|].
    replace (e + 1 - e) with 1 by lia. reflexivity.
  - rewrite (Zdigits2_unique V 53) by lia.
    rewrite fexp64 by lia.
    replace (53 + e - 53 - e) with 0 by lia. cbn [shr].
    rewrite shr_m_of_loc.
    destruct V as [|N|N] eqn:EV; try lia.
    destruct (Z.leb_spec e (1024 - 53)) as [_|]; [|lia].
    exists N, e. split; [reflexivity|]. split; [lia|].
    rewrite Z.sub_diag. lia.
Qed.

Lemma shr_1_nonneg (m : Z) (r s : bool) :
  0 <= m ->
  shr_1 {| shr_m := m; shr_r := r; shr_s := s |}
  = {| shr_m := m / 2; shr_r := Z.odd m; shr_s := r || s |}.
Proof.
  intros Hm. destruct m as [|[p|p|]|]; try lia; cbn [shr_1 Z.odd].
  - reflexivity.
  - rewrite Pos2Z.inj_xI.
    replace (2 * Zpos p + 1) with (1 + Zpos p * 2) by lia.
    rewrite Z.div_add by lia. reflexivity.
  - rewrite Pos2Z.inj_xO.
    replace (2 * Zpos p) with (0 + Zpos p * 2) by lia.
    rewrite Z.div_add by lia. reflexivity.
  - reflexivity.
Qed.

(** Rounding a 54-bit integer mantissa: one shift, then at most a carry. *)
Lemma round_54 (sx : bool) (q e : Z) (l : location) :
  2 ^ 53 <= q < 2 ^ 54 -> -1074 <= e <= 969 ->
  exists N E,
    binary_round_aux 53 1024 sx q e l = S754_finite sx N E /\
    e <= E /\ Zpos N * 2 ^ (E - e) = 2 * round_nearest_even (q / 2) (half_loc q l).
Proof.
  intros Hq He. unfold binary_round_aux, shr_fexp.
  rewrite (Zdigits2_unique q 54) by lia.
  rewrite fexp64 by lia.
  replace (54 + e - 53 - e) with 1 by lia. cbn [shr SpecFloat.iter_pos].
  assert (Hrec : shr_1 (shr_record_of_loc q l)
          = {| shr_m := q / 2; shr_r := Z.odd q;
               shr_s := shr_r (shr_record_of_loc q l) || shr_s (shr_record_of_loc q l) |}).
  { rewrite <- shr_1_nonneg by lia.
    rewrite <- (shr_m_of_loc q l) at 2. destruct (shr_record_of_loc q l); reflexivity. }
  rewrite Hrec. cbn [shr_m]. fold (half_loc q l).
  assert (Hh : 2 ^ 52 <= q / 2 < 2 ^ 53).
  { split; [apply Z.div_le_lower_bound | apply Z.div_lt_upper_bound]; lia. }
  set (V := round_nearest_even (q / 2) (half_loc q l)).
  assert (HV : V = q / 2 \/ V = q / 2 + 1) by apply round_nearest_even_cases.
  destruct (Z.eq_dec V (2 ^ 53)) as [E53|Hne].
  - rewrite E53.
    rewrite (Zdigits2_unique (2 ^ 53) 54) by lia.
    rewrite fexp64 by lia.
    replace (54 + (e + 1) - 53 - (e + 1)) with 1 by lia.
    cbn [shr SpecFloat.iter_pos]. change (2 ^ 53) with 9007199254740992.
    cbn [shr_record_of_loc shr_1 shr_m orb].
    destruct (Z.leb_spec (e + 1 + 1) (1024 - 53)) as [_|]; [|lia].
    eexists. exists (e + 1 + 1). split; [reflexivity|]. split; [lia|].
    replace (e + 1 + 1 - e) with 2 by lia. reflexivity.
  - rewrite (Zdigits2_unique V 53) by lia.
    rewrite fexp64 by lia.
    replace (53 + (e + 1) - 53 - (e + 1)) with 0 by lia. cbn [shr].
    rewrite shr_m_of_loc.
    destruct V as [|N|N] eqn:EV; try lia.
    destruct (Z.leb_spec (e + 1) (1024 - 53)) as [_|]; [|lia].
    exists N, (e + 1). split; [reflexivity|]. split; [lia|].
    replace (e + 1 - e) with 1 by lia. lia.
Qed.

Lemma new_location_spec (b r : Z) :
  0 < b -> 0 <= r < b ->
  new_location b r = if r =? 0 then loc_Exact else loc_Inexact (2 * r ?= b).
Proof.
  intros Hb Hr. unfold new_location, new_location_even, new_location_odd.
  destruct (Z.even b) eqn:Ev; [reflexivity|].
  destruct (r =? 0); [reflexivity|]. f_equal.
  assert (Hodd : Z.odd b = true) by (rewrite <- Z.negb_even, Ev; reflexivity).
  apply Z.odd_spec in Hodd. destruct Hodd as [k Hk].
  destruct (Z.compare_spec (2 * r + 1) b), (Z.compare_spec (2 * r) b); try reflexivity; lia.
Qed.

(** Where the rounded 53-bit mantissa lies. *)
Lemma rne_53_bracket (q r b : Z) :
  0 < b -> 0 <= r < b -> 0 <= q ->
  let V := round_nearest_even q (new_location b r) in
  (r = 0 -> V = q) /\
  (forall L, L * b < q * b + r -> b < 2 * (q * b + r - L * b) -> L < V) /\
  (forall U, q * b + r < U * b -> b < 2 * (U * b - (q * b + r)) -> V < U).
Proof.
  intros Hb Hr Hq V. subst V. rewrite new_location_spec by assumption.
  split; [|split].
  - intros ->. reflexivity.
  - intros L H1 H2. assert (L <= q) by nia.
    destruct (Z.eqb_spec r 0) as [->|Hr0]; cbn [round_nearest_even]; [nia|].
    destruct (Z.compare_spec (2 * r) b); cbn [round_nearest_even];
      try destruct (Z.even q); nia.
  - intros U H1 H2. assert (q < U) by nia.
    destruct (Z.eqb_spec r 0) as [->|Hr0]; cbn [round_nearest_even]; [nia|].
    destruct (Z.compare_spec (2 * r) b); cbn [round_nearest_even];
      try destruct (Z.even q); nia.
Qed.

Lemma half_loc_spec (q b r : Z) :
  0 < b -> 0 <= r < b ->
  half_loc q (new_location b r)
  = match Z.odd q, r =? 0 with
    | false, true => loc_Exact
    | false, false => loc_Inexact Lt
    | true, true => loc_Inexact Eq
    | true, false => loc_Inexact Gt
    end.
Proof.
  intros Hb Hr. unfold half_loc. rewrite new_location_spec by assumption.
  destruct (Z.odd q), (r =? 0); try reflexivity;
    destruct (2 * r ?= b); reflexivity.
Qed.

(** Where the rounded 54-bit mantissa lies, between even bounds. *)
Lemma rne_54_bracket (q r b : Z) :
  0 < b -> 0 <= r < b -> 0 <= q ->
  let V := 2 * round_nearest_even (q / 2) (half_loc q (new_location b r)) in
  (r = 0 -> Z.even q = true -> V = q) /\
  (forall L, L * b < q * b + r -> b < q * b + r - L * b -> Z.even L = true -> L < V) /\
  (forall U, q * b + r < U * b -> b < U * b - (q * b + r) -> Z.even U = true -> V < U).
Proof.
  intros Hb Hr Hq V. subst V. rewrite half_loc_spec by assumption.
  pose proof (Z.div_mod q 2 ltac:(lia)) as Hdm.
  pose proof (Z.mod_pos_bound q 2 ltac:(lia)) as Hmb.
  rewrite Zmod_odd in Hdm, Hmb.
  split; [|split].
  - intros -> Hev. rewrite <- Z.negb_even, Hev in *. cbn in *. lia.
  - intros L H1 H2 HL. apply Z.even_spec in HL. destruct HL as [L' ->].
    assert (L' <= q / 2) by (destruct (Z.odd q); nia).
    destruct (Z.odd q), (Z.eqb_spec r 0); cbn [round_nearest_even];
      try destruct (Z.even (q / 2)); nia.
  - intros U H1 H2 HU. apply Z.even_spec in HU. destruct HU as [U' ->].
    assert (q / 2 < U') by (destruct (Z.odd q); nia).
    destruct (Z.odd q), (Z.eqb_spec r 0); cbn [round_nearest_even];
      try destruct (Z.even (q / 2)); nia.
Qed.

Lemma SFdiv_core_small (a b : Z) :
  0 < a < 2 ^ 53 -> 0 < b < 2 ^ 53 ->
  exists s,
    0 < s <= 105 /\
    2 ^ 52 <= a * 2 ^ s / b < 2 ^ 54 /\
    SFdiv_core_binary 53 1024 a 0 b 0
    = (a * 2 ^ s / b, - s, new_location b ((a * 2 ^ s) mod b)).
Proof.
  intros Ha Hb.
  destruct (Zdigits2_pos_bounds a ltac:(lia)) as (Hd1 & Ha1 & Ha2).
  destruct (Zdigits2_pos_bounds b ltac:(lia)) as (Hd2 & Hb1 & Hb2).
  set (d1 := Zdigits2 a) in *. set (d2 := Zdigits2 b) in *.
  assert (d1 <= 53).
  { destruct (Z.le_gt_cases d1 53) as [|Hgt]; [assumption|].
    assert (2 ^ 53 <= 2 ^ (d1 - 1)) by (apply Z.pow_le_mono_r; lia). lia. }
  assert (d2 <= 53).
  { destruct (Z.le_gt_cases d2 53) as [|Hgt]; [assumption|].
    assert (2 ^ 53 <= 2 ^ (d2 - 1)) by (apply Z.pow_le_mono_r; lia). lia. }
  exists (53 + d2 - d1). split; [lia|].
  set (s := 53 + d2 - d1).
  assert (HP1 : 2 ^ (d1 - 1) * 2 ^ s = 2 ^ 52 * 2 ^ d2).
  { rewrite <- !Z.pow_add_r by lia. f_equal. lia. }
  assert (HP2 : 2 ^ d1 * 2 ^ s = 2 ^ 54 * 2 ^ (d2 - 1)).
  { rewrite <- !Z.pow_add_r by lia. f_equal. lia. }
  assert (HP : 0 < 2 ^ s) by (apply Z.pow_pos_nonneg; lia).
  pose proof (Z.div_mod (a * 2 ^ s) b ltac:(lia)) as Hdm.
  pose proof (Z.mod_pos_bound (a * 2 ^ s) b ltac:(lia)) as Hmb.
  split.
  - set (q := a * 2 ^ s / b) in *. set (r := (a * 2 ^ s) mod b) in *.
    assert (2 ^ 52 * 2 ^ d2 <= a * 2 ^ s) by nia.
    assert (a * 2 ^ s < 2 ^ 54 * 2 ^ (d2 - 1)) by nia.
    split; nia.
  - unfold SFdiv_core_binary. fold d1 d2.
    rewrite fexp64 by lia.
    replace (Z.min (d1 + 0 - (d2 + 0) - 53) (0 - 0)) with (- s) by lia.
    replace (0 - 0 - - s) with s by lia.
    destruct s as [|p|p] eqn:Es; try lia.
    rewrite Z.shiftl_mul_pow2 by lia.
    unfold Z.div, Z.modulo.
    destruct (Z.div_eucl (a * 2 ^ Z.pos p) b) as [q r]. reflexivity.
Qed.

Lemma div_exact_unique (b q r n : Z) :
  0 < b -> 0 <= r < b -> b * q + r = b * n -> r = 0 /\ q = n.
Proof.
  intros Hb Hr H. assert (Hr' : r = b * (n - q)) by lia.
  assert (n - q = 0) by nia. split; [nia | lia].
Qed.

Lemma bracket_arith (a b F rho P c : Z) :
  a = b * F + rho -> 0 < rho < b -> 0 < P -> 0 < c -> b < c * P ->
  (F * P * b < a * P /\ b < c * (a * P - F * P * b)) /\
  (a * P < (F + 1) * P * b /\ b < c * ((F + 1) * P * b - a * P)).
Proof.
  intros -> Hrho HP Hc Hb.
  assert (E1 : (b * F + rho) * P - F * P * b = rho * P) by ring.
  assert (E2 : (F + 1) * P * b - (b * F + rho) * P = (b - rho) * P) by ring.
  assert (P <= rho * P) by nia.
  assert (P <= (b - rho) * P) by nia.
  assert (c * P <= c * (rho * P)) by nia.
  assert (c * P <= c * ((b - rho) * P)) by nia.
  rewrite E1, E2. repeat split; lia.
Qed.

(** The binary64 quotient of two positive integers below 2^53 is a finite
    number [N * 2^E] that lies between the same two integers as the exact
    quotient. *)
Lemma round_quotient_small (a b : Z) (sx : bool) :
  0 < a < 2 ^ 53 -> 0 < b < 2 ^ 53 ->
  exists q e l N E s,
    SFdiv_core_binary 53 1024 a 0 b 0 = (q, e, l) /\
    binary_round_aux 53 1024 sx q e l = S754_finite sx N E /\
    0 < s /\ 0 <= E + s /\
    (a mod b = 0 -> Zpos N * 2 ^ (E + s) = a / b * 2 ^ s) /\
    (a mod b <> 0 ->
     a / b * 2 ^ s < Zpos N * 2 ^ (E + s) < (a / b + 1) * 2 ^ s).
Proof.
  intros Ha Hb.
  destruct (SFdiv_core_small a b Ha Hb) as (s & Hs & Hq & Hcore).
  pose proof (Z.div_mod (a * 2 ^ s) b ltac:(lia)) as Hdm.
  pose proof (Z.mod_pos_bound (a * 2 ^ s) b ltac:(lia)) as Hmb.
  pose proof (Z.div_mod a b ltac:(lia)) as Hdm'.
  pose proof (Z.mod_pos_bound a b ltac:(lia)) as Hmb'.
  set (q := a * 2 ^ s / b) in *. set (r := (a * 2 ^ s) mod b) in *.
  set (F := a / b) in *. set (rho := a mod b) in *.
  assert (HP0 : 0 < 2 ^ s) by (apply Z.pow_pos_nonneg; lia).
  assert (Hev : forall n, Z.even (n * 2 ^ s) = true).
  { intros n. replace s with (Z.succ (s - 1)) by lia.
    rewrite Z.pow_succ_r, Z.even_mul, Z.even_mul by lia. cbn. apply orb_true_r. }
  set (P := 2 ^ s) in *.
  assert (Hexact : rho = 0 -> r = 0 /\ q = F * P).
  { intros E0. rewrite E0, Z.add_0_r in Hdm'.
    apply (div_exact_unique b); [lia | exact Hmb |].
    rewrite <- Hdm, Hdm'. ring. }
  exists q, (- s), (new_location b r).
  destruct (Z.lt_ge_cases q (2 ^ 53)) as [H53|H54].
  - destruct (round_53 sx q (- s) (new_location b r) ltac:(lia) ltac:(lia))
      as (N & E & Hr & HE & HV).
    replace (E - - s) with (E + s) in HV by lia.
    destruct (rne_53_bracket q r b ltac:(lia) Hmb ltac:(lia)) as (B0 & BL & BU).
    exists N, E, s. split; [exact Hcore|]. split; [exact Hr|].
    split; [lia|]. split; [lia|]. rewrite HV. split.
    + intros E0. destruct (Hexact E0) as [-> ->]. apply B0. reflexivity.
    + intros Hne.
      assert (Hb2 : b < 2 * P).
      { assert (2 ^ 52 * b <= a * P) by nia. nia. }
      destruct (bracket_arith a b F rho P 2 Hdm' ltac:(lia) HP0 ltac:(lia) Hb2)
        as [[L1 L2] [U1 U2]].
      replace (q * b + r) with (a * P) in BL, BU by lia.
      split; [apply BL | apply BU]; assumption.
  - destruct (round_54 sx q (- s) (new_location b r) ltac:(lia) ltac:(lia))
      as (N & E & Hr & HE & HV).
    replace (E - - s) with (E + s) in HV by lia.
    destruct (rne_54_bracket q r b ltac:(lia) Hmb ltac:(lia)) as (B0 & BL & BU).
    exists N, E, s. split; [exact Hcore|]. split; [exact Hr|].
    split; [lia|]. split; [lia|]. rewrite HV.
    split.
    + intros E0. destruct (Hexact E0) as [Hr0 Hq0].
      transitivity q; [|exact Hq0].
      apply B0; [exact Hr0 | rewrite Hq0; apply Hev].
    + intros Hne.
      assert (Hb2 : b < 1 * P).
      { assert (2 ^ 53 * b <= a * P) by nia. nia. }
      destruct (bracket_arith a b F rho P 1 Hdm' ltac:(lia) HP0 ltac:(lia) Hb2)
        as [[L1 L2] [U1 U2]].
      replace (q * b + r) with (a * P) in BL, BU by lia.
      split; [apply BL | apply BU]; try apply Hev; lia.
Qed.

Lemma floor_between (v p f : Z) : 0 < p -> f * p <= v < (f + 1) * p -> v / p = f.
Proof.
  intros Hp Hv. symmetry. apply (Z.div_unique v p f (v - f * p)); lia.
Qed.

(** What [math_ceil] computes on [n * 2^E], seen at a finer scale [2^-s]. *)
Lemma ceil_value (n E s : Z) :
  0 < s -> 0 <= E + s ->
  (if 0 <=? E then n * 2 ^ E else - ((- n) / 2 ^ (- E)))
  = - ((- (n * 2 ^ (E + s))) / 2 ^ s).
Proof.
  intros Hs HE. destruct (Z.leb_spec 0 E) as [H0|H0].
  - rewrite Z.pow_add_r by lia.
    replace (- (n * (2 ^ E * 2 ^ s))) with (- (n * 2 ^ E) * 2 ^ s) by ring.
    rewrite Z.div_mul by (apply Z.pow_nonzero; lia). lia.
  - replace s with (- E + (E + s)) at 2 by lia.
    rewrite (Z.pow_add_r 2 (- E)) by lia.
    replace (- (n * 2 ^ (E + s))) with (- n * 2 ^ (E + s)) by ring.
    rewrite Z.div_mul_cancel_r by (apply Z.pow_nonzero; lia). reflexivity.
Qed.

(** Below 2^53 the rounding of the quotient to binary64 does not show in
    [math.ceil(x / y)]: it is the exact ceiling. *)
Lemma ceil_div_small (x y : Z) :
  - 2 ^ 53 < x < 2 ^ 53 -> 0 < y < 2 ^ 53 -> ceil_div x y = Ok (ceiling x y).
Proof.
  intros Hx Hy. unfold ceil_div, truediv, ceiling.
  destruct (Z.eqb_spec y 0) as [|_]; [lia|].
  destruct (Z.eqb_spec x 0) as [->|Hx0]; [reflexivity|].
  replace (y <? 0) with false by (symmetry; apply Z.ltb_ge; lia).
  rewrite xorb_false_r, (Z.abs_eq y) by lia.
  destruct (round_quotient_small (Z.abs x) y (x <? 0) ltac:(lia) Hy)
    as (q & e & l & N & E & s & Hcore & Hround & Hs & HEs & Hex & Hin).
  rewrite Hcore, Hround. cbn [math_ceil]. f_equal.
  rewrite (ceil_value _ E s Hs HEs).
  assert (HP : 0 < 2 ^ s) by (apply Z.pow_pos_nonneg; lia).
  pose proof (Z.div_mod (Z.abs x) y ltac:(lia)) as Hdm.
  pose proof (Z.mod_pos_bound (Z.abs x) y ltac:(lia)) as Hmb.
  set (F := Z.abs x / y) in *. set (rho := Z.abs x mod y) in *.
  set (P := 2 ^ s) in *. set (V := Z.pos N * 2 ^ (E + s)) in *.
  destruct (Z.ltb_spec x 0) as [Hneg|Hpos]; cbn [cond_Zopp].
  - replace (- (- Z.pos N * 2 ^ (E + s))) with V by (unfold V; ring).
    replace (- x) with (Z.abs x) by lia.
    f_equal. fold F. apply floor_between; [lia|].
    destruct (Z.eq_dec rho 0) as [E0|Hne]; [rewrite (Hex E0) | specialize (Hin Hne)]; lia.
  - fold V. rewrite (Z.abs_eq x) in * by lia. f_equal.
    destruct (Z.eq_dec rho 0) as [E0|Hne].
    + rewrite (Hex E0).
      rewrite (floor_between (- (F * P)) P (- F)) by lia.
      symmetry. apply floor_between; lia.
    + specialize (Hin Hne).
      rewrite (floor_between (- V) P (- (F + 1))) by lia.
      symmetry. apply floor_between; [lia|]. nia.
Qed.

Lemma ceiling_bounds (x y : Z) :
  0 < y -> (ceiling x y - 1) * y < x <= ceiling x y * y.
Proof.
  intros Hy. unfold ceiling.
  pose proof (Z.div_mod (- x) y ltac:(lia)) as E.
  pose proof (Z.mod_pos_bound (- x) y Hy) as B.
  nia.
Qed.

(** ** Binary64 division of any two integers: the sign *)

Lemma iter_pos_inv {A : Type} (P : A -> Prop) (f : A -> A) :
  (forall x, P x -> P (f x)) -> forall n x, P x -> P (SpecFloat.iter_pos f n x).
Proof.
  intros Hf. induction n as [n IH|n IH|]; intros x Hx; cbn [SpecFloat.iter_pos]; auto.
Qed.

Lemma shr_1_keeps_nonneg (mrs : shr_record) : 0 <= shr_m mrs -> 0 <= shr_m (shr_1 mrs).
Proof.
  destruct mrs as [m r s]. cbn [shr_m]. intros Hm.
  destruct m as [|[p|p|]|]; cbn; lia.
Qed.

Lemma shr_fexp_nonneg (m e : Z) (l : location) :
  0 <= m -> 0 <= shr_m (fst (shr_fexp 53 1024 m e l)).
Proof.
  intros Hm. unfold shr_fexp, shr.
  destruct (fexp 53 1024 (Zdigits2 m + e) - e) as [|p|p]; cbn [fst];
    rewrite ?shr_m_of_loc; try assumption.
  apply (iter_pos_inv (fun mrs => 0 <= shr_m mrs)).
  - apply shr_1_keeps_nonneg.
  - rewrite shr_m_of_loc. assumption.
Qed.

(** Rounding a non-negative mantissa gives a zero, a finite number or an
    infinity of the sign asked for. *)
Lemma binary_round_aux_sign (sx : bool) (q e : Z) (l : location) :
  0 <= q ->
  binary_round_aux 53 1024 sx q e l = S754_zero sx \/
  (exists N E, binary_round_aux 53 1024 sx q e l = S754_finite sx N E) \/
  binary_round_aux 53 1024 sx q e l = S754_infinity sx.
Proof.
  intros Hq. unfold binary_round_aux.
  pose proof (shr_fexp_nonneg q e l Hq) as H1.
  destruct (shr_fexp 53 1024 q e l) as [mrs' e']. cbn [fst] in H1.
  set (V := round_nearest_even (shr_m mrs') (loc_of_shr_record mrs')).
  assert (HV : 0 <= V).
  { destruct (round_nearest_even_cases (shr_m mrs') (loc_of_shr_record mrs')); lia. }
  pose proof (shr_fexp_nonneg V e' loc_Exact HV) as H2.
  destruct (shr_fexp 53 1024 V e' loc_Exact) as [mrs'' e'']. cbn [fst] in H2.
  destruct (shr_m mrs'') as [|N|N]; [left; reflexivity | | lia].
  right. destruct (e'' <=? 1024 - 53); [left; eauto | right; reflexivity].
Qed.

Lemma SFdiv_core_nonneg (a b : Z) :
  0 <= a -> 0 < b ->
  exists q e l, SFdiv_core_binary 53 1024 a 0 b 0 = (q, e, l) /\ 0 <= q.
Proof.
  intros Ha Hb. unfold SFdiv_core_binary.
  set (s := 0 - 0 - _).
  set (m' := match s with Z.pos _ => Z.shiftl a s | 0 => a | Z.neg _ => 0 end).
  assert (Hm : 0 <= m').
  { unfold m'. destruct s; try lia. apply Z.shiftl_nonneg. exact Ha. }
  pose proof (Z_div_mod m' b ltac:(lia)) as H.
  destruct (Z.div_eucl m' b) as [q r]. destruct H as [Heq Hr].
  eexists _, _, _. split; [reflexivity|]. nia.
Qed.

(** A non-positive numerator never gives a positive number of epochs. *)
Lemma ceil_div_nonpos (x y : Z) :
  x <= 0 -> 0 < y ->
  (exists n, ceil_div x y = Ok n /\ n <= 0) \/ ceil_div x y = Raise OverflowError.
Proof.
  intros Hx Hy. unfold ceil_div, truediv.
  destruct (Z.eqb_spec y 0) as [|_]; [lia|].
  destruct (Z.eqb_spec x 0) as [->|Hx0]; [left; exists 0; split; [reflexivity | lia]|].
  replace (x <? 0) with true by (symmetry; apply Z.ltb_lt; lia).
  replace (y <? 0) with false by (symmetry; apply Z.ltb_ge; lia).
  cbn [xorb]. rewrite (Z.abs_eq y) by lia.
  destruct (SFdiv_core_nonneg (Z.abs x) y ltac:(lia) Hy) as (q & e & l & -> & Hq).
  destruct (binary_round_aux_sign true q e l Hq) as [->|[(N & E & ->)| ->]].
  - left. exists 0. split; [reflexivity | lia].
  - left. cbn [math_ceil cond_Zopp]. eexists. split; [reflexivity|].
    destruct (Z.leb_spec 0 E).
    + assert (0 < 2 ^ E) by (apply Z.pow_pos_nonneg; lia). nia.
    + replace (- - Z.pos N) with (Z.pos N) by lia.
      assert (0 <= Z.pos N / 2 ^ (- E)) by (apply Z.div_pos; [lia | apply Z.pow_pos_nonneg; lia]).
      lia.
  - right. reflexivity.
Qed.

Section Loop.
Context {T : Type} {ST : Scalar T}.

Lemma length_map2 {A B C : Type} (f : A -> B -> C) (x : list (list A)) (y : list (list B)) :
  length (map2 f x y) = Nat.min (length x) (length y).
Proof. unfold map2. apply length_zip_with. Qed.

Lemma adamw_step_length (o : AdamW T) (weight grad : tensor T) (n : nat) :
  length weight = n -> length grad = n ->
  length (exp_avg o) = n -> length (exp_avg_sq o) = n ->
  length (fst (adamw_step o weight grad)) = n /\
  length (exp_avg (snd (adamw_step o weight grad))) = n /\
  length (exp_avg_sq (snd (adamw_step o weight grad))) = n.
Proof.
  intros Hw Hg Hm Hv. unfold adamw_step. cbn [fst snd exp_avg exp_avg_sq].
  repeat (rewrite ?length_map2, ?length_map, ?length_fmap). lia.
Qed.
End Loop.

Section Run.
Context {T : Type} {ST : Scalar T}.
Variable s : Setup T.
Hypothesis Hsave : save_step (args s) <> 0.
Hypothesis Hids : mod_tokens_id s <> [].

Lemma samples_ok (g : Z) (pairs : list (string * string)) :
  (forall p, pipetest_raises (world s) g p = false) ->
  exists tr, samples s g pairs = (Ok tt, tr) /\ quiet tr.
Proof.
  intros Hpipe.
  induction pairs as [|[m i] pairs (tr & IH & Hq)]; cbn [samples].
  - exists []. split; [reflexivity | split; reflexivity].
  - rewrite Hpipe. eexists. split.
    + eapply bind_ok; [reflexivity | exact IH].
    + destruct Hq as [Hq1 Hq2]. split; rewrite count_app, ?Hq1, ?Hq2; reflexivity.
Qed.

Lemma save_and_sample_ok (g : Z) :
  (forall p, pipetest_raises (world s) g p = false) ->
  exists tr, save_and_sample s g = (Ok tt, tr) /\ quiet tr.
Proof.
  intros Hpipe. unfold save_and_sample.
  destruct (Z.eqb_spec (save_step (args s)) 0) as [E|_]; [contradiction|].
  destruct (g mod save_step (args s) =? 0).
  - destruct (samples_ok g (zip (mod_tokens s) (init_tokens s)) Hpipe)
      as (tr & Hs & Hq1 & Hq2).
    destruct (type (args s)); (eexists; split;
      [ eapply bind_ok; [reflexivity | exact Hs]
      | split; rewrite count_app, ?Hq1, ?Hq2; reflexivity ]).
  - exists []. split; [reflexivity | split; reflexivity].
Qed.

Lemma update_embeddings_ok (st : Train T) (grads : tensor T) :
  shape_ok (len (tokenizer s)) st -> length grads = len (tokenizer s) ->
  exists embeds opt,
    update_embeddings (len (tokenizer s)) (mod_tokens_id s) (optimizer st)
      (token_embeds st) grads = Ok (embeds, opt) /\
    length embeds = len (tokenizer s) /\
    length (exp_avg opt) = len (tokenizer s) /\
    length (exp_avg_sq opt) = len (tokenizer s).
Proof.
  intros (Hw & Hm & Hv) Hg. unfold update_embeddings.
  destruct (mod_tokens_id s) as [|id0 rest] eqn:E; [contradiction|].
  destruct (mask_grads_spec (len (tokenizer s)) id0 rest grads Hg) as (g & -> & Hgl & _).
  destruct (adamw_step (optimizer st) (token_embeds st) g) as [embeds opt] eqn:Ea.
  exists embeds, opt. split; [reflexivity|].
  pose proof (adamw_step_length (optimizer st) (token_embeds st) g _ Hw Hgl Hm Hv) as L.
  rewrite Ea in L. exact L.
Qed.

Lemma train_step_ok (st : Train T) :
  (forall p, pipetest_raises (world s) (global_step st + 1) p = false) ->
  shape_ok (len (tokenizer s)) st ->
  exists st' tr,
    train_step s st = (Ok st', tr) /\
    global_step st' = global_step st + 1 /\
    shape_ok (len (tokenizer s)) st' /\
    count is_optimizer_step tr = 1%nat /\ count is_train tr = 0%nat.
Proof.
  intros Hpipe Hshape. unfold train_step.
  set (grads := map _ _).
  assert (Hg : length grads = len (tokenizer s)).
  { unfold grads. rewrite length_map, length_seq. apply Hshape. }
  destruct (update_embeddings_ok st grads Hshape Hg) as (embeds & opt & -> & L1 & L2 & L3).
  destruct (save_and_sample_ok (global_step st + 1) Hpipe) as (tr & Hs & Hq1 & Hq2).
  eexists. eexists. split.
  - unfold lift. simpl. rewrite Hs. simpl. reflexivity.
  - cbn [global_step token_embeds optimizer]. split; [reflexivity|].
    split; [split; [|split]; assumption|].
    rewrite app_nil_r. change (ev_optimizer_step :: tr) with ([ev_optimizer_step] ++ tr).
    split; rewrite count_app, ?Hq1, ?Hq2; reflexivity.
Qed.

Hypothesis Hpipe : forall g p, pipetest_raises (world s) g p = false.

(** The batch loop of one epoch stops at [train_steps] or when the batches
    run out, whichever comes first. *)
Lemma batches_run (n : nat) (st : Train T) :
  shape_ok (len (tokenizer s)) st ->
  global_step st < train_steps (args s) ->
  exists st' tr,
    batches s n st = (Ok st', tr) /\
    shape_ok (len (tokenizer s)) st' /\
    global_step st' = Z.min (train_steps (args s)) (global_step st + Z.of_nat n) /\
    Z.of_nat (count is_optimizer_step tr) = global_step st' - global_step st /\
    count is_train tr = 0%nat.
Proof.
  revert st. induction n as [|n IH]; intros st Hshape Hlt.
  - exists st, []. split; [reflexivity|]. split; [assumption|].
    split; [lia|]. split; [unfold count; simpl; lia | reflexivity].
  - destruct (train_step_ok st (Hpipe _) Hshape)
      as (st1 & tr1 & Hstep & Hg1 & Hshape1 & Hc1 & Ht1).
    cbn [batches].
    destruct (Z.leb_spec (train_steps (args s)) (global_step st1)) as [Hge|Hlt1].
    + exists st1, (tr1 ++ []). split.
      { eapply bind_ok; [exact Hstep|].
        destruct (Z.leb_spec (train_steps (args s)) (global_step st1)); [reflexivity|lia]. }
      split; [assumption|]. rewrite app_nil_r, Hc1, Ht1.
      split; [lia|]. split; [lia|reflexivity].
    + destruct (IH st1 Hshape1 Hlt1) as (st' & tr & Hb & Hshape' & Hg' & Hc & Ht).
      exists st', (tr1 ++ tr). split.
      { eapply bind_ok; [exact Hstep|].
        destruct (Z.leb_spec (train_steps (args s)) (global_step st1)); [lia|exact Hb]. }
      split; [assumption|]. rewrite !count_app, Hc1, Ht1, Ht.
      split; [lia|]. split; [lia|reflexivity].
Qed.

Lemma epochs_run (m epoch : nat) (st : Train T) :
  (0 < epoch_steps (world s))%nat ->
  shape_ok (len (tokenizer s)) st ->
  global_step st < train_steps (args s) ->
  (Z.of_nat m - 1) * Z.of_nat (epoch_steps (world s)) + global_step st
    < train_steps (args s)
    <= Z.of_nat m * Z.of_nat (epoch_steps (world s)) + global_step st ->
  exists st' tr,
    epochs s epoch m st = (Ok st', tr) /\
    global_step st' = train_steps (args s) /\
    Z.of_nat (count is_optimizer_step tr) = train_steps (args s) - global_step st /\
    count is_train tr = m.
Proof.
  intros HE. revert epoch st. induction m as [|m IH]; intros epoch st Hshape Hlt Hb.
  - lia.
  - destruct (batches_run (epoch_steps (world s)) st Hshape Hlt)
      as (st1 & tr1 & Hrun & Hshape1 & Hg1 & Hc1 & Ht1).
    cbn [epochs].
    destruct (Z.lt_ge_cases (global_step st + Z.of_nat (epoch_steps (world s)))
                            (train_steps (args s))) as [Hmore|Hdone].
    + destruct (IH (S epoch) st1 Hshape1 ltac:(lia) ltac:(nia))
        as (st' & tr & He & Hg' & Hc & Ht).
      exists st', ([ev_train epoch] ++ tr1 ++ tr). split.
      { eapply bind_ok; [reflexivity|]. eapply bind_ok; [exact Hrun | exact He]. }
      split; [assumption|]. rewrite !count_app, Ht1, Ht.
      split; [|reflexivity]. change (count is_optimizer_step [ev_train epoch]) with 0%nat.
      lia.
    + assert (m = 0%nat) as -> by nia.
      exists st1, ([ev_train epoch] ++ tr1 ++ []). split.
      { eapply bind_ok; [reflexivity|]. eapply bind_ok; [exact Hrun | reflexivity]. }
      rewrite app_nil_r, !count_app, Ht1.
      split; [lia|]. split; [|reflexivity].
      change (count is_optimizer_step [ev_train epoch]) with 0%nat. lia.
Qed.

(** C7, as amended.  When no step raises (the save period is not zero,
    sampling does not fail, there is a modifier token and the tables have
    [len(tokenizer)] rows), there is at least one batch per epoch, and both
    [train_steps >= 0] and the number of batches per epoch are below 2^53
    (where the binary64 quotient of line 158 still has the exact ceiling),
    the loop returns after exactly [train_steps] optimizer steps, having
    started [ceiling(train_steps / epoch_steps)] epochs. *)
Theorem training_loop_steps (st : Train T) :
  (0 < epoch_steps (world s))%nat ->
  Z.of_nat (epoch_steps (world s)) < 2 ^ 53 ->
  0 <= train_steps (args s) < 2 ^ 53 ->
  global_step st = 0 ->
  shape_ok (len (tokenizer s)) st ->
  exists st' tr,
    training_loop s st = (Ok st', tr) /\
    global_step st' = train_steps (args s) /\
    Z.of_nat (count is_optimizer_step tr) = train_steps (args s) /\
    Z.of_nat (count is_train tr)
      = ceiling (train_steps (args s)) (Z.of_nat (epoch_steps (world s))).
Proof.
  intros HE HE53 HT Hg0 Hshape. unfold training_loop.
  rewrite ceil_div_small by lia. cbn [lift bind].
  pose proof (ceiling_bounds (train_steps (args s)) (Z.of_nat (epoch_steps (world s)))
                ltac:(lia)) as B.
  destruct (Z.eq_dec (train_steps (args s)) 0) as [E0|Hpos].
  - assert (ceiling (train_steps (args s)) (Z.of_nat (epoch_steps (world s))) = 0) as -> by nia.
    exists st, []. unfold count. simpl. repeat split; lia.
  - set (c := ceiling _ _) in *.
    assert (Hc : 1 <= c) by nia.
    destruct (epochs_run (Z.to_nat c) 0 st HE Hshape ltac:(lia) ltac:(rewrite Z2Nat.id; lia))
      as (st' & tr & He & Hg & Hcs & Hct).
    exists st', tr. rewrite He, app_nil_l. repeat split; try assumption; lia.
Qed.
End Run.

Lemma bind_inv {T A B : Type} (m : M T A) (f : A -> M T B) (r : result B)
    (tr : list (event T)) :
  bind m f = (r, tr) ->
  (exists e, m = (Raise e, tr) /\ r = Raise e) \/
  (exists a t1 t2, m = (Ok a, t1) /\ f a = (r, t2) /\ tr = t1 ++ t2).
Proof.
  unfold bind. destruct m as [[a|e] t1].
  - destruct (f a) as [r' t2] eqn:E. intros [= <- <-]. right. eauto 6.
  - intros [= <- <-]. left. eauto.
Qed.

Lemma bind_inv_ok {T A B : Type} (m : M T A) (f : A -> M T B) (b : B)
    (tr : list (event T)) :
  bind m f = (Ok b, tr) ->
  exists a t1 t2, m = (Ok a, t1) /\ f a = (Ok b, t2) /\ tr = t1 ++ t2.
Proof.
  intros Hb. destruct (bind_inv _ _ _ _ Hb) as [(e & _ & [=])|Hok]. exact Hok.
Qed.

(** ** The tokenizer *)

Lemma add_tokens_existing (tokenizer : Tokenizer) (token : string) (id : nat) :
  vocab tokenizer !! token = Some id ->
  add_tokens tokenizer token = (tokenizer, 0%nat).
Proof. intros Hin. unfold add_tokens. rewrite Hin. reflexivity. Qed.

Lemma add_tokens_dom (tokenizer : Tokenizer) (token : string) :
  dom (vocab (fst (add_tokens tokenizer token))) = dom (vocab tokenizer) ∪ {[token]}.
Proof.
  unfold add_tokens. destruct (vocab tokenizer !! token) as [id|] eqn:E; simpl.
  - apply elem_of_dom_2 in E. apply set_eq. intros x.
    rewrite elem_of_union, elem_of_singleton. split; [tauto | intros [Hx| ->]; assumption].
  - rewrite dom_insert_L. apply union_comm_L.
Qed.

Section Tokens.
Context {T : Type} {ST : Scalar T}.

Lemma prepare_tokens_spec (w : World T) (pairs : list (string * string)) :
  forall (tokenizer tokenizer' : Tokenizer) (ids iids ids' iids' : list nat)
         (tr : list (event T)),
    prepare_tokens w tokenizer pairs ids iids = (Ok (tokenizer', ids', iids'), tr) ->
    added_tokens tr = map fst pairs /\
    dom (vocab tokenizer') = dom (vocab tokenizer) ∪ list_to_set (map fst pairs) /\
    length ids' = (length ids + length pairs)%nat /\
    length tr = length pairs.
Proof.
  induction pairs as [|[mod_token init_token] pairs IH];
    intros tk tk' ids iids ids' iids' tr Hp; cbn [prepare_tokens] in Hp.
  - injection Hp as <- <- <- <-. simpl. repeat split; [|lia].
    rewrite union_empty_r_L. reflexivity.
  - pose proof (add_tokens_dom tk mod_token) as Hdom.
    destruct (add_tokens tk mod_token) as [tk1 num_added] eqn:Ea. cbn [fst] in Hdom.
    apply bind_inv_ok in Hp as ([] & t1 & t2 & He & Hp & ->).
    injection He as <-.
    apply bind_inv_ok in Hp as (id & t3 & t4 & Hl & Hp & ->).
    unfold lift in Hl. injection Hl as _ <-.
    apply IH in Hp as (Hadd & Hd & Hlen & Hltr).
    cbn [app]. split; [|split; [|split]].
    + change (added_tokens (ev_add_tokens mod_token num_added :: t4))
        with (mod_token :: added_tokens t4).
      rewrite Hadd. reflexivity.
    + rewrite Hd, Hdom. cbn [map fst list_to_set]. rewrite union_assoc_L. reflexivity.
    + rewrite Hlen, length_app. simpl. lia.
    + simpl. rewrite Hltr. reflexivity.
Qed.

End Tokens.

Section MainLemmas.
Context {T : Type} {ST : Scalar T}.

Lemma length_split_pos (sep : Ascii.ascii) (s : string) : (0 < length (split sep s))%nat.
Proof.
  induction s as [|c s IH]; simpl; [lia|].
  destruct (Ascii.eqb c sep); simpl; [lia|].
  destruct (split sep s); simpl in *; lia.
Qed.

Lemma load_models_ok (a : Args T) (w : World T) :
  exists tokenizer token_embeds,
    load_models a w = (Ok (tokenizer, token_embeds), load_trace a w).
Proof.
  unfold load_models, load_trace.
  destruct (type a); [eexists; eexists; reflexivity|].
  destruct (delta_ckpt a) as [path|]; [|eexists; eexists; reflexivity].
  destruct (isfile w path); [|eexists; eexists; reflexivity].
  destruct (load_delta w (pretrained_tokenizer w) (pretrained_embeds w)) as [tk emb] eqn:E.
  exists tk, emb. reflexivity.
Qed.

Lemma parse_inputs_ok_inv (a : Args T) (with_prior : bool)
    (mod_tokens init_tokens data_dirs term_data_dirs : list string) (tr : list (event T)) :
  parse_inputs a = (Ok (with_prior, mod_tokens, init_tokens, data_dirs, term_data_dirs), tr) ->
  exists tok trm dat,
    token a = Some tok /\ term a = Some trm /\ data a = Some dat /\
    with_prior = with_prior_of a /\
    mod_tokens = map angle (split plus_sign tok) /\
    init_tokens = split plus_sign trm /\
    data_dirs = split plus_sign dat /\
    length mod_tokens = length init_tokens /\
    length init_tokens = length data_dirs /\
    (with_prior = true ->
     exists td, term_data a = Some td /\ term_data_dirs = split plus_sign td /\
                length mod_tokens = length term_data_dirs) /\
    tr = [].
Proof.
  unfold parse_inputs, with_prior_of.
  destruct (token a) as [tok|]; [|discriminate].
  destruct (term a) as [trm|]; [|discriminate].
  destruct (data a) as [dat|]; [|discriminate].
  cbn [attr bind ret app].
  destruct (Nat.eqb_spec (length (map angle (split plus_sign tok)))
                         (length (split plus_sign trm))) as [E1|]; [|discriminate].
  destruct (Nat.eqb_spec (length (split plus_sign trm))
                         (length (split plus_sign dat))) as [E2|]; [|discriminate].
  cbn [andb assert bind ret app].
  destruct (term_data a) as [td|].
  - cbn [attr bind ret app].
    destruct (Nat.eqb_spec (length (map angle (split plus_sign tok)))
                           (length (split plus_sign td))) as [E3|]; [|discriminate].
    cbn [assert bind ret app]. intros [= <- <- <- <- <- <-].
    exists tok, trm, dat. repeat split; try assumption.
    intros _. exists td. repeat split. assumption.
  - cbn [bind ret app]. intros [= <- <- <- <- <- <-].
    exists tok, trm, dat. repeat split; try assumption. discriminate.
Qed.
End MainLemmas.

Section MainThms.
Context {T : Type} {ST : Scalar T}.

Lemma parse_inputs_mismatch (a : Args T) (tok trm dat : string) :
  token a = Some tok -> term a = Some trm -> data a = Some dat ->
  length (split plus_sign tok) <> length (split plus_sign trm) \/
  length (split plus_sign trm) <> length (split plus_sign dat) \/
  (exists td, term_data a = Some td /\
              length (split plus_sign tok) <> length (split plus_sign td)) ->
  parse_inputs a = (Raise (AssertionError equal_num), @nil (event T)).
Proof.
  intros Htok Htrm Hdat Hmis. unfold parse_inputs, with_prior_of.
  rewrite Htok, Htrm, Hdat. cbn [attr bind ret app].
  rewrite length_map.
  destruct (Nat.eqb_spec (length (split plus_sign tok))
                         (length (split plus_sign trm))) as [E1|]; [|reflexivity].
  destruct (Nat.eqb_spec (length (split plus_sign trm))
                         (length (split plus_sign dat))) as [E2|]; [|reflexivity].
  destruct Hmis as [?|[?|(td & Htd & Hne)]]; [contradiction..|].
  rewrite Htd. cbn [andb assert attr bind ret app].
  destruct (Nat.eqb_spec (length (split plus_sign tok))
                         (length (split plus_sign td))) as [E3|]; [contradiction|].
  reflexivity.
Qed.

(** C4, as amended.  Lists of unequal length stop [main] with the message of
    the assertion of line 82 or 85, which comes after the five pretrained
    components (and the checkpoint to resume from) have been loaded; nothing
    has touched the tokenizer yet. *)
Theorem length_mismatch_fails_after_loading (a : Args T) (w : World T)
    (tok trm dat : string) :
  token a = Some tok -> term a = Some trm -> data a = Some dat ->
  length (split plus_sign tok) <> length (split plus_sign trm) \/
  length (split plus_sign trm) <> length (split plus_sign dat) \/
  (exists td, term_data a = Some td /\
              length (split plus_sign tok) <> length (split plus_sign td)) ->
  main a w = (Raise (AssertionError equal_num),
              ev_makedirs :: ev_save_cfg :: load_trace a w).
Proof.
  intros Htok Htrm Hdat Hmis. unfold main.
  destruct (load_models_ok a w) as (tk & emb & ->).
  rewrite (parse_inputs_mismatch a tok trm dat Htok Htrm Hdat Hmis).
  cbn [bind emit app]. rewrite app_nil_r. reflexivity.
Qed.

(** What a run of [main] that returns went through. *)
Lemma main_ok_inv (a : Args T) (w : World T) (s : Setup T) (st : Train T)
    (tr : list (event T)) :
  main a w = (Ok (s, st), tr) ->
  exists tokenizer0 token_embeds0 tok trm dat ids embeds tr_ext tr_loop,
    load_models a w = (Ok (tokenizer0, token_embeds0), load_trace a w) /\
    token a = Some tok /\ term a = Some trm /\ data a = Some dat /\
    length (split plus_sign tok) = length (split plus_sign trm) /\
    extend_vocabulary w tokenizer0 token_embeds0
      (map angle (split plus_sign tok)) (split plus_sign trm)
    = (Ok (tokenizer s, ids, embeds), tr_ext) /\
    args s = scale a (with_prior_of a) /\ world s = w /\
    mod_tokens s = map angle (split plus_sign tok) /\
    init_tokens s = split plus_sign trm /\
    mod_tokens_id s = ids /\
    training_loop s {| global_step := 0; token_embeds := embeds;
                       optimizer := new_AdamW (lr a) embeds |}
    = (Ok st, tr_loop) /\
    tr = [ev_makedirs; ev_save_cfg] ++ load_trace a w ++ tr_ext
         ++ [ev_dataset (zip_with fmt_pair (map angle (split plus_sign tok))
                                           (split plus_sign trm));
             ev_optimizer (params_to_optimize a) (lr a)]
         ++ (if low_mem a then [ev_gradient_checkpointing] else [])
         ++ (match type a with text => [] | custom => [ev_from_pretrained unet0] end)
         ++ tr_loop
         ++ [match type a with
             | text => ev_save_embeds None
             | custom => ev_save_delta None false
             end].
Proof.
  unfold main. intros Hm.
  destruct (load_models_ok a w) as (tk0 & emb0 & Hload). rewrite Hload in Hm.
  cbn [bind emit app] in Hm.
  destruct (parse_inputs a) as [[[[[[wp mt] it] dd] tdd]|e] trp] eqn:Hp; [|discriminate].
  apply parse_inputs_ok_inv in Hp
    as (tok & trm & dat & Htok & Htrm & Hdat & -> & -> & -> & -> & Hl1 & Hl2 & _ & ->).
  cbn [bind emit ret app] in Hm.
  destruct (extend_vocabulary w tk0 emb0 (map angle (split plus_sign tok))
              (split plus_sign trm)) as [[[[tk ids] emb]|e] tr_ext] eqn:Hext;
    rewrite ?Hext in Hm; cbn [bind emit ret app] in Hm; [|discriminate].
  assert (Htype : type (scale a (with_prior_of a)) = type a).
  { unfold scale. destruct (scale_lr a); [|reflexivity].
    destruct (with_prior_of a); reflexivity. }
  rewrite Htype in Hm.
  set (s0 := {| args := scale a (with_prior_of a); world := w; tokenizer := tk;
                mod_tokens := map angle (split plus_sign tok);
                init_tokens := split plus_sign trm; mod_tokens_id := ids |}) in *.
  destruct (training_loop s0 _) as [[st1|e] tr_loop] eqn:Hloop.
  2:{ destruct (low_mem a), (type a); cbn [bind emit ret app] in Hm;
        rewrite ?Hloop in Hm; discriminate. }
  exists tk0, emb0, tok, trm, dat, ids, emb, tr_ext, tr_loop.
  assert (Hfin : final_save (scale a (with_prior_of a))
                 = (Ok tt, [match type a with
                            | text => ev_save_embeds None
                            | custom => ev_save_delta None false
                            end])).
  { unfold final_save. rewrite Htype. destruct (type a); reflexivity. }
  rewrite Hfin in Hm.
  assert (Hres : s = s0 /\ st = st1 /\ tr = [ev_makedirs; ev_save_cfg] ++ load_trace a w ++ tr_ext
         ++ [ev_dataset (zip_with fmt_pair (map angle (split plus_sign tok))
                                           (split plus_sign trm));
             ev_optimizer (params_to_optimize a) (lr a)]
         ++ (if low_mem a then [ev_gradient_checkpointing] else [])
         ++ (match type a with text => [] | custom => [ev_from_pretrained unet0] end)
         ++ tr_loop
         ++ [match type a with
             | text => ev_save_embeds None
             | custom => ev_save_delta None false
             end]).
  { destruct (low_mem a), (type a); cbn [bind emit ret app] in Hm;
      rewrite ?Hloop in Hm; cbn [bind emit ret app] in Hm;
      injection Hm as <- <- <-; repeat split;
      rewrite ?app_nil_r, <- ?app_assoc; reflexivity. }
  destruct Hres as (-> & -> & ->).
  rewrite length_map in Hl1.
  repeat split; try assumption; try reflexivity.
Qed.
End MainThms.

Lemma Forall_bind {T A B : Type} (P : event T -> Prop) (m : M T A) (f : A -> M T B) :
  Forall P (snd m) -> (forall a, Forall P (snd (f a))) -> Forall P (snd (bind m f)).
Proof.
  intros Hm Hf. unfold bind. destruct m as [[a|e] t1]; [|exact Hm].
  specialize (Hf a). destruct (f a) as [r t2]. apply Forall_app. split; assumption.
Qed.

Section LoopEvents.
Context {T : Type} {ST : Scalar T}.
Variable s : Setup T.

Lemma samples_events (g : Z) (pairs : list (string * string)) :
  Forall (fun ev => loop_event (type (args s)) ev = true) (snd (samples s g pairs)).
Proof.
  induction pairs as [|[m i] pairs IH]; cbn [samples]; [constructor|].
  destruct (pipetest_raises (world s) g _); [constructor|].
  apply Forall_bind; [repeat constructor | intros _; exact IH].
Qed.

Lemma save_and_sample_events (g : Z) :
  Forall (fun ev => loop_event (type (args s)) ev = true) (snd (save_and_sample s g)).
Proof.
  unfold save_and_sample.
  destruct (save_step (args s) =? 0); [constructor|].
  destruct (g mod save_step (args s) =? 0); [|constructor].
  apply Forall_bind; [|intros _; apply samples_events].
  destruct (type (args s)); repeat constructor.
Qed.

Lemma train_step_events (st : Train T) :
  Forall (fun ev => loop_event (type (args s)) ev = true) (snd (train_step s st)).
Proof.
  unfold train_step. apply Forall_bind.
  - unfold lift. constructor.
  - intros [embeds opt]. apply Forall_bind; [repeat constructor|]. intros _.
    apply Forall_bind; [apply save_and_sample_events | intros _; constructor].
Qed.

Lemma batches_events (n : nat) (st : Train T) :
  Forall (fun ev => loop_event (type (args s)) ev = true) (snd (batches s n st)).
Proof.
  revert st. induction n as [|n IH]; intros st; cbn [batches]; [constructor|].
  apply Forall_bind; [apply train_step_events|]. intros st1.
  destruct (train_steps (args s) <=? global_step st1); [constructor | apply IH].
Qed.

Lemma epochs_events (n epoch : nat) (st : Train T) :
  Forall (fun ev => loop_event (type (args s)) ev = true) (snd (epochs s epoch n st)).
Proof.
  revert epoch st. induction n as [|n IH]; intros epoch st; cbn [epochs]; [constructor|].
  apply Forall_bind; [repeat constructor|]. intros _.
  apply Forall_bind; [apply batches_events | intros st1; apply IH].
Qed.

Lemma training_loop_events (st : Train T) :
  Forall (fun ev => loop_event (type (args s)) ev = true) (snd (training_loop s st)).
Proof.
  unfold training_loop.
  apply Forall_bind; [constructor | intros n; apply epochs_events].
Qed.

(** The learning rate inside the optimizer is never written by the loop. *)
Lemma train_step_ok_inv (st st' : Train T) (tr : list (event T)) :
  train_step s st = (Ok st', tr) ->
  opt_lr (optimizer st') = opt_lr (optimizer st) /\
  global_step st' = global_step st + 1.
Proof.
  unfold train_step. intros Hs.
  apply bind_inv_ok in Hs as ([embeds opt] & t1 & t2 & Hu & Hs & ->).
  apply bind_inv_ok in Hs as ([] & t3 & t4 & _ & Hs & ->).
  apply bind_inv_ok in Hs as ([] & t5 & t6 & _ & Hs & ->).
  injection Hs as <- <-. cbn [optimizer global_step]. split; [|reflexivity].
  unfold lift in Hu. injection Hu as Hu _.
  unfold update_embeddings in Hu.
  destruct (mask_grads _ _ _) as [g|e]; [|discriminate].
  injection Hu as _ <-. reflexivity.
Qed.

Lemma batches_ok_inv (n : nat) (st st' : Train T) (tr : list (event T)) :
  batches s n st = (Ok st', tr) ->
  opt_lr (optimizer st') = opt_lr (optimizer st).
Proof.
  revert st tr. induction n as [|n IH]; intros st tr Hb; cbn [batches] in Hb.
  - injection Hb as <- _. reflexivity.
  - apply bind_inv_ok in Hb as (st1 & t1 & t2 & Hs & Hb & ->).
    apply train_step_ok_inv in Hs as [Hlr _].
    destruct (train_steps (args s) <=? global_step st1).
    + injection Hb as <- _. exact Hlr.
    + apply IH in Hb. congruence.
Qed.

Lemma epochs_ok_inv (n epoch : nat) (st st' : Train T) (tr : list (event T)) :
  epochs s epoch n st = (Ok st', tr) ->
  opt_lr (optimizer st') = opt_lr (optimizer st).
Proof.
  revert epoch st tr. induction n as [|n IH]; intros epoch st tr He; cbn [epochs] in He.
  - injection He as <- _. reflexivity.
  - apply bind_inv_ok in He as ([] & t1 & t2 & _ & He & ->).
    apply bind_inv_ok in He as (st1 & t3 & t4 & Hb & He & ->).
    apply batches_ok_inv in Hb. apply IH in He. congruence.
Qed.

Lemma training_loop_ok_inv (st st' : Train T) (tr : list (event T)) :
  training_loop s st = (Ok st', tr) ->
  opt_lr (optimizer st') = opt_lr (optimizer st).
Proof.
  unfold training_loop. intros He.
  apply bind_inv_ok in He as (n & t1 & t2 & _ & He & ->).
  apply epochs_ok_inv in He. exact He.
Qed.
End LoopEvents.

Section MainThms2.
Context {T : Type} {ST : Scalar T}.

Lemma added_tokens_app (t1 t2 : list (event T)) :
  added_tokens (t1 ++ t2) = added_tokens t1 ++ added_tokens t2.
Proof. unfold added_tokens. apply omap_app. Qed.

Lemma save_delta_calls_app (t1 t2 : list (event T)) :
  save_delta_calls (t1 ++ t2) = save_delta_calls t1 ++ save_delta_calls t2.
Proof. unfold save_delta_calls. apply omap_app. Qed.

Lemma loop_events_added_tokens (ty : train_type) (tr : list (event T)) :
  Forall (fun ev => loop_event ty ev = true) tr -> added_tokens tr = [].
Proof.
  induction 1 as [|ev tr Hev _ IH]; [reflexivity|].
  destruct ev; try discriminate; exact IH.
Qed.

Lemma loop_events_save_delta (ty : train_type) (tr : list (event T)) :
  Forall (fun ev => loop_event ty ev = true) tr ->
  Forall (fun c => exists g : Z, c = (Some g, true)) (save_delta_calls tr).
Proof.
  induction 1 as [|ev tr Hev _ IH]; [constructor|].
  destruct ev as [| | | | | | | | | | | |g|g u|]; try discriminate; try exact IH.
  destruct g as [g|]; [|discriminate]. destruct u; [|discriminate].
  change (save_delta_calls (ev_save_delta (Some g) true :: tr))
    with ((Some g, true) :: save_delta_calls tr).
  constructor; [exists g; reflexivity | exact IH].
Qed.

Lemma load_trace_added_tokens (a : Args T) (w : World T) :
  added_tokens (load_trace a w) = [] /\ save_delta_calls (load_trace a w) = [].
Proof.
  unfold load_trace. destruct (type a); [split; reflexivity|].
  destruct (delta_ckpt a) as [p|]; [|split; reflexivity].
  destruct (isfile w p); split; reflexivity.
Qed.

Lemma prepare_tokens_events (w : World T) (pairs : list (string * string))
    (tokenizer : Tokenizer) (ids iids : list nat) :
  Forall (fun ev => is_add_tokens ev = true)
         (snd (prepare_tokens w tokenizer pairs ids iids)).
Proof.
  revert tokenizer ids iids.
  induction pairs as [|[m i] pairs IH]; intros tk ids iids; cbn [prepare_tokens].
  - constructor.
  - destruct (add_tokens tk m) as [tk1 n].
    apply Forall_bind; [repeat constructor|]. intros _.
    apply Forall_bind; [constructor | intros x; apply IH].
Qed.

Lemma add_tokens_events_save_delta (tr : list (event T)) :
  Forall (fun ev => is_add_tokens ev = true) tr -> save_delta_calls tr = [].
Proof.
  induction 1 as [|ev tr Hev _ IH]; [reflexivity|].
  destruct ev; try discriminate; exact IH.
Qed.

Lemma extend_vocabulary_ok_inv (w : World T) (tokenizer0 tokenizer : Tokenizer)
    (token_embeds0 token_embeds : tensor T) (mod_tokens init_tokens : list string)
    (ids : list nat) (tr : list (event T)) :
  extend_vocabulary w tokenizer0 token_embeds0 mod_tokens init_tokens
  = (Ok (tokenizer, ids, token_embeds), tr) ->
  exists iids tr1,
    prepare_tokens w tokenizer0 (zip mod_tokens init_tokens) [] []
    = (Ok (tokenizer, ids, iids), tr1) /\
    tr = tr1 ++ [ev_resize_token_embeddings (len tokenizer)] /\
    init_embeds (resize_token_embeddings w (len tokenizer) token_embeds0) (zip ids iids)
    = Ok token_embeds.
Proof.
  unfold extend_vocabulary. intros He.
  apply bind_inv_ok in He as ([[tk ids'] iids] & t1 & t2 & Hp & He & ->).
  apply bind_inv_ok in He as ([] & t3 & t4 & Hr & He & ->).
  injection Hr as <-.
  apply bind_inv_ok in He as (emb & t5 & t6 & Hi & He & ->).
  unfold lift in Hi. injection Hi as Hi <-.
  injection He as <- <- <- <-.
  exists iids, t1. rewrite app_nil_r. repeat split; assumption.
Qed.

(** C10.  In a run that returns, the strings that reach
    [tokenizer.add_tokens] are the parts of [--token] wrapped in angle
    brackets, and those are what the vocabulary gains. *)
Theorem modifier_tokens_are_wrapped (a : Args T) (w : World T) (s : Setup T)
    (st : Train T) (tr : list (event T)) :
  main a w = (Ok (s, st), tr) ->
  exists tok tokenizer0 token_embeds0,
    token a = Some tok /\
    load_models a w = (Ok (tokenizer0, token_embeds0), load_trace a w) /\
    mod_tokens s = map angle (split plus_sign tok) /\
    added_tokens tr = map angle (split plus_sign tok) /\
    dom (vocab (tokenizer s))
    = dom (vocab tokenizer0) ∪ list_to_set (map angle (split plus_sign tok)).
Proof.
  intros Hm.
  apply main_ok_inv in Hm
    as (tk0 & emb0 & tok & trm & dat & ids & emb & tr_ext & tr_loop
        & Hload & Htok & Htrm & Hdat & Hlen & Hext & Hargs & Hw & Hmt & Hit & Hids
        & Hloop & ->).
  apply extend_vocabulary_ok_inv in Hext as (iids & tr1 & Hp & -> & _).
  apply prepare_tokens_spec in Hp as (Hadd & Hdom & _ & _).
  assert (Hfst : map fst (zip (map angle (split plus_sign tok)) (split plus_sign trm))
                 = map angle (split plus_sign tok)).
  { apply fst_zip. rewrite length_map. lia. }
  rewrite Hfst in Hadd, Hdom.
  exists tok, tk0, emb0. repeat split; try assumption.
  pose proof (training_loop_events s {| global_step := 0; token_embeds := emb;
                optimizer := new_AdamW (lr a) emb |}) as Hev.
  rewrite Hloop in Hev. cbn [snd] in Hev.
  apply loop_events_added_tokens in Hev.
  rewrite !added_tokens_app, Hev, Hadd, (proj1 (load_trace_added_tokens a w)).
  destruct (low_mem a), (type a); cbn; rewrite ?app_nil_r; reflexivity.
Qed.

(** C3.  The optimizer is built at line 127 with the learning rate of the
    command line and keeps it for the whole run: the scaling of lines
    133-136 comes later and only changes [a.lr]. *)
Theorem optimizer_lr_is_unscaled (a : Args T) (w : World T) (s : Setup T)
    (st : Train T) (tr : list (event T)) :
  main a w = (Ok (s, st), tr) ->
  opt_lr (optimizer st) = lr a /\
  args s = scale a (with_prior_of a) /\
  ev_optimizer (params_to_optimize a) (lr a) ∈ tr.
Proof.
  intros Hm.
  apply main_ok_inv in Hm
    as (tk0 & emb0 & tok & trm & dat & ids & emb & tr_ext & tr_loop
        & Hload & Htok & Htrm & Hdat & Hlen & Hext & Hargs & Hw & Hmt & Hit & Hids
        & Hloop & ->).
  apply training_loop_ok_inv in Hloop. cbn [optimizer new_AdamW opt_lr] in Hloop.
  split; [exact Hloop|]. split; [exact Hargs|].
  rewrite !elem_of_app. right. right. right. left. right. left.
Qed.

(** C5.  In custom mode every periodic [save_delta] call (line 206) is given
    [unet0]; the final one (line 228) is not. *)
Theorem final_save_delta_without_unet0 (a : Args T) (w : World T) (s : Setup T)
    (st : Train T) (tr : list (event T)) :
  type a = custom ->
  main a w = (Ok (s, st), tr) ->
  exists periodic,
    save_delta_calls tr = periodic ++ [(None, false)] /\
    Forall (fun c => exists g : Z, c = (Some g, true)) periodic.
Proof.
  intros Hty Hm.
  apply main_ok_inv in Hm
    as (tk0 & emb0 & tok & trm & dat & ids & emb & tr_ext & tr_loop
        & Hload & Htok & Htrm & Hdat & Hlen & Hext & Hargs & Hw & Hmt & Hit & Hids
        & Hloop & ->).
  pose proof (training_loop_events s {| global_step := 0; token_embeds := emb;
                optimizer := new_AdamW (lr a) emb |}) as Hev.
  rewrite Hloop in Hev. cbn [snd] in Hev.
  apply loop_events_save_delta in Hev.
  apply extend_vocabulary_ok_inv in Hext as (iids & tr1 & Hp & -> & _).
  assert (Hext0 : save_delta_calls tr1 = []).
  { pose proof (prepare_tokens_events w
                  (zip (map angle (split plus_sign tok)) (split plus_sign trm))
                  tk0 [] []) as Hpe.
    rewrite Hp in Hpe. apply add_tokens_events_save_delta, Hpe. }
  exists (save_delta_calls tr_loop). split; [|exact Hev].
  rewrite Hty. rewrite !save_delta_calls_app, Hext0,
    (proj2 (load_trace_added_tokens a w)).
  destruct (low_mem a); reflexivity.
Qed.
End MainThms2.

Lemma add_tokens_keeps (tokenizer : Tokenizer) (token other : string) (id : nat) :
  vocab tokenizer !! other = Some id ->
  vocab (fst (add_tokens tokenizer token)) !! other = Some id.
Proof.
  intros Hin. unfold add_tokens.
  destruct (vocab tokenizer !! token) as [x|] eqn:E; cbn [fst vocab]; [exact Hin|].
  rewrite lookup_insert_ne; [exact Hin | congruence].
Qed.

Section Reuse.
Context {T : Type} {ST : Scalar T}.

Lemma init_embeds_length (pairs : list (nat * nat)) :
  forall token_embeds token_embeds' : tensor T,
    init_embeds token_embeds pairs = Ok token_embeds' ->
    length token_embeds' = length token_embeds.
Proof.
  induction pairs as [|[x y] pairs IH]; intros emb emb' Hi; cbn [init_embeds] in Hi.
  - injection Hi as <-. reflexivity.
  - destruct (emb !! y) as [row|]; [|discriminate].
    destruct (x <? length emb)%nat; [|discriminate].
    apply IH in Hi. rewrite Hi. apply length_insert.
Qed.

Lemma init_embeds_other (pairs : list (nat * nat)) :
  forall (token_embeds token_embeds' : tensor T) (j : nat),
    init_embeds token_embeds pairs = Ok token_embeds' ->
    j ∉ map fst pairs ->
    token_embeds' !! j = token_embeds !! j.
Proof.
  induction pairs as [|[x y] pairs IH]; intros emb emb' j Hi Hj; cbn [init_embeds] in Hi.
  - injection Hi as <-. reflexivity.
  - destruct (emb !! y) as [row|]; [|discriminate].
    destruct (x <? length emb)%nat; [|discriminate].
    cbn [map fst] in Hj. apply not_elem_of_cons in Hj as [Hne Hj].
    rewrite (IH _ _ j Hi Hj). apply list_lookup_insert_ne. congruence.
Qed.

Lemma prepare_tokens_raise_inv (w : World T) (pairs : list (string * string)) :
  forall (tokenizer : Tokenizer) (ids iids : list nat) (e : exn) (tr : list (event T)),
    prepare_tokens w tokenizer pairs ids iids = (Raise e, tr) -> e = IndexError.
Proof.
  induction pairs as [|[m i] pairs IH]; intros tk ids iids e tr Hp;
    cbn [prepare_tokens] in Hp; [discriminate|].
  destruct (add_tokens tk m) as [tk1 n].
  apply bind_inv in Hp as [(e' & He & _)|([] & t1 & t2 & _ & Hp & _)]; [discriminate|].
  apply bind_inv in Hp as [(e' & He & [= ->])|(x & t3 & t4 & _ & Hp & _)].
  - unfold lift in He. destruct (encode w tk1 i); [|discriminate]. congruence.
  - eapply IH. exact Hp.
Qed.

Lemma init_embeds_raise_inv (pairs : list (nat * nat)) :
  forall (token_embeds : tensor T) (e : exn),
    init_embeds token_embeds pairs = Raise e -> e = IndexError.
Proof.
  induction pairs as [|[x y] pairs IH]; intros emb e Hi; cbn [init_embeds] in Hi;
    [discriminate|].
  destruct (emb !! y) as [row|]; [|congruence].
  destruct (x <? length emb)%nat; [|congruence].
  eapply IH. exact Hi.
Qed.

Lemma prepare_tokens_prefix (w : World T) (pairs : list (string * string)) :
  forall (tokenizer tokenizer' : Tokenizer) (ids iids ids' iids' : list nat)
         (tr : list (event T)),
    prepare_tokens w tokenizer pairs ids iids = (Ok (tokenizer', ids', iids'), tr) ->
    (exists more, ids' = ids ++ more) /\
    (forall t id, vocab tokenizer !! t = Some id -> vocab tokenizer' !! t = Some id).
Proof.
  induction pairs as [|[m i] pairs IH]; intros tk tk' ids iids ids' iids' tr Hp;
    cbn [prepare_tokens] in Hp.
  - injection Hp as <- <- _ _. split; [exists []; symmetry; apply app_nil_r | auto].
  - pose proof (add_tokens_keeps tk m) as Hkeep.
    destruct (add_tokens tk m) as [tk1 n]. cbn [fst] in Hkeep.
    apply bind_inv_ok in Hp as ([] & t1 & t2 & _ & Hp & ->).
    apply bind_inv_ok in Hp as (x & t3 & t4 & _ & Hp & ->).
    apply IH in Hp as [(more & ->) Hk]. split.
    + eexists. rewrite <- app_assoc. reflexivity.
    + intros t id Hin. apply Hk, Hkeep, Hin.
Qed.

(** The pair of a token that is already in the vocabulary: nothing is
    added, and its existing id goes into [mod_tokens_id]. *)
Lemma prepare_tokens_existing (w : World T) (pairs : list (string * string)) :
  forall (i : nat) (tokenizer tokenizer' : Tokenizer) (ids iids ids' iids' : list nat)
         (tr : list (event T)) (mod_token init_token : string) (mod_id : nat),
    prepare_tokens w tokenizer pairs ids iids = (Ok (tokenizer', ids', iids'), tr) ->
    pairs !! i = Some (mod_token, init_token) ->
    vocab tokenizer !! mod_token = Some mod_id ->
    ids' !! (length ids + i)%nat = Some mod_id /\
    tr !! i = Some (ev_add_tokens mod_token 0) /\
    vocab tokenizer' !! mod_token = Some mod_id.
Proof.
  induction pairs as [|[m it] pairs IH];
    intros i tk tk' ids iids ids' iids' tr mod_token init_token mod_id Hp Hi Hin;
    [discriminate|].
  cbn [prepare_tokens] in Hp. destruct i as [|i].
  - injection Hi as -> ->.
    rewrite (add_tokens_existing _ _ _ Hin) in Hp.
    apply bind_inv_ok in Hp as ([] & t1 & t2 & He & Hp & ->).
    injection He as <-.
    apply bind_inv_ok in Hp as (x & t3 & t4 & Hl & Hp & ->).
    unfold lift in Hl. injection Hl as _ <-.
    apply prepare_tokens_prefix in Hp as [(more & ->) Hk].
    split; [|split; [reflexivity | apply Hk, Hin]].
    rewrite Nat.add_0_r, <- app_assoc, lookup_app_r by lia.
    rewrite Nat.sub_diag. cbn.
    unfold convert_tokens_to_ids. rewrite Hin. reflexivity.
  - cbn in Hi.
    pose proof (add_tokens_keeps tk m mod_token mod_id Hin) as Hin1.
    destruct (add_tokens tk m) as [tk1 n]. cbn [fst] in Hin1.
    apply bind_inv_ok in Hp as ([] & t1 & t2 & He & Hp & ->).
    injection He as <-.
    apply bind_inv_ok in Hp as (x & t3 & t4 & Hl & Hp & ->).
    unfold lift in Hl. injection Hl as _ <-.
    destruct (IH i _ _ _ _ _ _ _ _ _ _ Hp Hi Hin1) as (H1 & H2 & H3).
    split; [|split; [exact H2 | exact H3]].
    rewrite length_app in H1. cbn [length] in H1.
    replace (length ids + S i)%nat with (length ids + 1 + i)%nat by lia. exact H1.
Qed.

(** Lines 98-99, last write wins: the row of [x] ends as the row that [y]
    had, when no other pair writes row [x] and no earlier pair wrote
    row [y]. *)
Lemma init_embeds_written (pairs : list (nat * nat)) :
  forall (i : nat) (token_embeds token_embeds' : tensor T) (x y : nat),
    init_embeds token_embeds pairs = Ok token_embeds' ->
    pairs !! i = Some (x, y) ->
    (forall j p, j <> i -> pairs !! j = Some p -> fst p <> x) ->
    (forall j p, (j < i)%nat -> pairs !! j = Some p -> fst p <> y) ->
    token_embeds' !! x = token_embeds !! y.
Proof.
  induction pairs as [|[x0 y0] pairs IH]; intros i emb emb' x y Hi Hp Hx Hy;
    [discriminate|].
  cbn [init_embeds] in Hi.
  destruct (emb !! y0) as [row|] eqn:Ey; [|discriminate].
  destruct (Nat.ltb_spec x0 (length emb)) as [Hlt|]; [|discriminate].
  destruct i as [|i].
  - injection Hp as -> ->.
    assert (Hnot : x ∉ map fst pairs).
    { intros Hel. apply list_elem_of_fmap in Hel as (p & Hpx & Hel).
      apply list_elem_of_lookup in Hel as (j & Hj).
      apply (Hx (S j) p); [lia | exact Hj | congruence]. }
    rewrite (init_embeds_other _ _ _ x Hi Hnot).
    rewrite list_lookup_insert_eq by assumption. symmetry. exact Ey.
  - cbn in Hp.
    assert (Hx0 : x0 <> x) by (apply (Hx 0%nat (x0, y0)); [lia | reflexivity]).
    assert (Hy0 : x0 <> y) by (apply (Hy 0%nat (x0, y0)); [lia | reflexivity]).
    rewrite (IH i _ _ x y Hi Hp).
    + apply list_lookup_insert_ne. exact Hy0.
    + intros j p Hj Hjp. apply (Hx (S j) p); [lia | exact Hjp].
    + intros j p Hj Hjp. apply (Hy (S j) p); [lia | exact Hjp].
Qed.

(** C8, as amended.  A modifier token that is already in the vocabulary is
    no error: the extension step (lines 88-99) can only raise [IndexError],
    as for any other token; when it returns, [add_tokens] has added
    nothing for this token, the existing id stands at the token's position
    in [mod_tokens_id] and, if no other pair writes this row and no earlier
    pair wrote the anchor's row, the pretrained row of the existing id has
    been overwritten with the anchor's row. *)
Theorem existing_token_is_reused (w : World T) (tokenizer0 : Tokenizer)
    (embeds0 : tensor T) (mod_tokens init_tokens : list string) (i : nat)
    (mod_token : string) (mod_id : nat) :
  mod_tokens !! i = Some mod_token ->
  (i < length init_tokens)%nat ->
  vocab tokenizer0 !! mod_token = Some mod_id ->
  (forall e tr,
     extend_vocabulary w tokenizer0 embeds0 mod_tokens init_tokens = (Raise e, tr) ->
     e = IndexError) /\
  (forall tokenizer ids embeds tr,
     extend_vocabulary w tokenizer0 embeds0 mod_tokens init_tokens
     = (Ok (tokenizer, ids, embeds), tr) ->
     ids !! i = Some mod_id /\
     tr !! i = Some (ev_add_tokens mod_token 0) /\
     vocab tokenizer !! mod_token = Some mod_id /\
     exists iids tr1,
       prepare_tokens w tokenizer0 (zip mod_tokens init_tokens) [] []
       = (Ok (tokenizer, ids, iids), tr1) /\
       forall init_id,
         iids !! i = Some init_id ->
         (forall j, j <> i -> ids !! j <> Some mod_id) ->
         (forall j, (j < i)%nat -> ids !! j <> Some init_id) ->
         embeds !! mod_id
         = resize_token_embeddings w (len tokenizer) embeds0 !! init_id).
Proof.
  intros Hi Hlen Hin. split.
  - intros e tr He. unfold extend_vocabulary in He.
    apply bind_inv in He as [(e' & Hp & [= ->])|([[tk ids] iids] & t1 & t2 & _ & He & _)].
    + eapply prepare_tokens_raise_inv. exact Hp.
    + apply bind_inv in He as [(e' & Hr & _)|([] & t3 & t4 & _ & He & _)]; [discriminate|].
      apply bind_inv in He as [(e' & Hr & [= ->])|(emb & t5 & t6 & _ & He & _)]; [|discriminate].
      unfold lift in Hr. injection Hr as Hr _.
      eapply init_embeds_raise_inv. exact Hr.
  - intros tokenizer ids embeds tr He.
    apply extend_vocabulary_ok_inv in He as (iids & tr1 & Hp & -> & Hie).
    destruct (lookup_lt_is_Some_2 init_tokens i Hlen) as [init_token Hit].
    assert (Hpair : zip mod_tokens init_tokens !! i = Some (mod_token, init_token)).
    { apply lookup_zip_with_Some. eauto. }
    destruct (prepare_tokens_existing w _ i _ _ _ _ _ _ _ _ _ _ Hp Hpair Hin)
      as (Hid & Htr & Hv).
    cbn [length Nat.add] in Hid.
    split; [exact Hid|]. split; [|split; [exact Hv|]].
    + rewrite lookup_app_l; [exact Htr|]. apply lookup_lt_Some in Htr. exact Htr.
    + exists iids, tr1. split; [exact Hp|]. intros init_id Hii Hx Hy.
      apply (init_embeds_written (zip ids iids) i _ _ mod_id init_id Hie).
      * apply lookup_zip_with_Some. eauto.
      * intros j [x y] Hj Hjp. apply lookup_zip_with_Some in Hjp as (x' & y' & [= -> ->] & Hjx & _).
        cbn [fst]. intros ->. exact (Hx j Hj Hjx).
      * intros j [x y] Hj Hjp. apply lookup_zip_with_Some in Hjp as (x' & y' & [= -> ->] & Hjx & _).
        cbn [fst]. intros ->. exact (Hy j Hj Hjx).
Qed.
End Reuse.

Section Abort.
Context {T : Type} {ST : Scalar T}.
Variable s : Setup T.

Lemma samples_raise (g : Z) (pairs : list (string * string)) (m i : string) :
  (m, i) ∈ pairs ->
  pipetest_raises (world s) g (String.append "photo of " (fmt_pair m i)) = true ->
  exists tr, samples s g pairs = (Raise (ExternalError "pipetest"), tr) /\
             count is_optimizer_step tr = 0%nat.
Proof.
  intros Hin Hr. induction pairs as [|[m' i'] pairs IH]; [inversion Hin|].
  cbn [samples].
  destruct (pipetest_raises (world s) g (String.append "photo of " (fmt_pair m' i'))) eqn:E.
  - exists []. split; reflexivity.
  - apply elem_of_cons in Hin as [[= <- <-]|Hin]; [congruence|].
    destruct (IH Hin) as (tr & Hs & Hc).
    eexists. split.
    + eapply bind_ok; [reflexivity | exact Hs].
    + rewrite count_app, Hc. reflexivity.
Qed.

End Abort.

(** C1.  One training step of the small run in binary32: the row of the
    pretrained token 0, which is not a modifier token, is no longer the
    row that was loaded (1.0 became 1 - 2^-23 through the weight decay of
    AdamW, although its gradient was zeroed). *)
Theorem pretrained_rows_drift :
  exists s st tr,
    @main _ binary32 (with_train_steps tiny_args 1) tiny_world = (Ok (s, st), tr) /\
    mod_tokens_id s = [3; 4]%nat /\
    count is_optimizer_step tr = 1%nat /\
    pretrained_embeds tiny_world !! 0%nat = Some [S754_finite false 8388608 (-23)] /\
    token_embeds st !! 0%nat = Some [S754_finite false 16777214 (-24)].
Proof.
  destruct (@main _ binary32 (with_train_steps tiny_args 1) tiny_world)
    as [[[s st]|e] tr] eqn:E; vm_compute in E; [|discriminate].
  injection E as <- <- <-. do 3 eexists. repeat split.
Qed.

(** C2 at [mod_tokens_id = [3; 4]]: row 4 is zeroed. *)
Lemma last_token_gradient_is_zeroed_witness :
  exists g,
    @mask_grads _ binary32 5 ([3] ++ [4])%nat
      [[f32 1]; [f32 1]; [f32 1]; [f32 1]; [f32 1]] = Ok g /\
    g !! 4%nat = Some (map (fun _ => @sc_zero _ binary32) [f32 1]).
Proof.
  apply (@last_token_gradient_is_zeroed _ binary32 5 [3%nat] 4
           [[f32 1]; [f32 1]; [f32 1]; [f32 1]; [f32 1]] [f32 1]).
  - discriminate.
  - intros Hin. apply list_elem_of_singleton in Hin. discriminate.
  - reflexivity.
  - reflexivity.
Defined.

(** C3 at batch size 2: the optimizer has 1e-5, [a.lr] ends as 2e-5. *)
Lemma optimizer_lr_is_unscaled_witness :
  exists s st tr,
    @main _ binary32 tiny_args tiny_world = (Ok (s, st), tr) /\
    opt_lr (optimizer st) = S754_finite false 10995116 (-40) /\
    lr (args s) = S754_finite false 10995116 (-39).
Proof.
  destruct (@main _ binary32 tiny_args tiny_world) as [[[s st]|e] tr] eqn:E.
  - exists s, st, tr. split; [reflexivity|].
    destruct (@optimizer_lr_is_unscaled _ binary32 _ _ _ _ _ E) as (Hlr & Hargs & _).
    split; [rewrite Hlr; vm_compute; reflexivity|].
    rewrite Hargs. vm_compute. reflexivity.
  - vm_compute in E. discriminate.
Defined.

(** C4 as stated fails: three tokens and two terms end in the assertion
    only after five [from_pretrained] calls. *)
Lemma mismatch_fails_after_loading_cex :
  token (with_token tiny_args (Some "a+b+c"%string)) = Some "a+b+c"%string /\
  term tiny_args = Some "cat+dog"%string /\
  fst (@main _ binary32 (with_token tiny_args (Some "a+b+c"%string)) tiny_world)
  = Raise (AssertionError equal_num) /\
  count is_from_pretrained
    (snd (@main _ binary32 (with_token tiny_args (Some "a+b+c"%string)) tiny_world))
  = 5%nat.
Proof. repeat split. Qed.

(** C4 as amended, at three tokens and two terms. *)
Lemma length_mismatch_fails_after_loading_witness :
  @main _ binary32 (with_token tiny_args (Some "a+b+c"%string)) tiny_world
  = (Raise (AssertionError equal_num),
     [ev_makedirs; ev_save_cfg; ev_from_pretrained text_encoder;
      ev_from_pretrained tokenizer_files; ev_from_pretrained unet;
      ev_from_pretrained vae; ev_from_pretrained scheduler]).
Proof.
  apply (@length_mismatch_fails_after_loading _ binary32
           (with_token tiny_args (Some "a+b+c"%string)) tiny_world
           "a+b+c" "cat+dog" "d1+d2"); try reflexivity.
  left. vm_compute. lia.
Defined.

(** C5 in the small run: one periodic call with [unet0], the final one
    without. *)
Lemma final_save_delta_without_unet0_witness :
  save_delta_calls (snd (@main _ binary32 tiny_args tiny_world))
  = [(Some 5, true); (None, false)] /\
  exists periodic,
    save_delta_calls (snd (@main _ binary32 tiny_args tiny_world))
    = periodic ++ [(None, false)] /\
    Forall (fun c => exists g : Z, c = (Some g, true)) periodic.
Proof.
  split; [vm_compute; reflexivity|].
  destruct (@main _ binary32 tiny_args tiny_world) as [[[s st]|e] tr] eqn:E.
  - exact (@final_save_delta_without_unet0 _ binary32 tiny_args tiny_world s st tr eq_refl E).
  - vm_compute in E. discriminate.
Defined.

(** C6 as stated fails: when the pipeline raises at step 5, [main] ends
    with that exception after 5 of the 7 steps. *)
Lemma sample_failure_aborts_cex :
  train_steps tiny_args = 7 /\
  fst (@main _ binary32 tiny_args failing_world) = Raise (ExternalError "pipetest") /\
  count is_optimizer_step (snd (@main _ binary32 tiny_args failing_world)) = 5%nat.
Proof. repeat split. Qed.

(** C8 as stated fails: with ["<a>"] already in the vocabulary [main]
    returns normally. *)
Lemma existing_token_cex :
  vocab (pretrained_tokenizer colliding_world) !! "<a>"%string = Some 3%nat /\
  exists r, fst (@main _ binary32 tiny_args colliding_world) = Ok r.
Proof.
  split; [vm_compute; reflexivity|].
  destruct (@main _ binary32 tiny_args colliding_world) as [[r|e] tr] eqn:E.
  - exists r. reflexivity.
  - vm_compute in E. discriminate.
Qed.

(** C8 as amended, at the colliding vocabulary: the row of ["<a>"] becomes
    the row of ["cat"]. *)
Lemma existing_token_is_reused_witness :
  exists tokenizer ids embeds tr,
    @extend_vocabulary spec_float colliding_world (pretrained_tokenizer colliding_world)
      (pretrained_embeds colliding_world) ["<a>"; "<b>"]%string ["cat"; "dog"]%string
    = (Ok (tokenizer, ids, embeds), tr) /\
    ids !! 0%nat = Some 3%nat /\
    tr !! 0%nat = Some (ev_add_tokens "<a>" 0) /\
    pretrained_embeds colliding_world !! 3%nat = Some [f32 4] /\
    embeds !! 3%nat = Some [f32 1].
Proof.
  destruct (@extend_vocabulary spec_float colliding_world (pretrained_tokenizer colliding_world)
      (pretrained_embeds colliding_world) ["<a>"; "<b>"]%string ["cat"; "dog"]%string)
    as [[[[tk ids] emb]|e] tr] eqn:E.
  - exists tk, ids, emb, tr. split; [reflexivity|].
    destruct (@existing_token_is_reused spec_float colliding_world
                (pretrained_tokenizer colliding_world) (pretrained_embeds colliding_world)
                ["<a>"; "<b>"]%string ["cat"; "dog"]%string 0 "<a>" 3
                eq_refl ltac:(simpl; lia) ltac:(vm_compute; reflexivity)) as [_ Hok].
    destruct (Hok tk ids emb tr E) as (Hid & Htr & _ & iids & tr1 & Hp & Hrow).
    split; [exact Hid|]. split; [exact Htr|]. split; [reflexivity|].
    vm_compute in Hp. injection Hp as Htk Hids Hiids _.
    rewrite (Hrow 0%nat).
    + rewrite <- Htk. reflexivity.
    + rewrite <- Hiids. reflexivity.
    + intros j Hj. rewrite <- Hids. destruct j as [|[|j]]; [lia | discriminate | discriminate].
    + intros j Hj. lia.
  - vm_compute in E. discriminate.
Defined.

(** C9 at one instance row and one prior row. *)
Lemma loss_prior_preservation_witness :
  @loss _ binary32 true ([[f32 1]] ++ [[f32 3]]) ([[f32 0]] ++ [[f32 1]])
  = Ok (@sc_add _ binary32 (@mse_loss _ binary32 [[f32 1]] [[f32 0]])
                           (@mse_loss _ binary32 [[f32 3]] [[f32 1]])).
Proof.
  apply (proj2 (@loss_prior_preservation _ binary32)); simpl; lia.
Defined.

(** C10 in the small run. *)
Lemma modifier_tokens_are_wrapped_witness :
  exists s st tr,
    @main _ binary32 tiny_args tiny_world = (Ok (s, st), tr) /\
    added_tokens tr = ["<a>"; "<b>"]%string.
Proof.
  destruct (@main _ binary32 tiny_args tiny_world) as [[[s st]|e] tr] eqn:E.
  - exists s, st, tr. split; [reflexivity|].
    destruct (@modifier_tokens_are_wrapped _ binary32 _ _ _ _ _ E)
      as (tok & tk0 & emb0 & Htok & _ & _ & Hadd & _).
    injection Htok as <-. exact Hadd.
  - vm_compute in E. discriminate.
Defined.

(** C7 as stated fails: with [--save_step 0] the loop ends with
    [ZeroDivisionError] after 1 of the 7 steps, at 3 batches per epoch. *)
Lemma save_step_zero_stops_training_cex :
  epoch_steps tiny_world = 3%nat /\
  train_steps (with_save_step tiny_args 0) = 7 /\
  fst (@main _ binary32 (with_save_step tiny_args 0) tiny_world) = Raise ZeroDivisionError /\
  count is_optimizer_step (snd (@main _ binary32 (with_save_step tiny_args 0) tiny_world))
  = 1%nat.
Proof. repeat split. Qed.

(** C7 as amended, at 3 batches per epoch and 7 steps: 7 steps, 3 epochs. *)
Lemma training_loop_steps_witness :
  exists st' tr,
    @training_loop _ binary32 tiny_setup tiny_train = (Ok st', tr) /\
    global_step st' = 7 /\
    Z.of_nat (count is_optimizer_step tr) = 7 /\
    Z.of_nat (count is_train tr) = 3.
Proof.
  apply (@training_loop_steps _ binary32 tiny_setup).
  - discriminate.
  - discriminate.
  - intros g p. reflexivity.
  - simpl. lia.
  - reflexivity.
  - split; [discriminate | reflexivity].
  - reflexivity.
  - repeat split; vm_compute; reflexivity.
Defined.

(** * Further properties *)

Lemma split_cons (sep : ascii) (s : string) :
  exists h t, split sep s = h :: t.
Proof.
  induction s as [|c s (h & t & IH)]; simpl; [eauto|].
  destruct (Ascii.eqb c sep); [eauto|]. rewrite IH. eauto.
Qed.

(** X1.  Joining the parts with the separator gives the string back. *)
Theorem join_split (sep : ascii) (s : string) : join sep (split sep s) = s.
Proof.
  induction s as [|c s IH]; [reflexivity|]. cbn [split].
  destruct (split_cons sep s) as (h & t & E). rewrite E in *.
  destruct (Ascii.eqb_spec c sep) as [->|Hne].
  - cbn [join]. rewrite <- IH. reflexivity.
  - destruct t as [|h' t]; cbn [join] in *; rewrite <- IH; reflexivity.
Qed.

(** X2.  One part more than separators, so never an empty list, and no part
    contains the separator. *)
Theorem split_parts (sep : ascii) (s : string) :
  length (split sep s) = S (occurrences sep s) /\
  Forall (fun p => occurrences sep p = 0%nat) (split sep s).
Proof.
  induction s as [|c s [IHl IHf]]; [split; [reflexivity | repeat constructor]|].
  cbn [split occurrences].
  destruct (split_cons sep s) as (h & t & E). rewrite E in *.
  destruct (Ascii.eqb_spec c sep) as [->|Hne].
  - split; [simpl in *; lia|]. constructor; [reflexivity | assumption].
  - split; [simpl in *; lia|]. inversion IHf as [|? ? Hh Ht]; subst.
    constructor; [|assumption]. cbn [occurrences].
    destruct (Ascii.eqb_spec c sep); [contradiction|]. exact Hh.
Qed.

Lemma substring_0_length (s : string) : String.substring 0 (String.length s) s = s.
Proof. induction s as [|c s IH]; [reflexivity|]. simpl. rewrite IH. reflexivity. Qed.

Lemma substring_0_append (s t : string) :
  String.substring 0 (String.length s) (String.append s t) = s.
Proof. induction s as [|c s IH]; simpl; [destruct t; reflexivity|]. rewrite IH. reflexivity. Qed.

Lemma length_append (s t : string) :
  String.length (String.append s t) = (String.length s + String.length t)%nat.
Proof. induction s as [|c s IH]; simpl; [reflexivity|]. rewrite IH. reflexivity. Qed.

(** X3.  The name of a sample image (line 216) is the token as it was given
    on the command line. *)
Theorem strip_ends_angle (t : string) : strip_ends (angle t) = t.
Proof.
  change (angle t) with (String "<" (String.append t ">")).
  unfold strip_ends. rewrite length_append. cbn [String.length].
  replace (Nat.pred (String.length t + 1)) with (String.length t) by lia.
  apply substring_0_append.
Qed.

(** X7.  A token that is not in the vocabulary gets the id [len(tokenizer)];
    the vocabulary grows by one, the other tokens keep their ids, and
    [convert_tokens_to_ids] finds the new id. *)
Theorem add_tokens_fresh (tokenizer : Tokenizer) (token other : string) :
  vocab tokenizer !! token = None ->
  other <> token ->
  snd (add_tokens tokenizer token) = 1%nat /\
  len (fst (add_tokens tokenizer token)) = S (len tokenizer) /\
  convert_tokens_to_ids (fst (add_tokens tokenizer token)) token = len tokenizer /\
  convert_tokens_to_ids (fst (add_tokens tokenizer token)) other
  = convert_tokens_to_ids tokenizer other.
Proof.
  intros Hnone Hother. unfold add_tokens. rewrite Hnone. cbn [fst snd].
  unfold len, convert_tokens_to_ids. cbn [vocab unk_token_id].
  split; [reflexivity|]. split; [apply map_size_insert_None; assumption|].
  split.
  - rewrite lookup_insert_eq. reflexivity.
  - rewrite lookup_insert_ne by congruence. reflexivity.
Qed.

(** X8.  Adding the same token again changes nothing and reports 0 added
    tokens. *)
Theorem add_tokens_twice (tokenizer : Tokenizer) (token : string) :
  add_tokens (fst (add_tokens tokenizer token)) token
  = (fst (add_tokens tokenizer token), 0%nat).
Proof.
  unfold add_tokens at 2 3.
  destruct (vocab tokenizer !! token) as [id|] eqn:E; cbn [fst].
  - unfold add_tokens. rewrite E. reflexivity.
  - unfold add_tokens. cbn [vocab]. rewrite lookup_insert_eq. reflexivity.
Qed.

Section Extend.
Context {T : Type} {ST : Scalar T}.

(** X9.  An anchor term that encodes to no id (line 93 takes element 0) stops
    the preparation with [IndexError], after its modifier token has
    already been added. *)
Theorem empty_anchor_raises (w : World T) (tokenizer : Tokenizer)
    (mod_token init_token : string) (pairs : list (string * string))
    (ids iids : list nat) :
  encode w (fst (add_tokens tokenizer mod_token)) init_token = [] ->
  prepare_tokens w tokenizer ((mod_token, init_token) :: pairs) ids iids
  = (Raise IndexError,
     [ev_add_tokens mod_token (snd (add_tokens tokenizer mod_token))]).
Proof.
  intros Henc. cbn [prepare_tokens].
  destruct (add_tokens tokenizer mod_token) as [tk n]. cbn [fst snd] in *.
  rewrite Henc. reflexivity.
Qed.

Lemma resize_token_embeddings_rows_aux (w : World T) (n : nat) (weight : tensor T) :
  length (resize_token_embeddings w n weight) = n /\
  (forall j, (j < n)%nat -> (j < length weight)%nat ->
             resize_token_embeddings w n weight !! j = weight !! j) /\
  (forall j, (j < n)%nat -> (length weight <= j)%nat ->
             resize_token_embeddings w n weight !! j = Some (fresh_row w j)).
Proof.
  unfold resize_token_embeddings. split; [|split].
  - rewrite length_app, length_take, length_map, length_seq. lia.
  - intros j Hn Hw. rewrite lookup_app_l by (rewrite length_take; lia).
    apply lookup_take_lt. lia.
  - intros j Hn Hw. rewrite lookup_app_r by (rewrite length_take; lia).
    rewrite length_take, list_lookup_fmap.
    replace (length weight `min` n)%nat with (length weight) by lia.
    rewrite lookup_seq_lt by lia.
    cbn. f_equal. f_equal. lia.
Qed.

(** X10.  [resize_token_embeddings(n)] gives a table of [n] rows whose rows
    below the old size are the old rows and whose other rows are new. *)
Theorem resize_token_embeddings_rows (w : World T) (n : nat) (weight : tensor T) :
  length (resize_token_embeddings w n weight) = n /\
  (forall j, (j < n)%nat -> (j < length weight)%nat ->
             resize_token_embeddings w n weight !! j = weight !! j) /\
  (forall j, (j < n)%nat -> (length weight <= j)%nat ->
             resize_token_embeddings w n weight !! j = Some (fresh_row w j)).
Proof. apply resize_token_embeddings_rows_aux. Qed.

(** X11.  When the new ids are distinct and none of them is an anchor id
    (they are fresh ids), the loop of lines 98-99 leaves every new row
    equal to the row of its anchor, keeps every other row and keeps the
    size of the table. *)
Theorem init_embeds_copies (pairs : list (nat * nat)) (token_embeds token_embeds' : tensor T) :
  init_embeds token_embeds pairs = Ok token_embeds' ->
  NoDup (map fst pairs) ->
  (forall x y, x ∈ map fst pairs -> y ∈ map snd pairs -> x <> y) ->
  length token_embeds' = length token_embeds /\
  (forall x y, (x, y) ∈ pairs -> token_embeds' !! x = token_embeds !! y
                                 /\ token_embeds' !! y = token_embeds !! y) /\
  (forall j, j ∉ map fst pairs -> token_embeds' !! j = token_embeds !! j).
Proof.
  intros Hi Hnd Hdis. split; [eapply init_embeds_length; eassumption|].
  split; [|intros j Hj; eapply init_embeds_other; eassumption].
  revert token_embeds Hi Hnd Hdis.
  induction pairs as [|[x0 y0] pairs IH]; intros emb Hi Hnd Hdis x y Hin;
    [inversion Hin|].
  cbn [init_embeds] in Hi.
  destruct (emb !! y0) as [row|] eqn:Ey; [|discriminate].
  destruct (Nat.ltb_spec x0 (length emb)) as [Hx|]; [|discriminate].
  cbn [map fst] in Hnd. apply NoDup_cons in Hnd as [Hx0 Hnd].
  apply elem_of_cons in Hin as [[= -> ->]|Hin].
  - split.
    + rewrite (init_embeds_other _ _ _ x0 Hi Hx0).
      rewrite list_lookup_insert_eq by assumption. symmetry. exact Ey.
    + assert (Hy0 : y0 ∉ map fst pairs).
      { intros Hy. apply (Hdis y0 y0); [right; exact Hy | left | reflexivity]. }
      rewrite (init_embeds_other _ _ _ y0 Hi Hy0).
      apply list_lookup_insert_ne. apply (Hdis x0 y0); left.
  - assert (Hyx : x0 <> y).
    { apply Hdis; [left|]. right. apply (list_elem_of_fmap_2 snd) in Hin. exact Hin. }
    destruct (IH _ Hi Hnd) with (x := x) (y := y) as [H1 H2]; [|assumption|].
    { intros x' y' Hx' Hy'. apply Hdis; right; assumption. }
    rewrite H1, H2. split; apply list_lookup_insert_ne; assumption.
Qed.
End Extend.

(** How many multiples of [s] lie in [(g, g + 1]]. *)
Lemma div_succ (g s : Z) :
  0 < s -> (g + 1) / s - g / s = if (g + 1) mod s =? 0 then 1 else 0.
Proof.
  intros Hs.
  pose proof (Z.div_mod (g + 1) s ltac:(lia)) as E.
  pose proof (Z.mod_pos_bound (g + 1) s Hs) as B.
  destruct (Z.eqb_spec ((g + 1) mod s) 0) as [E0|Hne].
  - rewrite <- (Z.div_unique g s ((g + 1) / s - 1) (s - 1)); lia.
  - rewrite <- (Z.div_unique g s ((g + 1) / s) ((g + 1) mod s - 1)); lia.
Qed.

Lemma count_cons {T : Type} (p : event T -> bool) (ev : event T) (tr : list (event T)) :
  count p (ev :: tr) = ((if p ev then 1 else 0) + count p tr)%nat.
Proof. unfold count. cbn [List.filter]. destruct (p ev); reflexivity. Qed.

Section Trace.
Context {T : Type} {ST : Scalar T}.
Variable s : Setup T.
Hypothesis Hsave : 0 < save_step (args s).
Hypothesis Hids : mod_tokens_id s <> [].
Hypothesis Hpipe : forall g p, pipetest_raises (world s) g p = false.

Lemma samples_trace (g : Z) (pairs : list (string * string)) :
  exists tr, samples s g pairs = (Ok tt, tr) /\
    count is_optimizer_step tr = 0%nat /\ count is_train tr = 0%nat /\
    count is_periodic_save tr = 0%nat /\ count is_sample tr = length pairs.
Proof.
  induction pairs as [|[m i] pairs (tr & IH & H1 & H2 & H3 & H4)]; cbn [samples].
  - exists []. repeat split.
  - rewrite Hpipe. eexists. split; [eapply bind_ok; [reflexivity | exact IH]|].
    rewrite !count_app, H1, H2, H3, H4. repeat split.
Qed.

Lemma save_and_sample_trace (g : Z) :
  exists tr, save_and_sample s (g + 1) = (Ok tt, tr) /\
    count is_optimizer_step tr = 0%nat /\ count is_train tr = 0%nat /\
    Z.of_nat (count is_periodic_save tr)
      = (g + 1) / save_step (args s) - g / save_step (args s) /\
    Z.of_nat (count is_sample tr)
      = ((g + 1) / save_step (args s) - g / save_step (args s))
        * Z.of_nat (length (zip (mod_tokens s) (init_tokens s))).
Proof.
  unfold save_and_sample. rewrite (div_succ g _ Hsave).
  destruct (Z.eqb_spec (save_step (args s)) 0) as [E|_]; [lia|].
  destruct ((g + 1) mod save_step (args s) =? 0).
  - destruct (samples_trace (g + 1) (zip (mod_tokens s) (init_tokens s)))
      as (tr & Hs & H1 & H2 & H3 & H4).
    destruct (type (args s)); (eexists; split;
      [ eapply bind_ok; [reflexivity | exact Hs]
      | rewrite !count_app, H1, H2, H3, H4; unfold count; simpl; repeat split; lia ]).
  - exists []. unfold count. simpl. repeat split; lia.
Qed.

Lemma train_step_trace (st : Train T) :
  shape_ok (len (tokenizer s)) st ->
  exists st' tr,
    train_step s st = (Ok st', tr) /\
    global_step st' = global_step st + 1 /\
    shape_ok (len (tokenizer s)) st' /\
    count is_optimizer_step tr = 1%nat /\ count is_train tr = 0%nat /\
    Z.of_nat (count is_periodic_save tr)
      = global_step st' / save_step (args s) - global_step st / save_step (args s) /\
    Z.of_nat (count is_sample tr)
      = (global_step st' / save_step (args s) - global_step st / save_step (args s))
        * Z.of_nat (length (zip (mod_tokens s) (init_tokens s))).
Proof.
  intros Hshape. unfold train_step.
  set (grads := map _ _).
  assert (Hg : length grads = len (tokenizer s)).
  { unfold grads. rewrite length_map, length_seq. apply Hshape. }
  destruct (update_embeddings_ok s Hids st grads Hshape Hg)
    as (embeds & opt & -> & L1 & L2 & L3).
  destruct (save_and_sample_trace (global_step st)) as (tr & Hs & H1 & H2 & H3 & H4).
  eexists. eexists. split.
  - unfold lift. cbn [bind emit ret]. rewrite Hs. cbn [bind ret]. reflexivity.
  - cbn [global_step token_embeds optimizer]. split; [reflexivity|].
    split; [split; [|split]; assumption|].
    rewrite app_nil_r. cbn [app]. rewrite !count_cons, H1, H2.
    cbn [is_optimizer_step is_train is_periodic_save is_sample].
    repeat split; lia.
Qed.

Lemma batches_trace (n : nat) (st : Train T) :
  shape_ok (len (tokenizer s)) st ->
  global_step st < train_steps (args s) ->
  exists st' tr,
    batches s n st = (Ok st', tr) /\
    shape_ok (len (tokenizer s)) st' /\
    global_step st' = Z.min (train_steps (args s)) (global_step st + Z.of_nat n) /\
    Z.of_nat (count is_optimizer_step tr) = global_step st' - global_step st /\
    count is_train tr = 0%nat /\
    Z.of_nat (count is_periodic_save tr)
      = global_step st' / save_step (args s) - global_step st / save_step (args s) /\
    Z.of_nat (count is_sample tr)
      = (global_step st' / save_step (args s) - global_step st / save_step (args s))
        * Z.of_nat (length (zip (mod_tokens s) (init_tokens s))).
Proof.
  revert st. induction n as [|n IH]; intros st Hshape Hlt.
  - exists st, []. unfold count. simpl. repeat split; try apply Hshape; lia.
  - destruct (train_step_trace st Hshape)
      as (st1 & tr1 & Hstep & Hg1 & Hshape1 & Hc1 & Ht1 & Hp1 & Hs1).
    cbn [batches].
    destruct (Z.leb_spec (train_steps (args s)) (global_step st1)) as [Hge|Hlt1].
    + exists st1, (tr1 ++ []). split.
      { eapply bind_ok; [exact Hstep|].
        destruct (Z.leb_spec (train_steps (args s)) (global_step st1)); [reflexivity|lia]. }
      split; [assumption|]. rewrite app_nil_r, Hc1, Ht1.
      repeat split; try assumption; lia.
    + destruct (IH st1 Hshape1 Hlt1)
        as (st' & tr & Hb & Hshape' & Hg' & Hc & Ht & Hp & Hs).
      exists st', (tr1 ++ tr). split.
      { eapply bind_ok; [exact Hstep|].
        destruct (Z.leb_spec (train_steps (args s)) (global_step st1)); [lia|exact Hb]. }
      split; [assumption|]. rewrite !count_app, Hc1, Ht1, Ht.
      repeat split; first [lia | rewrite Nat2Z.inj_add, Hs1, Hs; lia].
Qed.

Lemma epochs_trace (m epoch : nat) (st : Train T) :
  (0 < epoch_steps (world s))%nat ->
  shape_ok (len (tokenizer s)) st ->
  global_step st < train_steps (args s) ->
  (Z.of_nat m - 1) * Z.of_nat (epoch_steps (world s)) + global_step st
    < train_steps (args s)
    <= Z.of_nat m * Z.of_nat (epoch_steps (world s)) + global_step st ->
  exists st' tr,
    epochs s epoch m st = (Ok st', tr) /\
    global_step st' = train_steps (args s) /\
    Z.of_nat (count is_optimizer_step tr) = train_steps (args s) - global_step st /\
    Z.of_nat (count is_periodic_save tr)
      = train_steps (args s) / save_step (args s) - global_step st / save_step (args s) /\
    Z.of_nat (count is_sample tr)
      = (train_steps (args s) / save_step (args s) - global_step st / save_step (args s))
        * Z.of_nat (length (zip (mod_tokens s) (init_tokens s))).
Proof.
  intros HE. revert epoch st. induction m as [|m IH]; intros epoch st Hshape Hlt Hb.
  - lia.
  - destruct (batches_trace (epoch_steps (world s)) st Hshape Hlt)
      as (st1 & tr1 & Hrun & Hshape1 & Hg1 & Hc1 & Ht1 & Hp1 & Hs1).
    cbn [epochs].
    destruct (Z.lt_ge_cases (global_step st + Z.of_nat (epoch_steps (world s)))
                            (train_steps (args s))) as [Hmore|Hdone].
    + destruct (IH (S epoch) st1 Hshape1 ltac:(lia) ltac:(nia))
        as (st' & tr & He & Hg' & Hc & Hp & Hs).
      exists st', ([ev_train epoch] ++ tr1 ++ tr). split.
      { eapply bind_ok; [reflexivity|]. eapply bind_ok; [exact Hrun | exact He]. }
      split; [assumption|]. rewrite !count_app.
      change (count is_optimizer_step [ev_train epoch]) with 0%nat.
      change (count is_periodic_save [ev_train epoch]) with 0%nat.
      change (count is_sample [ev_train epoch]) with 0%nat.
      repeat split; first [lia | cbn [Nat.add]; rewrite Nat2Z.inj_add, Hs1, Hs; lia].
    + assert (m = 0%nat) as -> by nia.
      exists st1, ([ev_train epoch] ++ tr1 ++ []). split.
      { eapply bind_ok; [reflexivity|]. eapply bind_ok; [exact Hrun | reflexivity]. }
      rewrite app_nil_r, !count_app.
      change (count is_optimizer_step [ev_train epoch]) with 0%nat.
      change (count is_periodic_save [ev_train epoch]) with 0%nat.
      change (count is_sample [ev_train epoch]) with 0%nat.
      assert (Hst1 : global_step st1 = train_steps (args s)) by lia.
      rewrite Hst1 in *. repeat split; first [lia | cbn [Nat.add]; rewrite Hs1; reflexivity].
Qed.

Lemma training_loop_trace (st : Train T) :
  (0 < epoch_steps (world s))%nat ->
  Z.of_nat (epoch_steps (world s)) < 2 ^ 53 ->
  0 <= train_steps (args s) < 2 ^ 53 ->
  global_step st = 0 ->
  shape_ok (len (tokenizer s)) st ->
  exists st' tr,
    training_loop s st = (Ok st', tr) /\
    global_step st' = train_steps (args s) /\
    Z.of_nat (count is_optimizer_step tr) = train_steps (args s) /\
    Z.of_nat (count is_periodic_save tr) = train_steps (args s) / save_step (args s) /\
    Z.of_nat (count is_sample tr)
      = train_steps (args s) / save_step (args s)
        * Z.of_nat (length (zip (mod_tokens s) (init_tokens s))).
Proof.
  intros HE HE53 HT Hg0 Hshape. unfold training_loop.
  rewrite ceil_div_small by lia. cbn [lift bind].
  pose proof (ceiling_bounds (train_steps (args s)) (Z.of_nat (epoch_steps (world s)))
                ltac:(lia)) as B.
  destruct (Z.eq_dec (train_steps (args s)) 0) as [E0|Hpos].
  - assert (ceiling (train_steps (args s)) (Z.of_nat (epoch_steps (world s))) = 0) as -> by nia.
    exists st, []. rewrite E0, Hg0. unfold count. simpl. repeat split.
  - set (c := ceiling _ _) in *.
    assert (Hc : 1 <= c) by nia.
    destruct (epochs_trace (Z.to_nat c) 0 st HE Hshape ltac:(lia) ltac:(rewrite Z2Nat.id; lia))
      as (st' & tr & He & Hg & Hcs & Hp & Hs).
    rewrite Hg0 in *. rewrite Z.div_0_l in * by lia.
    exists st', tr. rewrite He, app_nil_l. repeat split; try assumption; lia.
Qed.
End Trace.

Lemma count_Forall_false {T : Type} (p : event T -> bool) (tr : list (event T)) :
  Forall (fun ev => p ev = false) tr -> count p tr = 0%nat.
Proof.
  induction 1 as [|ev tr Hev _ IH]; [reflexivity|].
  rewrite count_cons, Hev, IH. reflexivity.
Qed.

Lemma Forall_impl_event {T : Type} (P Q : event T -> Prop) (tr : list (event T)) :
  (forall ev, P ev -> Q ev) -> Forall P tr -> Forall Q tr.
Proof. intros HPQ H. eapply Forall_impl; eauto. Qed.

Section MainRun.
Context {T : Type} {ST : Scalar T}.

Lemma scale_fields (a : Args T) (b : bool) :
  type (scale a b) = type a /\ train_steps (scale a b) = train_steps a /\
  save_step (scale a b) = save_step a.
Proof.
  unfold scale. destruct (scale_lr a); [|repeat split].
  destruct b; repeat split.
Qed.

Lemma prepare_tokens_lengths (w : World T) (pairs : list (string * string)) :
  forall (tokenizer tokenizer' : Tokenizer) (ids iids ids' iids' : list nat)
         (tr : list (event T)),
    prepare_tokens w tokenizer pairs ids iids = (Ok (tokenizer', ids', iids'), tr) ->
    length ids' = (length ids + length pairs)%nat /\
    length iids' = (length iids + length pairs)%nat.
Proof.
  induction pairs as [|[m i] pairs IH]; intros tk tk' ids iids ids' iids' tr Hp;
    cbn [prepare_tokens] in Hp.
  - injection Hp as _ <- <- _. simpl. lia.
  - destruct (add_tokens tk m) as [tk1 n].
    apply bind_inv_ok in Hp as ([] & t1 & t2 & _ & Hp & ->).
    apply bind_inv_ok in Hp as (x & t3 & t4 & _ & Hp & ->).
    apply IH in Hp as [H1 H2]. rewrite H1, H2, !length_app. simpl. lia.
Qed.

Lemma extend_vocabulary_rows (w : World T) (tokenizer0 tokenizer : Tokenizer)
    (embeds0 embeds : tensor T) (mod_tokens init_tokens : list string)
    (ids : list nat) (tr : list (event T)) (lr0 : T) :
  extend_vocabulary w tokenizer0 embeds0 mod_tokens init_tokens
  = (Ok (tokenizer, ids, embeds), tr) ->
  length ids = Nat.min (length mod_tokens) (length init_tokens) /\
  length embeds = len tokenizer /\
  shape_ok (len tokenizer)
    {| global_step := 0; token_embeds := embeds; optimizer := new_AdamW lr0 embeds |}.
Proof.
  intros He. apply extend_vocabulary_ok_inv in He as (iids & tr1 & Hp & -> & Hi).
  apply prepare_tokens_lengths in Hp as [Hl _].
  apply init_embeds_length in Hi.
  pose proof (proj1 (resize_token_embeddings_rows_aux w (len tokenizer) embeds0)) as Hr.
  rewrite Hr in Hi.
  split; [rewrite Hl, length_zip; reflexivity|]. split; [exact Hi|].
  unfold shape_ok, new_AdamW, zeros_like. cbn [token_embeds optimizer exp_avg exp_avg_sq].
  rewrite !length_map. repeat split; exact Hi.
Qed.

(** X12.  What the vocabulary extension hands to the training loop: as many
    new ids as there are modifier tokens, and an embedding table (with
    fresh optimizer moments) of exactly [len(tokenizer)] rows, which is
    what the boolean index of line 194 needs. *)
Theorem extend_vocabulary_shape (w : World T) (tokenizer0 tokenizer : Tokenizer)
    (embeds0 embeds : tensor T) (mod_tokens init_tokens : list string)
    (ids : list nat) (tr : list (event T)) (lr0 : T) :
  extend_vocabulary w tokenizer0 embeds0 mod_tokens init_tokens
  = (Ok (tokenizer, ids, embeds), tr) ->
  length ids = Nat.min (length mod_tokens) (length init_tokens) /\
  length embeds = len tokenizer /\
  shape_ok (len tokenizer)
    {| global_step := 0; token_embeds := embeds; optimizer := new_AdamW lr0 embeds |}.
Proof. apply extend_vocabulary_rows. Qed.

End MainRun.

Section MainRun2.
Context {T : Type} {ST : Scalar T}.

Lemma load_trace_setup (a : Args T) (w : World T) :
  Forall (fun ev => setup_event ev = true) (load_trace a w).
Proof.
  unfold load_trace. destruct (type a); [repeat constructor|].
  destruct (delta_ckpt a) as [p|]; [|repeat constructor].
  destruct (isfile w p); repeat constructor.
Qed.

Lemma extend_vocabulary_setup (w : World T) (tokenizer0 : Tokenizer) (embeds0 : tensor T)
    (mod_tokens init_tokens : list string) :
  Forall (fun ev => setup_event ev = true)
         (snd (extend_vocabulary w tokenizer0 embeds0 mod_tokens init_tokens)).
Proof.
  unfold extend_vocabulary. apply Forall_bind.
  - eapply Forall_impl; [apply prepare_tokens_events|].
    intros ev Hev. destruct ev; try discriminate; reflexivity.
  - intros [[tk ids] iids]. apply Forall_bind; [repeat constructor|]. intros _.
    apply Forall_bind; [constructor|]. intros emb. constructor.
Qed.

Lemma setup_event_counts (tr : list (event T)) :
  Forall (fun ev => setup_event ev = true) tr ->
  count is_optimizer_step tr = 0%nat /\ count is_periodic_save tr = 0%nat /\
  count is_final_save tr = 0%nat /\ count is_sample tr = 0%nat /\
  count is_train tr = 0%nat.
Proof.
  intros Hs. repeat split; apply count_Forall_false;
    (eapply Forall_impl; [exact Hs|]); intros ev Hev;
    destruct ev as [| | | | | | | | | | | |[g|]|[g|] u|]; try discriminate; reflexivity.
Qed.

Lemma loop_event_counts (ty : train_type) (tr : list (event T)) :
  Forall (fun ev => loop_event ty ev = true) tr ->
  count is_final_save tr = 0%nat /\ count is_from_pretrained tr = 0%nat.
Proof.
  intros Hs. split; apply count_Forall_false;
    (eapply Forall_impl; [exact Hs|]); intros ev Hev;
    destruct ev as [| | | | | | | | | | | |[g|]|[g|] u|]; try discriminate; reflexivity.
Qed.

(** X23.  When the lists parse, the vocabulary extension succeeds, the save
    period is positive, sampling does not fail, and [train_steps >= 0] and
    the number of batches per epoch are below 2^53, [main] returns after
    exactly [train_steps] optimizer steps, having written
    [train_steps // save_step] periodic checkpoints and one final
    checkpoint. *)
Theorem main_completes (a : Args T) (w : World T) (with_prior : bool)
    (mod_tokens init_tokens data_dirs term_data_dirs : list string)
    (tokenizer0 tokenizer : Tokenizer) (embeds0 embeds : tensor T)
    (ids : list nat) (tr_ext : list (event T)) :
  parse_inputs a
  = (Ok (with_prior, mod_tokens, init_tokens, data_dirs, term_data_dirs), []) ->
  load_models a w = (Ok (tokenizer0, embeds0), load_trace a w) ->
  extend_vocabulary w tokenizer0 embeds0 mod_tokens init_tokens
  = (Ok (tokenizer, ids, embeds), tr_ext) ->
  0 < save_step a ->
  (forall g p, pipetest_raises w g p = false) ->
  (0 < epoch_steps w)%nat ->
  Z.of_nat (epoch_steps w) < 2 ^ 53 ->
  0 <= train_steps a < 2 ^ 53 ->
  exists s st tr,
    main a w = (Ok (s, st), tr) /\
    global_step st = train_steps a /\
    Z.of_nat (count is_optimizer_step tr) = train_steps a /\
    Z.of_nat (count is_periodic_save tr) = train_steps a / save_step a /\
    Z.of_nat (count is_sample tr)
      = train_steps a / save_step a * Z.of_nat (length mod_tokens) /\
    count is_final_save tr = 1%nat.
Proof.
  intros Hparse Hload Hext Hsave Hpipe HE HE53 HT.
  pose proof (parse_inputs_ok_inv _ _ _ _ _ _ _ Hparse)
    as (tok & trm & dat & Htok & Htrm & Hdat & -> & -> & -> & -> & Hl1 & Hl2 & _ & _).
  pose proof (extend_vocabulary_rows _ _ _ _ _ _ _ _ _ (lr a) Hext) as (Hids & Hrows & Hshape).
  destruct (scale_fields a (with_prior_of a)) as (Hty & Hts & Hss).
  set (s0 := {| args := scale a (with_prior_of a); world := w; tokenizer := tokenizer;
                mod_tokens := map angle (split plus_sign tok);
                init_tokens := split plus_sign trm; mod_tokens_id := ids |}).
  assert (Hids0 : mod_tokens_id s0 <> []).
  { cbn [mod_tokens_id s0]. intros ->. cbn [length] in Hids.
    pose proof (length_split_pos plus_sign tok). pose proof (length_split_pos plus_sign trm).
    rewrite length_map in Hids. lia. }
  destruct (training_loop_trace s0 ltac:(cbn [args s0]; lia) Hids0 Hpipe
              {| global_step := 0; token_embeds := embeds;
                 optimizer := new_AdamW (lr a) embeds |} HE HE53
              ltac:(cbn [args s0]; lia) eq_refl Hshape)
    as (st' & trl & Hloop & Hg & Hc & Hp & Hsm).
  cbn [args s0 mod_tokens init_tokens] in Hg, Hc, Hp, Hsm.
  rewrite Hts in Hg, Hc. rewrite Hts, Hss in Hp, Hsm.
  rewrite length_zip, <- Hl1, Nat.min_id in Hsm.
  pose proof (training_loop_events s0 {| global_step := 0; token_embeds := embeds;
                optimizer := new_AdamW (lr a) embeds |}) as Hev.
  rewrite Hloop in Hev. cbn [snd] in Hev.
  apply loop_event_counts in Hev as [Hfin _].
  pose proof (setup_event_counts _ (load_trace_setup a w)) as (L1 & L2 & L3 & L4 & _).
  pose proof (extend_vocabulary_setup w tokenizer0 embeds0
                (map angle (split plus_sign tok)) (split plus_sign trm)) as Hes.
  rewrite Hext in Hes. cbn [snd] in Hes.
  apply setup_event_counts in Hes as (E1 & E2 & E3 & E4 & _).
  exists s0, st'.
  unfold main. rewrite Hload. cbn [bind emit ret app]. rewrite Hparse.
  cbn [bind emit ret app]. rewrite Hext. cbn [bind emit ret app].
  rewrite Hty. fold s0.
  destruct (low_mem a), (type a) eqn:Ety; cbn [bind emit ret app]; rewrite Hloop;
    unfold final_save; rewrite ?Hty, ?Ety; cbn [bind emit ret app];
    (eexists; split; [reflexivity|]); (split; [exact Hg|]);
    rewrite ?app_nil_r; repeat first [rewrite count_cons | rewrite count_app];
    rewrite ?L1, ?L2, ?L3, ?L4, ?E1, ?E2, ?E3, ?E4, ?Hfin;
    cbn [is_optimizer_step is_periodic_save is_final_save is_sample];
    change (@count T is_sample []) with 0%nat;
    change (@count T is_optimizer_step []) with 0%nat;
    change (@count T is_periodic_save []) with 0%nat;
    change (@count T is_final_save []) with 0%nat;
    repeat split; lia.
Qed.
End MainRun2.

(** ** The abort on a sampling failure *)

Section Until.
Context {T : Type} {ST : Scalar T}.
Variable s : Setup T.
Hypothesis Hsave : save_step (args s) <> 0.
Hypothesis Hids : mod_tokens_id s <> [].
Variable k : Z.
Variables mod_token init_token : string.
Hypothesis Hk : k <= train_steps (args s).
Hypothesis Hdue : k mod save_step (args s) = 0.
Hypothesis Hquiet : forall g p, g < k -> pipetest_raises (world s) g p = false.
Hypothesis Hin : (mod_token, init_token) ∈ zip (mod_tokens s) (init_tokens s).
Hypothesis Hraise :
  pipetest_raises (world s) k (String.append "photo of " (fmt_pair mod_token init_token))
  = true.

(** The step whose sample generation fails: the optimizer step is made,
    then the exception leaves the step. *)
Lemma train_step_raise (st : Train T) :
  shape_ok (len (tokenizer s)) st ->
  global_step st + 1 = k ->
  exists tr,
    train_step s st = (Raise (ExternalError "pipetest"), tr) /\
    count is_optimizer_step tr = 1%nat.
Proof.
  intros Hshape Hg.
  assert (Hl : length (map (backward (world s) (global_step st) (token_embeds st))
                           (seq 0 (length (token_embeds st)))) = len (tokenizer s)).
  { rewrite length_map, length_seq. apply Hshape. }
  destruct (update_embeddings_ok s Hids st _ Hshape Hl) as (embeds & opt & Hu & _).
  destruct (samples_raise s k _ _ _ Hin Hraise) as (trs & Hs & Hc).
  assert (Hss : exists tr', save_and_sample s (global_step st + 1)
                            = (Raise (ExternalError "pipetest"), tr') /\
                            count is_optimizer_step tr' = 0%nat).
  { unfold save_and_sample. rewrite Hg.
    destruct (Z.eqb_spec (save_step (args s)) 0) as [|_]; [contradiction|].
    rewrite Hdue. cbn [Z.eqb].
    destruct (type (args s)); (eexists; split;
      [ eapply bind_ok; [reflexivity | exact Hs]
      | rewrite count_app, Hc; reflexivity ]). }
  destruct Hss as (tr' & Hss & Hc').
  exists ([] ++ [ev_optimizer_step] ++ tr'). split.
  - unfold train_step. eapply bind_ok; [unfold lift; rewrite Hu; reflexivity|].
    eapply bind_ok; [reflexivity|]. apply bind_raise. exact Hss.
  - rewrite !count_app, Hc'. reflexivity.
Qed.

(** The batches of an epoch, up to the failing step. *)
Lemma batches_abort (n : nat) (st : Train T) :
  shape_ok (len (tokenizer s)) st ->
  global_step st < k ->
  (global_step st + Z.of_nat n < k ->
   exists st' tr,
     batches s n st = (Ok st', tr) /\
     shape_ok (len (tokenizer s)) st' /\
     global_step st' = global_step st + Z.of_nat n /\
     count is_optimizer_step tr = n) /\
  (k <= global_step st + Z.of_nat n ->
   exists tr,
     batches s n st = (Raise (ExternalError "pipetest"), tr) /\
     Z.of_nat (count is_optimizer_step tr) = k - global_step st).
Proof.
  revert st. induction n as [|n IH]; intros st Hshape Hlt.
  - split; [|lia]. intros _. exists st, []. repeat split; try apply Hshape. lia.
  - cbn [batches].
    destruct (Z.eq_dec (global_step st + 1) k) as [Ek|Hne].
    + split; [lia|]. intros _.
      destruct (train_step_raise st Hshape Ek) as (tr & Hs & Hc).
      exists tr. split; [apply bind_raise; exact Hs | lia].
    + destruct (train_step_ok s Hsave Hids st ltac:(intros p; apply Hquiet; lia) Hshape)
        as (st1 & tr1 & Hstep & Hg1 & Hshape1 & Hc1 & _).
      destruct (IH st1 Hshape1 ltac:(lia)) as [IHok IHraise].
      assert (Hcont : (train_steps (args s) <=? global_step st1) = false)
        by (apply Z.leb_gt; lia).
      split.
      * intros Hfar. destruct (IHok ltac:(lia)) as (st' & tr & Hb & Hshape' & Hg' & Hc).
        exists st', (tr1 ++ tr). split.
        { eapply bind_ok; [exact Hstep|]. rewrite Hcont. exact Hb. }
        split; [assumption|]. split; [lia|]. rewrite count_app, Hc1, Hc. reflexivity.
      * intros Hnear. destruct (IHraise ltac:(lia)) as (tr & Hb & Hc).
        exists (tr1 ++ tr). split.
        { eapply bind_ok; [exact Hstep|]. rewrite Hcont. exact Hb. }
        rewrite count_app, Hc1. lia.
Qed.

(** The epochs, up to the failing step. *)
Lemma epochs_abort (m epoch : nat) (st : Train T) :
  (0 < epoch_steps (world s))%nat ->
  shape_ok (len (tokenizer s)) st ->
  global_step st < k ->
  k <= global_step st + Z.of_nat m * Z.of_nat (epoch_steps (world s)) ->
  exists tr,
    epochs s epoch m st = (Raise (ExternalError "pipetest"), tr) /\
    Z.of_nat (count is_optimizer_step tr) = k - global_step st.
Proof.
  intros HE. revert epoch st. induction m as [|m IH]; intros epoch st Hshape Hlt Hb; [lia|].
  cbn [epochs].
  destruct (batches_abort (epoch_steps (world s)) st Hshape Hlt) as [Hok Hfail].
  destruct (Z.lt_ge_cases (global_step st + Z.of_nat (epoch_steps (world s))) k)
    as [Hfar|Hnear].
  - destruct (Hok Hfar) as (st1 & tr1 & Hrun & Hshape1 & Hg1 & Hc1).
    destruct (IH (S epoch) st1 Hshape1 ltac:(lia) ltac:(nia)) as (tr & He & Hc).
    exists ([ev_train epoch] ++ tr1 ++ tr). split.
    + eapply bind_ok; [reflexivity|]. eapply bind_ok; [exact Hrun | exact He].
    + rewrite !count_app, Hc1.
      change (count is_optimizer_step [ev_train epoch]) with 0%nat. lia.
  - destruct (Hfail Hnear) as (tr1 & Hrun & Hc1).
    exists ([ev_train epoch] ++ tr1). split.
    + eapply bind_ok; [reflexivity|]. apply bind_raise. exact Hrun.
    + rewrite count_app.
      change (count is_optimizer_step [ev_train epoch]) with 0%nat. lia.
Qed.

(** The loop, up to the failing step. *)
Lemma training_loop_abort (st : Train T) :
  (0 < epoch_steps (world s))%nat ->
  Z.of_nat (epoch_steps (world s)) < 2 ^ 53 ->
  train_steps (args s) < 2 ^ 53 ->
  0 < k ->
  global_step st = 0 ->
  shape_ok (len (tokenizer s)) st ->
  exists tr,
    training_loop s st = (Raise (ExternalError "pipetest"), tr) /\
    Z.of_nat (count is_optimizer_step tr) = k.
Proof.
  intros HE HE53 HT Hk0 Hg0 Hshape. unfold training_loop.
  rewrite ceil_div_small by lia. cbn [lift bind].
  pose proof (ceiling_bounds (train_steps (args s)) (Z.of_nat (epoch_steps (world s)))
                ltac:(lia)) as B.
  set (c := ceiling _ _) in *.
  assert (Hc : 1 <= c) by nia.
  destruct (epochs_abort (Z.to_nat c) 0 st HE Hshape ltac:(lia)
              ltac:(rewrite Z2Nat.id; lia)) as (tr & He & Hcs).
  exists tr. rewrite He. split; [reflexivity | lia].
Qed.
End Until.

Section MainAbort.
Context {T : Type} {ST : Scalar T}.

(** C6, as amended.  There is no handler around lines 208-216.  When the
    setup succeeds and the first exception of the sampling pipeline comes at
    global step [k] (a step at which a checkpoint is due), it leaves the
    step, the batch loop and the epoch loop: [main] ends with this
    exception after exactly [k] optimizer steps and writes no final
    checkpoint. *)
Theorem pipetest_failure_aborts_training (a : Args T) (w : World T) (with_prior : bool)
    (mod_tokens init_tokens data_dirs term_data_dirs : list string)
    (tokenizer0 tokenizer : Tokenizer) (embeds0 embeds : tensor T)
    (ids : list nat) (tr_ext : list (event T)) (k : Z) (mod_token init_token : string) :
  parse_inputs a
  = (Ok (with_prior, mod_tokens, init_tokens, data_dirs, term_data_dirs), []) ->
  load_models a w = (Ok (tokenizer0, embeds0), load_trace a w) ->
  extend_vocabulary w tokenizer0 embeds0 mod_tokens init_tokens
  = (Ok (tokenizer, ids, embeds), tr_ext) ->
  save_step a <> 0 ->
  (0 < epoch_steps w)%nat ->
  Z.of_nat (epoch_steps w) < 2 ^ 53 ->
  train_steps a < 2 ^ 53 ->
  0 < k <= train_steps a ->
  k mod save_step a = 0 ->
  (forall g p, g < k -> pipetest_raises w g p = false) ->
  (mod_token, init_token) ∈ zip mod_tokens init_tokens ->
  pipetest_raises w k (String.append "photo of " (fmt_pair mod_token init_token)) = true ->
  exists tr,
    main a w = (Raise (ExternalError "pipetest"), tr) /\
    Z.of_nat (count is_optimizer_step tr) = k /\
    count is_final_save tr = 0%nat.
Proof.
  intros Hparse Hload Hext Hsave HE HE53 HT Hk Hdue Hquiet Hin Hraise.
  pose proof (parse_inputs_ok_inv _ _ _ _ _ _ _ Hparse)
    as (tok & trm & dat & Htok & Htrm & Hdat & -> & -> & -> & -> & Hl1 & Hl2 & _ & _).
  pose proof (extend_vocabulary_rows _ _ _ _ _ _ _ _ _ (lr a) Hext) as (Hids & Hrows & Hshape).
  destruct (scale_fields a (with_prior_of a)) as (Hty & Hts & Hss).
  set (s0 := {| args := scale a (with_prior_of a); world := w; tokenizer := tokenizer;
                mod_tokens := map angle (split plus_sign tok);
                init_tokens := split plus_sign trm; mod_tokens_id := ids |}).
  assert (Hids0 : mod_tokens_id s0 <> []).
  { cbn [mod_tokens_id s0]. intros ->. cbn [length] in Hids.
    pose proof (length_split_pos plus_sign tok). pose proof (length_split_pos plus_sign trm).
    rewrite length_map in Hids. lia. }
  destruct (training_loop_abort s0 ltac:(cbn [args s0]; lia) Hids0 k mod_token init_token
              ltac:(cbn [args s0]; lia) ltac:(cbn [args s0]; rewrite Hss; exact Hdue)
              Hquiet Hin Hraise
              {| global_step := 0; token_embeds := embeds;
                 optimizer := new_AdamW (lr a) embeds |} HE HE53
              ltac:(cbn [args s0]; lia) ltac:(lia) eq_refl Hshape)
    as (trl & Hloop & Hc).
  pose proof (training_loop_events s0 {| global_step := 0; token_embeds := embeds;
                optimizer := new_AdamW (lr a) embeds |}) as Hev.
  rewrite Hloop in Hev. cbn [snd] in Hev.
  apply loop_event_counts in Hev as [Hfin _].
  pose proof (setup_event_counts _ (load_trace_setup a w)) as (L1 & _ & L3 & _).
  pose proof (extend_vocabulary_setup w tokenizer0 embeds0
                (map angle (split plus_sign tok)) (split plus_sign trm)) as Hes.
  rewrite Hext in Hes. cbn [snd] in Hes.
  apply setup_event_counts in Hes as (E1 & _ & E3 & _).
  unfold main. rewrite Hload. cbn [bind emit ret app]. rewrite Hparse.
  cbn [bind emit ret app]. rewrite Hext. cbn [bind emit ret app].
  rewrite Hty. fold s0.
  destruct (low_mem a), (type a) eqn:Ety; cbn [bind emit ret app]; rewrite Hloop;
    cbn [bind emit ret app];
    (eexists; split; [reflexivity|]);
    rewrite ?app_nil_r; repeat first [rewrite count_cons | rewrite count_app];
    rewrite ?L1, ?L3, ?E1, ?E3, ?Hfin;
    cbn [is_optimizer_step is_final_save];
    split; lia.
Qed.
End MainAbort.

(** C6 as amended, in the run where the pipeline raises at step 5. *)
Lemma pipetest_failure_aborts_training_witness :
  exists tr,
    @main _ binary32 tiny_args failing_world = (Raise (ExternalError "pipetest"), tr) /\
    Z.of_nat (count is_optimizer_step tr) = 5 /\
    count is_final_save tr = 0%nat.
Proof.
  destruct (@extend_vocabulary spec_float failing_world tiny_tokenizer
              (pretrained_embeds tiny_world) ["<a>"; "<b>"]%string ["cat"; "dog"]%string)
    as [[[[tk ids] emb]|e] tr] eqn:E.
  - apply (@pipetest_failure_aborts_training _ binary32 tiny_args failing_world false
             ["<a>"; "<b>"]%string ["cat"; "dog"]%string ["d1"; "d2"]%string []
             tiny_tokenizer tk (pretrained_embeds tiny_world) emb ids tr 5 "<a>" "cat").
    + reflexivity.
    + reflexivity.
    + exact E.
    + discriminate.
    + simpl. lia.
    + reflexivity.
    + reflexivity.
    + split; [reflexivity | discriminate].
    + reflexivity.
    + intros g p Hg. cbn [pipetest_raises failing_world]. apply Z.eqb_neq. lia.
    + left.
    + reflexivity.
  - vm_compute in E. discriminate.
Defined.

Section MainEdges.
Context {T : Type} {ST : Scalar T}.

Lemma parse_inputs_trace (a : Args T) : snd (parse_inputs a) = [].
Proof.
  unfold parse_inputs, with_prior_of.
  destruct (token a) as [tok|]; [|reflexivity].
  destruct (term a) as [trm|]; [|reflexivity].
  destruct (data a) as [dat|]; [|reflexivity].
  cbn [attr bind ret app].
  destruct (_ && _); cbn [assert bind ret raise app]; [|reflexivity].
  destruct (term_data a) as [td|]; cbn [attr bind ret app]; [|reflexivity].
  destruct (_ =? _)%nat; reflexivity.
Qed.

(** X5.  [--token], [--term] and [--data] default to [None]; when one of them
    is missing, [main] ends with the [AttributeError] of [None.split] at
    lines 79-81, after the pretrained components have been loaded. *)
Theorem missing_list_raises_attribute_error (a : Args T) (w : World T) :
  token a = None \/ term a = None \/ data a = None ->
  main a w = (Raise AttributeError, ev_makedirs :: ev_save_cfg :: load_trace a w).
Proof.
  intros Hnone.
  assert (Hp : parse_inputs a = (Raise AttributeError, [])).
  { unfold parse_inputs.
    destruct (token a) as [tok|]; [|reflexivity].
    destruct (term a) as [trm|]; [|reflexivity].
    destruct (data a) as [dat|]; [|reflexivity].
    destruct Hnone as [?|[?|?]]; discriminate. }
  unfold main. destruct (load_models_ok a w) as (tk & emb & ->).
  rewrite Hp. cbn [bind emit app]. rewrite app_nil_r. reflexivity.
Qed.

(** The trace of a run of [main] that raises. *)
Lemma main_raise_inv (a : Args T) (w : World T) (e : exn) (tr : list (event T)) :
  main a w = (Raise e, tr) ->
  exists tr_setup tr_loop,
    tr = tr_setup ++ tr_loop /\
    Forall (fun ev => setup_event ev = true) tr_setup /\
    Forall (fun ev => loop_event (type a) ev = true) tr_loop.
Proof.
  unfold main. intros Hm.
  destruct (load_models_ok a w) as (tk0 & emb0 & Hload). rewrite Hload in Hm.
  pose proof (load_trace_setup a w) as Hls.
  remember (load_trace a w) as tr_load eqn:Hlt. clear Hlt Hload.
  cbn [bind emit app] in Hm.
  pose proof (parse_inputs_trace a) as Hpt.
  assert (Hpre : forall mid : list (event T),
             Forall (fun ev => setup_event ev = true) mid ->
             Forall (fun ev => setup_event ev = true)
               (ev_makedirs :: ev_save_cfg :: tr_load ++ mid)).
  { intros mid Hmid. constructor; [reflexivity|]. constructor; [reflexivity|].
    apply Forall_app. split; assumption. }
  destruct (parse_inputs a) as [[[[[[wp mt] it] dd] tdd]|e'] trp] eqn:Hp;
    cbn [snd] in Hpt; subst trp; cbn [bind emit ret app] in Hm.
  2:{ injection Hm as <- <-. eexists _, []. split; [symmetry; apply app_nil_r|].
      split; [|constructor]. specialize (Hpre [] ltac:(constructor)).
      rewrite app_nil_r in Hpre. rewrite ?app_nil_r. exact Hpre. }
  pose proof (extend_vocabulary_setup w tk0 emb0 mt it) as Hes.
  destruct (extend_vocabulary w tk0 emb0 mt it) as [[[[tk ids] emb]|e'] tr_ext] eqn:Hext;
    cbn [snd] in Hes; cbn [bind emit ret app] in Hm.
  2:{ injection Hm as <- <-. eexists _, []. split; [symmetry; apply app_nil_r|].
      split; [|constructor]. rewrite ?app_nil_r. apply Hpre. exact Hes. }
  destruct (scale_fields a wp) as (Hty & _ & _). rewrite Hty in Hm.
  match type of Hm with context [training_loop ?s0 ?st0] =>
    pose proof (training_loop_events s0 st0) as Hev;
    destruct (training_loop s0 st0) as [[st1|e'] trl] eqn:Hloop
  end; cbn [args snd] in Hev; rewrite Hty in Hev.
  - destruct (low_mem a), (type a); cbn [bind emit ret app] in Hm;
      rewrite ?Hloop in Hm; unfold final_save in Hm; rewrite ?Hty in Hm;
      cbn [bind emit ret app] in Hm; discriminate.
  - destruct (low_mem a), (type a); cbn [bind emit ret app] in Hm;
      rewrite ?Hloop in Hm; cbn [bind emit ret app] in Hm;
      injection Hm as <- <-;
      match goal with
      | |- exists t1 t2, _ :: _ :: tr_load ++ tr_ext ++ ?x :: ?y :: ?z :: ?u :: trl = _ /\ _ =>
          exists (ev_makedirs :: ev_save_cfg :: tr_load ++ tr_ext ++ [x; y; z; u]), trl
      | |- exists t1 t2, _ :: _ :: tr_load ++ tr_ext ++ ?x :: ?y :: ?z :: trl = _ /\ _ =>
          exists (ev_makedirs :: ev_save_cfg :: tr_load ++ tr_ext ++ [x; y; z]), trl
      | |- exists t1 t2, _ :: _ :: tr_load ++ tr_ext ++ ?x :: ?y :: trl = _ /\ _ =>
          exists (ev_makedirs :: ev_save_cfg :: tr_load ++ tr_ext ++ [x; y]), trl
      end;
      (split; [cbn [app]; rewrite <- !app_assoc; reflexivity|]);
      (split; [|exact Hev]);
      apply Hpre; (apply Forall_app; split; [exact Hes|]); repeat constructor.
Qed.

(** X25.  The final checkpoint (lines 223-228) is written only by a run that
    completes: a run that raises has written none, a run that returns has
    written exactly one. *)
Theorem final_checkpoint_iff_completed (a : Args T) (w : World T) :
  count is_final_save (snd (main a w))
  = match fst (main a w) with Ok _ => 1%nat | Raise _ => 0%nat end.
Proof.
  destruct (main a w) as [[[s st]|e] tr] eqn:Hm; cbn [fst snd].
  - apply main_ok_inv in Hm
      as (tk0 & emb0 & tok & trm & dat & ids & emb & tr_ext & tr_loop
          & Hload & Htok & Htrm & Hdat & Hlen & Hext & Hargs & Hw & Hmt & Hit & Hids
          & Hloop & ->).
    pose proof (training_loop_events s {| global_step := 0; token_embeds := emb;
                  optimizer := new_AdamW (lr a) emb |}) as Hev.
    rewrite Hloop in Hev. cbn [snd] in Hev.
    apply loop_event_counts in Hev as [Hfin _].
    pose proof (setup_event_counts _ (load_trace_setup a w)) as (_ & _ & L3 & _).
    pose proof (extend_vocabulary_setup w tk0 emb0
                  (map angle (split plus_sign tok)) (split plus_sign trm)) as Hes.
    rewrite Hext in Hes. cbn [snd] in Hes.
    apply setup_event_counts in Hes as (_ & _ & E3 & _).
    repeat first [rewrite count_cons | rewrite count_app].
    rewrite L3, E3, Hfin.
    destruct (low_mem a), (type a); reflexivity.
  - apply main_raise_inv in Hm as (t1 & t2 & -> & H1 & H2).
    apply setup_event_counts in H1 as (_ & _ & H1 & _).
    apply loop_event_counts in H2 as [H2 _].
    rewrite count_app, H1, H2. reflexivity.
Qed.

(** X26.  The pretrained backbone is loaded a second time ([unet0], line 150)
    exactly in custom mode, once; in text mode [save_delta] is never
    called. *)
Theorem second_backbone_only_in_custom_mode (a : Args T) (w : World T) (s : Setup T)
    (st : Train T) (tr : list (event T)) :
  main a w = (Ok (s, st), tr) ->
  count is_from_pretrained tr = match type a with text => 5%nat | custom => 6%nat end /\
  (type a = text -> save_delta_calls tr = []).
Proof.
  intros Hm. apply main_ok_inv in Hm
      as (tk0 & emb0 & tok & trm & dat & ids & emb & tr_ext & tr_loop
          & Hload & Htok & Htrm & Hdat & Hlen & Hext & Hargs & Hw & Hmt & Hit & Hids
          & Hloop & ->).
  pose proof (training_loop_events s {| global_step := 0; token_embeds := emb;
                optimizer := new_AdamW (lr a) emb |}) as Hev.
  rewrite Hloop in Hev. cbn [snd] in Hev.
  assert (Hty : type (args s) = type a).
  { rewrite Hargs. apply scale_fields. }
  rewrite Hty in Hev.
  pose proof (loop_event_counts _ _ Hev) as [_ Hfp].
  apply extend_vocabulary_ok_inv in Hext as (iids & tr1 & Hp & -> & _).
  pose proof (prepare_tokens_events w
                (zip (map angle (split plus_sign tok)) (split plus_sign trm))
                tk0 [] []) as Hpe.
  rewrite Hp in Hpe. cbn [snd] in Hpe.
  assert (Hfp1 : count is_from_pretrained tr1 = 0%nat).
  { apply count_Forall_false. eapply Forall_impl; [exact Hpe|].
    intros ev He. destruct ev; try discriminate; reflexivity. }
  split.
  - repeat first [rewrite count_cons | rewrite count_app].
    rewrite Hfp1, Hfp. unfold load_trace.
    destruct (low_mem a), (type a); try reflexivity;
      destruct (delta_ckpt a) as [p|]; try reflexivity;
      destruct (isfile w p); reflexivity.
  - intros Htext. rewrite Htext in Hev |- *.
    assert (Hl : save_delta_calls tr_loop = []).
    { clear -Hev. induction Hev as [|ev tr Hev _ IH]; [reflexivity|].
      destruct ev as [| | | | | | | | | | | |[g|]|[g|] [|]|]; try discriminate; exact IH. }
    rewrite !save_delta_calls_app, Hl, (add_tokens_events_save_delta _ Hpe),
      (proj2 (load_trace_added_tokens a w)).
    destruct (low_mem a); reflexivity.
Qed.
End MainEdges.

Section LoopEdges.
Context {T : Type} {ST : Scalar T}.
Variable s : Setup T.

(** X21.  With [train_steps <= 0] the loop does nothing at all: no epoch is
    started and no event is left.  Either the state is returned as it was,
    or the quotient of line 158 is too large for a float and the loop ends
    with [OverflowError]; above [-2^53] (with fewer than 2^53 batches per
    epoch) it is always the former. *)
Theorem no_steps_requested (st : Train T) :
  (0 < epoch_steps (world s))%nat ->
  train_steps (args s) <= 0 ->
  (training_loop s st = (Ok st, []) \/
   training_loop s st = (Raise OverflowError, [])) /\
  (- 2 ^ 53 < train_steps (args s) ->
   Z.of_nat (epoch_steps (world s)) < 2 ^ 53 ->
   training_loop s st = (Ok st, [])).
Proof.
  intros HE HT. unfold training_loop. split.
  - destruct (ceil_div_nonpos (train_steps (args s)) (Z.of_nat (epoch_steps (world s)))
                HT ltac:(lia)) as [(n & -> & Hn)| ->]; [left | right; reflexivity].
    cbn [lift bind]. replace (Z.to_nat n) with 0%nat by lia. reflexivity.
  - intros HT53 HE53. rewrite ceil_div_small by lia. cbn [lift bind].
    pose proof (ceiling_bounds (train_steps (args s)) (Z.of_nat (epoch_steps (world s)))
                  ltac:(lia)) as B.
    replace (Z.to_nat _) with 0%nat; [reflexivity|]. nia.
Qed.

(** X22.  [--save_step 0] makes line 200 divide by zero: the run ends with
    [ZeroDivisionError] right after its first optimizer step, whatever the
    number of batches. *)
Theorem save_step_zero_raises (st : Train T) (n : nat) :
  save_step (args s) = 0 ->
  mod_tokens_id s <> [] ->
  shape_ok (len (tokenizer s)) st ->
  batches s (S n) st = (Raise ZeroDivisionError, [ev_optimizer_step]).
Proof.
  intros Hz Hids Hshape.
  assert (Hg : length (map (backward (world s) (global_step st) (token_embeds st))
                           (seq 0 (length (token_embeds st)))) = len (tokenizer s)).
  { rewrite length_map, length_seq. apply Hshape. }
  destruct (update_embeddings_ok s Hids st _ Hshape Hg) as (embeds & opt & Hu & _).
  cbn [batches]. unfold train_step, lift. rewrite Hu.
  unfold save_and_sample. rewrite Hz. reflexivity.
Qed.

(** The steps of a batch loop that returns. *)
Lemma batches_ok_steps (n : nat) (st st' : Train T) (tr : list (event T)) :
  batches s n st = (Ok st', tr) ->
  global_step st <= global_step st' /\
  forall k, global_step st < k <= global_step st' ->
            exists t, save_and_sample s k = (Ok tt, t).
Proof.
  revert st tr. induction n as [|n IH]; intros st tr Hb; cbn [batches] in Hb.
  - injection Hb as <- _. split; [lia|]. intros k Hk. lia.
  - apply bind_inv_ok in Hb as (st1 & t1 & t2 & Hs & Hb & ->).
    pose proof (train_step_ok_inv s _ _ _ Hs) as [_ Hg1].
    assert (Hss : exists t, save_and_sample s (global_step st + 1) = (Ok tt, t)).
    { unfold train_step in Hs.
      apply bind_inv_ok in Hs as ([embeds opt] & u1 & u2 & _ & Hs & _).
      apply bind_inv_ok in Hs as ([] & u3 & u4 & _ & Hs & _).
      apply bind_inv_ok in Hs as ([] & u5 & u6 & Hs & _ & _). eauto. }
    destruct (Z.leb_spec (train_steps (args s)) (global_step st1)) as [Hge|Hlt1].
    + injection Hb as <- _. split; [lia|].
      intros k Hk. assert (k = global_step st + 1) as -> by lia. exact Hss.
    + apply IH in Hb as [Hg' Hall]. split; [lia|].
      intros k Hk. destruct (Z.eq_dec k (global_step st + 1)) as [->|Hne]; [exact Hss|].
      apply Hall. lia.
Qed.

Lemma epochs_ok_steps (m epoch : nat) (st st' : Train T) (tr : list (event T)) :
  epochs s epoch m st = (Ok st', tr) ->
  global_step st <= global_step st' /\
  forall k, global_step st < k <= global_step st' ->
            exists t, save_and_sample s k = (Ok tt, t).
Proof.
  revert epoch st tr.
  induction m as [|m IH]; intros epoch st tr He; cbn [epochs] in He.
  - injection He as <- _. split; [lia|]. intros k Hk. lia.
  - apply bind_inv_ok in He as ([] & t1 & t2 & _ & He & ->).
    apply bind_inv_ok in He as (st1 & t3 & t4 & Hbt & He & ->).
    apply batches_ok_steps in Hbt as [Hg1 Hall1].
    apply IH in He as [Hg2 Hall2]. split; [lia|]. intros k Hk.
    destruct (Z_le_gt_dec k (global_step st1)) as [Hle|Hgt]; [apply Hall1 | apply Hall2]; lia.
Qed.
End LoopEdges.

Section MainSamples.
Context {T : Type} {ST : Scalar T}.

(** X24.  [main] returns only if every sample generation that was due
    succeeded: for each multiple [k] of the save period among the steps
    [1 .. global_step] that the run made and each modifier token, the
    pipeline did not raise (and the save period is not zero when a step
    was made). *)
Theorem completed_run_had_no_sample_failure (a : Args T) (w : World T) (s : Setup T)
    (st : Train T) (tr : list (event T)) (k : Z) (mod_token init_token : string) :
  main a w = (Ok (s, st), tr) ->
  0 < k <= global_step st ->
  save_step a <> 0 /\
  (k mod save_step a = 0 ->
   (mod_token, init_token) ∈ zip (mod_tokens s) (init_tokens s) ->
   pipetest_raises w k (String.append "photo of " (fmt_pair mod_token init_token)) = false).
Proof.
  intros Hm Hk. apply main_ok_inv in Hm
      as (tk0 & emb0 & tok & trm & dat & ids & emb & tr_ext & tr_loop
          & Hload & Htok & Htrm & Hdat & Hlen & Hext & Hargs & Hw & Hmt & Hit & Hids
          & Hloop & ->).
  destruct (scale_fields a (with_prior_of a)) as (_ & Hts & Hss).
  rewrite <- Hargs in Hts, Hss.
  unfold training_loop in Hloop.
  apply bind_inv_ok in Hloop as (n & u1 & u2 & _ & Hloop & _).
  assert (Hsk : exists t, save_and_sample s k = (Ok tt, t)).
  { apply epochs_ok_steps in Hloop as [_ Hall]. apply Hall. cbn [global_step]. lia. }
  destruct Hsk as (t & Hsk). unfold save_and_sample in Hsk. rewrite Hss in Hsk.
  destruct (Z.eqb_spec (save_step a) 0) as [|Hne]; [discriminate|].
  split; [assumption|]. intros Hdue Hin.
  rewrite Hdue in Hsk. cbn [Z.eqb] in Hsk.
  apply bind_inv_ok in Hsk as ([] & t1 & t2 & _ & Hsm & _).
  destruct (pipetest_raises w k _) eqn:Hr; [|reflexivity].
  rewrite <- Hw in Hr.
  destruct (samples_raise s k _ _ _ Hin Hr) as (t' & Hraise & _).
  rewrite Hraise in Hsm. discriminate.
Qed.
End MainSamples.

Section MaskExact.
Context {T : Type} {ST : Scalar T}.

(** X17.  What lines 190-194 do, for any number of modifier tokens: the
    gradient rows that survive are exactly those of the ids at positions
    [0 .. max(1, n-1) - 1] of [mod_tokens_id]; every other row is zeroed.
    With one token this is the token's row; with more, the last id is
    left out. *)
Theorem mask_grads_exact (len_tokenizer : nat) (ids : list nat) (grads : tensor T) :
  ids <> [] -> length grads = len_tokenizer ->
  exists g, mask_grads len_tokenizer ids grads = Ok g /\
    length g = len_tokenizer /\
    forall (j : nat) (row : list T), grads !! j = Some row ->
      g !! j = Some (if bool_decide (j ∈ take (Nat.max 1 (length ids - 1)) ids)
                     then row else map (fun _ => sc_zero) row).
Proof.
  intros Hne Hlen. destruct ids as [|id0 rest]; [congruence|].
  destruct (mask_grads_spec len_tokenizer id0 rest grads Hlen) as (g & Hg & Hgl & Hlk).
  exists g. split; [assumption|]. split; [assumption|].
  intros j row Hrow. rewrite (Hlk j row Hrow). f_equal.
  cbn [length]. replace (S (length rest) - 1)%nat with (length rest) by lia.
  destruct (bool_decide_reflect (j ∈ take (Nat.max 1 (length rest)) (id0 :: rest)))
    as [Hin|Hnot].
  - apply elem_of_take in Hin as (i & Hi & Hlt).
    destruct i as [|i].
    + injection Hi as ->. rewrite Nat.eqb_refl. reflexivity.
    + destruct (Nat.eqb_spec j id0); [reflexivity|]. cbn [negb andb].
      replace (forallb _ _) with false; [reflexivity|].
      symmetry. apply not_true_is_false. intros Hall. rewrite forallb_forall in Hall.
      specialize (Hall (S i) ltac:(apply in_seq; lia)).
      rewrite (nth_lookup_Some _ _ _ _ Hi), Nat.eqb_refl in Hall. discriminate.
  - assert (Hj0 : j <> id0).
    { intros ->. apply Hnot. apply elem_of_take. exists 0%nat. split; [reflexivity|lia]. }
    destruct (Nat.eqb_spec j id0); [contradiction|]. cbn [negb andb].
    rewrite forallb_seq_nth_notin; [reflexivity|simpl; lia|].
    intros Hin. apply Hnot. apply elem_of_take in Hin as (i & Hi & Hlt).
    apply elem_of_take. exists i. split; [assumption|lia].
Qed.

(** X18.  The masked update raises exactly when there is no modifier token or
    when the gradient does not have [len(tokenizer)] rows, and then with
    [IndexError]. *)
Theorem update_embeddings_raises_iff (len_tokenizer : nat) (ids : list nat)
    (o : AdamW T) (embeds grads : tensor T) :
  (ids = [] \/ length grads <> len_tokenizer
   <-> update_embeddings len_tokenizer ids o embeds grads = Raise IndexError) /\
  (ids <> [] /\ length grads = len_tokenizer
   <-> exists r, update_embeddings len_tokenizer ids o embeds grads = Ok r).
Proof.
  unfold update_embeddings, mask_grads.
  destruct ids as [|id0 rest].
  - cbn [index_no_updates]. split; split.
    + reflexivity.
    + intros _. left. reflexivity.
    + intros [H _]. congruence.
    + intros [r Hr]. discriminate.
  - destruct (index_no_updates_spec len_tokenizer id0 rest) as (index & -> & Hil & _).
    unfold fill_rows. rewrite Hil.
    destruct (Nat.eqb_spec len_tokenizer (length grads)) as [E|Hne]; split; split.
    + intros [?|?]; [discriminate | congruence].
    + discriminate.
    + intros _. eexists. reflexivity.
    + intros _. split; [discriminate | congruence].
    + reflexivity.
    + intros _. right. congruence.
    + intros [_ H]. congruence.
    + intros [r Hr]. discriminate.
Qed.
End MaskExact.

Section ExactDecay.
Variable root : Qc -> Qc.

(** X19.  In exact arithmetic, one masked AdamW step on a row that is not a
    modifier token and whose moments are zero multiplies the row by
    [1 - lr * weight_decay] and leaves its moments zero, so the same holds
    at the next step: pretrained rows shrink geometrically. *)
Theorem pretrained_row_decays (len_tokenizer : nat) (ids : list nat) (o : AdamW Qc)
    (embeds grads : tensor Qc) (j : nat) (row grow : list Qc) :
  ids <> [] -> j ∉ ids -> length grads = len_tokenizer ->
  embeds !! j = Some row -> grads !! j = Some grow -> length grow = length row ->
  exp_avg o !! j = Some (replicate (length row) 0%Qc) ->
  exp_avg_sq o !! j = Some (replicate (length row) 0%Qc) ->
  exists embeds' o',
    @update_embeddings _ (exact root) len_tokenizer ids o embeds grads = Ok (embeds', o') /\
    embeds' !! j = Some (map (fun p => p * (1 - opt_lr o * opt_weight_decay o))%Qc row) /\
    exp_avg o' !! j = Some (replicate (length row) 0%Qc) /\
    exp_avg_sq o' !! j = Some (replicate (length row) 0%Qc) /\
    opt_lr o' = opt_lr o /\ opt_weight_decay o' = opt_weight_decay o.
Proof.
  intros Hne Hnot Hlen Hrow Hgrow Hl Hm Hv.
  destruct (@mask_grads_outside _ (exact root) len_tokenizer ids grads j grow
              Hne Hnot Hlen Hgrow) as (g & Hg & _ & Hgj).
  unfold update_embeddings. rewrite Hg.
  rewrite map_const_replicate, Hl in Hgj.
  change (@sc_zero _ (exact root)) with 0%Qc in Hgj.
  destruct (adamw_step_zero_row root o embeds g j row Hrow Hgj Hm Hv) as (H1 & H2 & H3).
  destruct (@adamw_step _ (exact root) o embeds g) as [embeds' o'] eqn:Ea.
  exists embeds', o'. cbn [fst snd] in *. split; [reflexivity|].
  split; [assumption|]. split; [assumption|]. split; [assumption|].
  unfold adamw_step in Ea. injection Ea as _ <-. split; reflexivity.
Qed.
End ExactDecay.

Lemma concat_split_size {A : Type} (size : nat) :
  (0 < size)%nat ->
  forall (fuel : nat) (x : list A), (length x <= fuel)%nat ->
    concat (split_size size fuel x) = x.
Proof.
  intros Hs. induction fuel as [|fuel IH]; intros x Hx.
  - destruct x; [reflexivity | simpl in Hx; lia].
  - cbn [split_size]. destruct x as [|a x]; [reflexivity|].
    cbn [concat]. rewrite IH.
    + apply take_drop.
    + rewrite length_drop. simpl in *. lia.
Qed.

(** X14.  [chunk] only cuts: putting the pieces back in order gives the
    tensor again. *)
Theorem concat_chunk {A : Type} (chunks : nat) (x : list A) :
  (0 < chunks)%nat -> concat (chunk chunks x) = x.
Proof.
  intros Hc. unfold chunk.
  destruct (Nat.eqb_spec ((length x + chunks - 1) / chunks) 0) as [E|Hne].
  - apply Nat.div_small_iff in E; [|lia].
    assert (length x = 0%nat) by lia. destruct x; [|discriminate].
    clear. induction chunks; [reflexivity | assumption].
  - apply concat_split_size; lia.
Qed.

Lemma split_size_two {A : Type} (size fuel : nat) (x : list A) :
  (1 <= size)%nat -> (size < length x)%nat -> (length x <= 2 * size)%nat ->
  (2 <= fuel)%nat ->
  split_size size fuel x = [take size x; drop size x].
Proof.
  intros H1 H2 H3 Hf. destruct fuel as [|[|fuel]]; [lia..|].
  cbn [split_size]. destruct x as [|a x]; [simpl in H2; lia|].
  destruct (drop size (a :: x)) as [|c d] eqn:Ed.
  { apply (f_equal length) in Ed. rewrite length_drop in Ed. simpl in Ed, H2. lia. }
  rewrite <- Ed. f_equal. f_equal.
  - apply take_ge. rewrite length_drop. lia.
  - rewrite drop_ge; [apply split_size_nil|]. rewrite length_drop. lia.
Qed.

(** [chunk(2)] gives two pieces unless there is exactly one row. *)
Lemma chunk_two {A : Type} (x : list A) :
  length x <> 1%nat ->
  chunk 2 x = [take ((length x + 1) / 2) x; drop ((length x + 1) / 2) x].
Proof.
  intros Hn. unfold chunk.
  replace (length x + 2 - 1)%nat with (length x + 1)%nat by lia.
  destruct (Nat.eq_dec (length x) 0%nat) as [E0|Hn0].
  { destruct x; [reflexivity | discriminate]. }
  pose proof (Nat.div_mod_eq (length x + 1) 2) as Hd.
  pose proof (Nat.mod_upper_bound (length x + 1) 2 ltac:(discriminate)) as Hm.
  revert Hd Hm. generalize ((length x + 1) / 2)%nat ((length x + 1) mod 2)%nat.
  intros q r Hd Hm.
  destruct (Nat.eqb_spec q 0) as [E|_]; [lia|].
  apply split_size_two; lia.
Qed.

Section LossEdges.
Context {T : Type} {ST : Scalar T}.

(** X15.  With prior preservation the loss can be computed exactly when
    neither the prediction nor the target has a single row; a one-row
    batch makes the unpacking of [chunk(2)] fail with [ValueError]. *)
Theorem loss_value_error_iff (model_pred target : tensor T) :
  loss true model_pred target = Raise ValueError
  <-> length model_pred = 1%nat \/ length target = 1%nat.
Proof.
  unfold loss.
  destruct (Nat.eq_dec (length model_pred) 1%nat) as [Ep|Hp].
  - destruct model_pred as [|r [|? ?]]; try discriminate. cbn. tauto.
  - rewrite (chunk_two model_pred Hp). cbn [unpack2].
    destruct (Nat.eq_dec (length target) 1%nat) as [Et|Ht].
    + destruct target as [|r [|? ?]]; try discriminate. cbn. tauto.
    + rewrite (chunk_two target Ht). cbn [unpack2]. split; [discriminate | tauto].
Qed.

(** X13.  The batch that [collate_fn] builds has one row per example without
    prior preservation and two with it, instance rows first, and for a
    non-empty batch [chunk(2)] cuts it back into the instance rows and the
    class rows. *)
Theorem collate_images_halves (with_prior : bool) (examples : list (example T)) :
  length (collate_images with_prior examples)
  = ((if with_prior then 2 else 1) * length examples)%nat /\
  (examples <> [] ->
   chunk 2 (collate_images true examples)
   = [map instance_image examples; map class_image examples]).
Proof.
  split.
  - unfold collate_images. destruct with_prior;
      rewrite ?length_app, !length_map; lia.
  - intros Hne. unfold collate_images. apply chunk_halves.
    + rewrite length_map. destruct examples; [congruence | simpl; lia].
    + rewrite !length_map. reflexivity.
Qed.
End LossEdges.

(** X20.  Below 2^53 the epoch count of line 158, computed through a
    binary64 quotient, is the least integer [n] with [x <= n * y]. *)
Theorem ceil_div_least (x y q : Z) :
  0 < y < 2 ^ 53 -> - 2 ^ 53 < x < 2 ^ 53 ->
  exists n, ceil_div x y = Ok n /\ (x <= q * y <-> n <= q).
Proof.
  intros Hy Hx. exists (ceiling x y). split; [apply ceil_div_small; assumption|].
  pose proof (ceiling_bounds x y ltac:(lia)) as B. split; intros H; nia.
Qed.

Section ExactLoss.
Variable root : Qc -> Qc.

Lemma Qc_square_nonneg (z : Qc) : (0 <= z * z)%Qc.
Proof.
  destruct (Qclt_le_dec z 0) as [Hlt|Hge].
  - replace (z * z)%Qc with ((- z) * (- z))%Qc by ring.
    assert (0 <= - z)%Qc.
    { apply Qclt_le_weak in Hlt. apply Qcle_minus_iff in Hlt.
      replace (0 + - z)%Qc with (- z)%Qc in Hlt by ring. exact Hlt. }
    apply Qcmult_nonneg_nonneg; assumption.
  - apply Qcmult_nonneg_nonneg; assumption.
Qed.

Lemma Qc_inv_nonneg (y : Qc) : (0 <= y)%Qc -> (0 <= / y)%Qc.
Proof.
  unfold Qcle. intros Hy.
  change (this (/ y)%Qc) with (Qred (/ this y)). change (this 0%Qc) with 0%Q in *.
  rewrite Qred_correct. apply Qinv_le_0_compat. exact Hy.
Qed.

Lemma sum_squares_nonneg (l1 l2 : list Qc) :
  (0 <= @sum_list _ (exact root)
          (zip_with (fun x y => @sc_mul _ (exact root) (@sc_sub _ (exact root) x y)
                                                       (@sc_sub _ (exact root) x y))
                    l1 l2))%Qc.
Proof.
  revert l2. induction l1 as [|a l1 IH]; intros [|b l2]; cbn; try apply Qcle_refl.
  apply Qcplus_nonneg_nonneg; [apply Qc_square_nonneg | apply IH].
Qed.

Lemma sum_squares_same (l : list Qc) :
  @sum_list _ (exact root)
     (zip_with (fun x y => @sc_mul _ (exact root) (@sc_sub _ (exact root) x y)
                                                  (@sc_sub _ (exact root) x y))
               l l) = 0%Qc.
Proof.
  unfold sum_list. induction l as [|a l IH]; [reflexivity|].
  cbn [zip_with foldr]. rewrite IH. cbn [sc_add sc_mul sc_sub exact].
  change (@sc_zero _ (exact root)) with 0%Qc. ring.
Qed.

(** X16.  In exact arithmetic the mean squared error of two tensors of one
    shape with at least one element (where [F.mse_loss] is the mean of the
    squared differences) is never negative, and it is zero when prediction
    and target coincide. *)
Theorem mse_loss_nonneg (input target : tensor Qc) :
  map length input = map length target ->
  numel input <> 0%nat ->
  (0 <= @mse_loss _ (exact root) input target)%Qc /\
  @mse_loss _ (exact root) input input = 0%Qc.
Proof.
  intros _ _. unfold mse_loss. split.
  - cbn [sc_div exact]. unfold Qcdiv. apply Qcmult_nonneg_nonneg.
    + apply sum_squares_nonneg.
    + apply Qc_inv_nonneg. cbn [sc_of_Z exact]. unfold Qcle.
      change (this (Q2Qc (inject_Z (Z.of_nat (numel input)))))
        with (Qred (inject_Z (Z.of_nat (numel input)))).
      change (this 0%Qc) with 0%Q.
      rewrite Qred_correct. unfold Qle. cbn. lia.
  - rewrite sum_squares_same. cbn [sc_div exact]. unfold Qcdiv. ring.
Qed.
End ExactLoss.

Lemma comprehension_ok {A B : Type} (f : A -> result B) (g : A -> B) (l : list A) :
  (forall a, a ∈ l -> f a = Ok (g a)) -> comprehension f l = Ok (map g l).
Proof.
  induction l as [|a l IH]; intros Hf; [reflexivity|].
  cbn [comprehension map]. rewrite (Hf a) by left.
  rewrite IH; [reflexivity|]. intros b Hb. apply Hf. right. exact Hb.
Qed.

Lemma getitem_nth {A : Type} (l : list A) (i : nat) (d : A) :
  (i < length l)%nat -> getitem l i = Ok (nth i l d).
Proof.
  intros Hi. unfold getitem.
  destruct (nth_lookup_or_length l i d) as [-> | ?]; [reflexivity | lia].
Qed.

Lemma map_nth_seq2 {A B C : Type} (f : A -> B -> C) (da : A) (db : B) (l : list A) (k : list B) :
  length k = length l ->
  map (fun i => f (nth i l da) (nth i k db)) (seq 0 (length l)) = zip_with f l k.
Proof.
  revert k. induction l as [|a l IH]; intros [|b k] Hl; try discriminate; [reflexivity|].
  cbn [length seq map zip_with nth]. f_equal.
  rewrite <- seq_shift, map_map. apply IH. simpl in Hl. lia.
Qed.

Lemma map_nth_seq {A : Type} (d : A) (l : list A) :
  map (fun i => nth i l d) (seq 0 (length l)) = l.
Proof.
  induction l as [|a l IH]; [reflexivity|].
  cbn [length seq map nth]. f_equal. rewrite <- seq_shift, map_map. exact IH.
Qed.

Section Inputs.
Context {T : Type} {ST : Scalar T}.

(** X6.  Once [parse_inputs] has passed its assertions, the index accesses
    of lines 102-104 cannot fail: there is one input per modifier token,
    its caption is ["<token> term"], and it has a prior directory exactly
    when prior preservation is on. *)
Theorem dataset_inputs_after_parse (a : Args T) (with_prior : bool)
    (mod_tokens init_tokens data_dirs term_data_dirs : list string) (tr : list (event T)) :
  parse_inputs a
  = (Ok (with_prior, mod_tokens, init_tokens, data_dirs, term_data_dirs), tr) ->
  exists inputs,
    dataset_inputs with_prior mod_tokens init_tokens data_dirs term_data_dirs = Ok inputs /\
    map caption inputs = zip_with fmt_pair mod_tokens init_tokens /\
    map input_data inputs = data_dirs /\
    map input_term_data inputs
    = (if with_prior then map Some term_data_dirs else map (fun _ => None) mod_tokens).
Proof.
  intros Hp. apply parse_inputs_ok_inv in Hp
    as (tok & trm & dat & _ & _ & _ & Hwp & _ & _ & _ & Hl1 & Hl2 & Htd & _).
  clear Hwp. unfold dataset_inputs.
  set (g := fun i => {| caption := fmt_pair (nth i mod_tokens "") (nth i init_tokens "");
                        input_term := nth i init_tokens "";
                        input_data := nth i data_dirs "";
                        input_term_data := None |}).
  rewrite (comprehension_ok _ g).
  2:{ intros i Hi. apply elem_of_seq in Hi.
      rewrite (getitem_nth mod_tokens i "") by lia.
      rewrite (getitem_nth init_tokens i "") by lia.
      rewrite (getitem_nth data_dirs i "") by lia. reflexivity. }
  assert (Hcap : map caption (map g (seq 0 (length mod_tokens)))
                 = zip_with fmt_pair mod_tokens init_tokens).
  { rewrite map_map. unfold g. cbn [caption]. apply map_nth_seq2. lia. }
  assert (Hdat : map input_data (map g (seq 0 (length mod_tokens))) = data_dirs).
  { rewrite map_map. unfold g. cbn [input_data].
    replace (length mod_tokens) with (length data_dirs) by lia. apply map_nth_seq. }
  destruct with_prior.
  - destruct (Htd eq_refl) as (td & _ & -> & Hl3).
    set (d0 := g 0%nat).
    set (h := fun i => {| caption := caption (nth i (map g (seq 0 (length mod_tokens))) d0);
                          input_term := input_term (nth i (map g (seq 0 (length mod_tokens))) d0);
                          input_data := input_data (nth i (map g (seq 0 (length mod_tokens))) d0);
                          input_term_data := Some (nth i (split plus_sign td) "") |}).
    rewrite (comprehension_ok _ h).
    2:{ intros i Hi. apply elem_of_seq in Hi.
        rewrite (getitem_nth _ i d0) by (rewrite length_map, length_seq; lia).
        rewrite (getitem_nth (split plus_sign td) i "") by lia. reflexivity. }
    eexists. split; [reflexivity|].
    assert (Hn : forall i, (i < length mod_tokens)%nat ->
                   nth i (map g (seq 0 (length mod_tokens))) d0 = g i).
    { intros i Hi. rewrite (nth_indep _ d0 (g 0%nat)) by (rewrite length_map, length_seq; lia).
      rewrite map_nth. rewrite seq_nth by lia. reflexivity. }
    split; [|split].
    + rewrite <- Hcap, !map_map. apply map_ext_in. intros i Hi. apply in_seq in Hi.
      unfold h. cbn [caption]. rewrite Hn by lia. reflexivity.
    + rewrite <- Hdat, !map_map. apply map_ext_in. intros i Hi. apply in_seq in Hi.
      unfold h. cbn [input_data]. rewrite Hn by lia. reflexivity.
    + rewrite map_map. unfold h. cbn [input_term_data].
      rewrite Hl3. rewrite <- (map_map (fun i => nth i (split plus_sign td) "") Some).
      rewrite map_nth_seq. reflexivity.
  - eexists. split; [reflexivity|]. split; [exact Hcap|]. split; [exact Hdat|].
    rewrite map_map. unfold g. cbn [input_term_data].
    clear. generalize 0%nat. induction mod_tokens as [|m l IH]; intros k; [reflexivity|].
    cbn [length seq map]. f_equal. apply IH.
Qed.

(** X4.  [parse_inputs] returns exactly when the three lists are given and
    have one length (and, with prior preservation, the prior list too);
    the modifier tokens it returns are wrapped, the others are the parts
    as given. *)
Theorem parse_inputs_ok_iff (a : Args T) :
  (exists r, parse_inputs a = (Ok r, []))
  <-> exists tok trm dat,
        token a = Some tok /\ term a = Some trm /\ data a = Some dat /\
        length (split plus_sign tok) = length (split plus_sign trm) /\
        length (split plus_sign trm) = length (split plus_sign dat) /\
        (forall td, term_data a = Some td ->
                    length (split plus_sign tok) = length (split plus_sign td)).
Proof.
  split.
  - intros [[[[[wp mt] it] dd] tdd] Hp].
    apply parse_inputs_ok_inv in Hp
      as (tok & trm & dat & Htok & Htrm & Hdat & -> & -> & -> & -> & Hl1 & Hl2 & Htd & _).
    exists tok, trm, dat. rewrite length_map in Hl1. repeat split; try assumption.
    intros td Htdd. unfold with_prior_of in Htd. rewrite Htdd, Htrm in Htd.
    destruct (Htd eq_refl) as (td' & [= <-] & -> & Hl3). rewrite length_map in Hl3. exact Hl3.
  - intros (tok & trm & dat & Htok & Htrm & Hdat & Hl1 & Hl2 & Htd).
    unfold parse_inputs, with_prior_of. rewrite Htok, Htrm, Hdat.
    cbn [attr bind ret app]. rewrite length_map, Hl1, Hl2, !Nat.eqb_refl.
    cbn [andb assert bind ret app].
    destruct (term_data a) as [td|]; cbn [attr bind ret app].
    + rewrite <- Hl2, <- Hl1, (Htd td eq_refl), Nat.eqb_refl.
      cbn [assert bind ret app]. eexists. reflexivity.
    + eexists. reflexivity.
Qed.
End Inputs.

(** X7 on a small input. *)
Lemma add_tokens_fresh_witness :
  snd (add_tokens tiny_tokenizer "<a>") = 1%nat /\
  len (fst (add_tokens tiny_tokenizer "<a>")) = 4%nat /\
  convert_tokens_to_ids (fst (add_tokens tiny_tokenizer "<a>")) "<a>" = 3%nat /\
  convert_tokens_to_ids (fst (add_tokens tiny_tokenizer "<a>")) "cat" = 0%nat.
Proof.
  apply (add_tokens_fresh tiny_tokenizer "<a>" "cat").
  - vm_compute. reflexivity.
  - discriminate.
Defined.

(** X9 on a small input. *)
Lemma empty_anchor_raises_witness :
  @prepare_tokens spec_float mute_world tiny_tokenizer [("<a>", "cat")]%string [] []
  = (Raise IndexError, [ev_add_tokens "<a>" 1]).
Proof.
  apply (@empty_anchor_raises spec_float mute_world tiny_tokenizer "<a>" "cat" [] [] []).
  reflexivity.
Defined.

(** X10 on a small input. *)
Lemma resize_token_embeddings_rows_witness :
  length (resize_token_embeddings tiny_world 5 (pretrained_embeds tiny_world)) = 5%nat /\
  resize_token_embeddings tiny_world 5 (pretrained_embeds tiny_world) !! 1%nat
  = Some [f32 2] /\
  resize_token_embeddings tiny_world 5 (pretrained_embeds tiny_world) !! 4%nat
  = Some [f32 0].
Proof.
  destruct (resize_token_embeddings_rows tiny_world 5 (pretrained_embeds tiny_world))
    as (Hlen & Hold & Hnew).
  split; [exact Hlen|]. split.
  - apply (Hold 1%nat); simpl; lia.
  - apply (Hnew 4%nat); simpl; lia.
Defined.

(** X11 on a small input. *)
Lemma init_embeds_copies_witness :
  exists embeds',
    @init_embeds spec_float
      [[f32 1]; [f32 2]; [f32 3]; [f32 0]; [f32 0]] [(3, 0); (4, 1)]%nat = Ok embeds' /\
    embeds' !! 3%nat = Some [f32 1] /\ embeds' !! 4%nat = Some [f32 2] /\
    embeds' !! 2%nat = Some [f32 3].
Proof.
  eexists. split; [reflexivity|].
  destruct (@init_embeds_copies spec_float [(3, 0); (4, 1)]%nat
              [[f32 1]; [f32 2]; [f32 3]; [f32 0]; [f32 0]]
              [[f32 1]; [f32 2]; [f32 3]; [f32 1]; [f32 2]] eq_refl)
    as (_ & Hcopy & Hother).
  - repeat constructor; intros H; repeat (apply elem_of_cons in H as [H|H]; try discriminate);
      inversion H.
  - intros x y Hx Hy. cbn in Hx, Hy.
    repeat (apply elem_of_cons in Hx as [Hx|Hx]; [subst x|]); [| |inversion Hx];
      repeat (apply elem_of_cons in Hy as [Hy|Hy]; [subst y|]); try inversion Hy; lia.
  - split; [exact (proj1 (Hcopy 3 0 ltac:(left))%nat)|].
    split; [exact (proj1 (Hcopy 4 1 ltac:(right; left))%nat)|].
    apply (Hother 2%nat). cbn. intros H.
    repeat (apply elem_of_cons in H as [H|H]; try discriminate). inversion H.
Defined.

(** X12 on a small input. *)
Lemma extend_vocabulary_shape_witness :
  exists tokenizer ids embeds tr,
    @extend_vocabulary spec_float tiny_world tiny_tokenizer (pretrained_embeds tiny_world)
      ["<a>"; "<b>"]%string ["cat"; "dog"]%string = (Ok (tokenizer, ids, embeds), tr) /\
    length ids = 2%nat /\ length embeds = len tokenizer.
Proof.
  destruct (@extend_vocabulary spec_float tiny_world tiny_tokenizer
              (pretrained_embeds tiny_world) ["<a>"; "<b>"]%string ["cat"; "dog"]%string)
    as [[[[tk ids] emb]|e] tr] eqn:E.
  - exists tk, ids, emb, tr. split; [reflexivity|].
    destruct (@extend_vocabulary_shape _ binary32 _ _ _ _ _ _ _ _ _ (f32 0) E) as (H1 & H2 & _).
    split; assumption.
  - vm_compute in E. discriminate.
Defined.

(** X23 on a small input. *)
Lemma main_completes_witness :
  exists s st tr,
    @main _ binary32 tiny_args tiny_world = (Ok (s, st), tr) /\
    global_step st = 7 /\
    Z.of_nat (count is_optimizer_step tr) = 7 /\
    Z.of_nat (count is_periodic_save tr) = 1 /\
    Z.of_nat (count is_sample tr) = 2 /\
    count is_final_save tr = 1%nat.
Proof.
  destruct (@extend_vocabulary spec_float tiny_world tiny_tokenizer
              (pretrained_embeds tiny_world) ["<a>"; "<b>"]%string ["cat"; "dog"]%string)
    as [[[[tk ids] emb]|e] tr] eqn:E.
  - apply (@main_completes _ binary32 tiny_args tiny_world false
             ["<a>"; "<b>"]%string ["cat"; "dog"]%string ["d1"; "d2"]%string []
             tiny_tokenizer tk (pretrained_embeds tiny_world) emb ids tr).
    + reflexivity.
    + reflexivity.
    + exact E.
    + reflexivity.
    + intros g p. reflexivity.
    + simpl. lia.
    + reflexivity.
    + split; [discriminate | reflexivity].
  - vm_compute in E. discriminate.
Defined.

(** X5 on a small input. *)
Lemma missing_list_raises_attribute_error_witness :
  @main _ binary32 (with_token tiny_args None) tiny_world
  = (Raise AttributeError,
     [ev_makedirs; ev_save_cfg; ev_from_pretrained text_encoder;
      ev_from_pretrained tokenizer_files; ev_from_pretrained unet;
      ev_from_pretrained vae; ev_from_pretrained scheduler]).
Proof.
  apply (@missing_list_raises_attribute_error _ binary32 (with_token tiny_args None)
           tiny_world).
  left. reflexivity.
Defined.

(** X26 on a small input. *)
Lemma second_backbone_only_in_custom_mode_witness :
  exists s st tr,
    @main _ binary32 tiny_args tiny_world = (Ok (s, st), tr) /\
    count is_from_pretrained tr = 6%nat.
Proof.
  destruct (@main _ binary32 tiny_args tiny_world) as [[[s st]|e] tr] eqn:E.
  - exists s, st, tr. split; [reflexivity|].
    exact (proj1 (@second_backbone_only_in_custom_mode _ binary32 tiny_args tiny_world
                    s st tr E)).
  - vm_compute in E. discriminate.
Defined.

(** X21 on a small input. *)
Lemma no_steps_requested_witness :
  @training_loop _ binary32 (with_args tiny_setup (with_train_steps tiny_args (-3)))
    tiny_train = (Ok tiny_train, []).
Proof.
  apply (@no_steps_requested _ binary32
           (with_args tiny_setup (with_train_steps tiny_args (-3))) tiny_train).
  - simpl. lia.
  - simpl. lia.
  - reflexivity.
  - reflexivity.
Defined.

(** X22 on a small input. *)
Lemma save_step_zero_raises_witness :
  @batches _ binary32 (with_args tiny_setup (with_save_step tiny_args 0)) 3 tiny_train
  = (Raise ZeroDivisionError, [ev_optimizer_step]).
Proof.
  apply (@save_step_zero_raises _ binary32
           (with_args tiny_setup (with_save_step tiny_args 0)) tiny_train 2).
  - reflexivity.
  - discriminate.
  - repeat split; vm_compute; reflexivity.
Defined.

(** X24 on a small input. *)
Lemma completed_run_had_no_sample_failure_witness :
  exists s st tr,
    @main _ binary32 tiny_args tiny_world = (Ok (s, st), tr) /\
    save_step tiny_args <> 0 /\
    pipetest_raises tiny_world 5 "photo of <a> cat" = false.
Proof.
  destruct (@main _ binary32 tiny_args tiny_world) as [[[s st]|e] tr] eqn:E.
  - exists s, st, tr. split; [reflexivity|].
    assert (Hg : global_step st = 7).
    { pose proof E as E'. vm_compute in E'. injection E' as _ <- _. reflexivity. }
    destruct (@completed_run_had_no_sample_failure _ binary32 tiny_args tiny_world
                s st tr 5 "<a>" "cat" E ltac:(rewrite Hg; lia)) as [Hne Hok].
    split; [exact Hne|]. apply Hok; [reflexivity|].
    vm_compute in E. injection E as <- _ _. left.
  - vm_compute in E. discriminate.
Defined.

(** X17 on a small input. *)
Lemma mask_grads_exact_witness :
  exists g,
    @mask_grads _ binary32 5 [3; 4]%nat
      [[f32 1]; [f32 1]; [f32 1]; [f32 1]; [f32 1]] = Ok g /\
    g !! 3%nat = Some [f32 1] /\ g !! 4%nat = Some [f32 0] /\ g !! 0%nat = Some [f32 0].
Proof.
  destruct (@mask_grads_exact _ binary32 5 [3; 4]%nat
              [[f32 1]; [f32 1]; [f32 1]; [f32 1]; [f32 1]] ltac:(discriminate) eq_refl)
    as (g & Hg & _ & Hrows).
  exists g. split; [exact Hg|].
  split; [exact (Hrows 3%nat [f32 1] eq_refl)|].
  split; [exact (Hrows 4%nat [f32 1] eq_refl) | exact (Hrows 0%nat [f32 1] eq_refl)].
Defined.

(** X18 on a small input. *)
Lemma update_embeddings_raises_iff_witness :
  @update_embeddings _ binary32 5 [] (optimizer tiny_train) tiny_embeds tiny_embeds
  = Raise IndexError.
Proof.
  apply (proj1 (@update_embeddings_raises_iff _ binary32 5 [] (optimizer tiny_train)
                  tiny_embeds tiny_embeds)).
  left. reflexivity.
Defined.

(** X19 on a small input. *)
Lemma pretrained_row_decays_witness :
  exists embeds' o',
    @update_embeddings _ (exact (fun q => q)) 2 [1%nat]
      (@new_AdamW _ (exact (fun q => q)) (Q2Qc (1 # 100000)) [[1%Qc]; [1%Qc]])
      [[1%Qc]; [1%Qc]] [[Q2Qc 5]; [Q2Qc 7]] = Ok (embeds', o') /\
    embeds' !! 0%nat
    = Some [(1 * (1 - Q2Qc (1 # 100000) * @lit _ (exact (fun q => q)) 1 100))%Qc].
Proof.
  destruct (pretrained_row_decays (fun q => q) 2 [1%nat]
              (@new_AdamW _ (exact (fun q => q)) (Q2Qc (1 # 100000)) [[1%Qc]; [1%Qc]])
              [[1%Qc]; [1%Qc]] [[Q2Qc 5]; [Q2Qc 7]] 0 [1%Qc] [Q2Qc 5])
    as (embeds' & o' & Hu & Hrow & _); try reflexivity.
  - discriminate.
  - intros H. apply list_elem_of_singleton in H. discriminate.
  - exists embeds', o'. split; [exact Hu | exact Hrow].
Defined.

(** X16 on a small input. *)
Lemma mse_loss_nonneg_witness :
  (0 <= @mse_loss _ (exact (fun q => q)) [[Q2Qc 3; Q2Qc 1]] [[Q2Qc 1; Q2Qc 2]])%Qc /\
  @mse_loss _ (exact (fun q => q)) [[Q2Qc 3; Q2Qc 1]] [[Q2Qc 3; Q2Qc 1]] = 0%Qc.
Proof.
  apply (mse_loss_nonneg (fun q => q) [[Q2Qc 3; Q2Qc 1]] [[Q2Qc 1; Q2Qc 2]]).
  - reflexivity.
  - discriminate.
Defined.

(** X14 on a small input. *)
Lemma concat_chunk_witness : concat (chunk 2 [1; 2; 3; 4; 5]) = [1; 2; 3; 4; 5].
Proof. apply (concat_chunk 2 [1; 2; 3; 4; 5]). lia. Defined.

(** X13 on a small input. *)
Lemma collate_images_halves_witness :
  chunk 2 (collate_images true
             [{| instance_image := [f32 1]; class_image := [f32 2] |};
              {| instance_image := [f32 3]; class_image := [f32 4] |}])
  = [[[f32 1]; [f32 3]]; [[f32 2]; [f32 4]]].
Proof.
  apply (proj2 (@collate_images_halves spec_float true
                  [{| instance_image := [f32 1]; class_image := [f32 2] |};
                   {| instance_image := [f32 3]; class_image := [f32 4] |}])).
  discriminate.
Defined.

(** X20 on a small input. *)
Lemma ceil_div_least_witness :
  exists n, ceil_div 7 3 = Ok n /\ (7 <= 3 * 3 <-> n <= 3).
Proof. apply (ceil_div_least 7 3 3); split; reflexivity. Defined.

(** X6 on a small input. *)
Lemma dataset_inputs_after_parse_witness :
  exists inputs,
    dataset_inputs false ["<a>"; "<b>"]%string ["cat"; "dog"]%string
      ["d1"; "d2"]%string [] = Ok inputs /\
    map caption inputs = ["<a> cat"; "<b> dog"]%string.
Proof.
  destruct (@dataset_inputs_after_parse spec_float tiny_args false
              ["<a>"; "<b>"]%string ["cat"; "dog"]%string ["d1"; "d2"]%string [] []
              eq_refl) as (inputs & Hi & Hc & _).
  exists inputs. split; [exact Hi | exact Hc].
Defined.

